(** * HazelJS: the packet codec and the per-peer connection state machine

    A shallow embedding of [src/data.ts] (class [HazelBuffer]) and of the
    two [Connection] classes that use it: the server-side one with the
    [seenHello] flag and the one the client wraps, whose [disconnect] takes
    a reason and a message.  JavaScript numbers that hold integers are [Z];
    the quotient that [ping] returns is a double, kept as the rational it
    is; a Node [Buffer] is a [list Z] of bytes and a string read from one
    is kept by its UTF-8 bytes; [Map<number, () => void>] is a
    [gmap Z Callback] whose closures are defunctionalised.

    The connection is driven by the events of its event loop (inbound
    datagrams, timer ticks, calls of the public methods); what it hands to
    the socket and what it emits are logged in the state.  Listeners other
    than the classes' own, the completion callback of [socket.send] and the
    two older revisions of the class (whose [pendingAck] is a [Set]) are
    left out.

    On top of the connection stand the server's table of connections
    ([handleMessage] of [server.ts]) and the [Client] wrapper of
    [client.ts] ([connect], [disconnect]). *)

From stdpp Require Import gmap list strings pretty.
From Stdlib Require Import ZArith Lia QArith Qabs Qpower.
Local Open Scope Z_scope.

(** ** Exceptions *)

(** Node raises [ERR_OUT_OF_RANGE] and [ERR_BUFFER_OUT_OF_BOUNDS], both
    [RangeError]s; [readPackedUInt32] throws a [RangeError] of its own. *)
Inductive Exn := RangeError.

Inductive result (A : Type) : Type :=
| Ok (a : A)
| Throw (e : Exn).
Arguments Ok {A} a.
Arguments Throw {A} e.

Definition rbind {A B} (r : result A) (k : A -> result B) : result B :=
  match r with
  | Ok a => k a
  | Throw e => Throw e
  end.

#[global] Instance result_ret : MRet result := fun A a => Ok a.
#[global] Instance result_bind : MBind result := fun A B k r => rbind r k.

(** ** JavaScript integer conversions *)

Module JS.

Definition toUint32 (z : Z) : Z := z mod 2 ^ 32.

Definition toInt32 (z : Z) : Z := (z + 2 ^ 31) mod 2 ^ 32 - 2 ^ 31.

(** [a & b], [a | b]: both operands through ToInt32. *)
Definition band (a b : Z) : Z := Z.land (toInt32 a) (toInt32 b).
Definition bor (a b : Z) : Z := Z.lor (toInt32 a) (toInt32 b).

(** [a << n]: the shift count is taken modulo 32, the result is an int32. *)
Definition shl (a n : Z) : Z := toInt32 (Z.shiftl (toInt32 a) (n mod 32)).

(** [a >>> n]: unsigned shift. *)
Definition ushr (a n : Z) : Z := Z.shiftr (toUint32 a) (n mod 32).

(** [Array.prototype.findIndex]: the index of the first element that
    satisfies [p], or -1. *)
Fixpoint findIndexFrom {A} (p : A -> bool) (l : list A) (i : Z) : Z :=
  match l with
  | [] => -1
  | x :: l' => if p x then i else findIndexFrom p l' (i + 1)
  end.

Definition findIndex {A} (p : A -> bool) (l : list A) : Z := findIndexFrom p l 0.

End JS.

(** ** JavaScript division *)

(** [a / b] on two integers that are doubles themselves (below [2 ^ 53]
    in magnitude), [b] not zero: IEEE 754 division gives the double
    nearest to the exact quotient, a tie going to the even significand.
    The quotient of two such integers is at least [2 ^ -53] in magnitude
    and below [2 ^ 53], where every double has 53 significant bits. *)
Module Double.

(** The integer nearest to [n / d] for [0 < d], a tie going to the even
    one. *)
Definition nearest (n d : Z) : Z :=
  let q := n / d in
  match 2 * (n mod d) ?= d with
  | Lt => q
  | Gt => q + 1
  | Eq => if Z.even q then q else q + 1
  end.

(** The binary exponent [e] of the quotient of two positive integers:
    [2 ^ e <= n / d < 2 ^ (e + 1)]. *)
Definition exponent (n d : Z) : Z :=
  if d <=? n then Z.log2 (n / d) else - Z.log2_up ((d + n - 1) / n).

(** [n / d] for positive [n] and [d], rounded to 53 significant bits:
    the last of them has the weight [2 ^ (e - 52)]. *)
Definition roundPos (n d : Z) : Q :=
  let p := exponent n d - 52 in
  let m := if 0 <=? p then nearest n (d * 2 ^ p) else nearest (n * 2 ^ (- p)) d in
  (inject_Z m * 2 ^ p)%Q.

Definition div (a b : Z) : Q :=
  if a =? 0 then 0%Q
  else if 0 <? a * b then roundPos (Z.abs a) (Z.abs b)
  else (- roundPos (Z.abs a) (Z.abs b))%Q.

End Double.

(** ** Node's Buffer *)

Module Buffer.

Definition alloc (size : Z) : list Z := replicate (Z.to_nat size) 0.

Definition inBounds (buf : list Z) (offset : Z) : bool :=
  (0 <=? offset) && (offset <? Z.of_nat (length buf)).

Definition readUInt8 (buf : list Z) (offset : Z) : result Z :=
  if 0 <=? offset then
    match buf !! Z.to_nat offset with
    | Some b => Ok b
    | None => Throw RangeError
    end
  else Throw RangeError.

(** [writeUInt8(value, offset = 0)]: returns [offset + 1]. *)
Definition writeUInt8 (value offset : Z) (buf : list Z) : result (list Z * Z) :=
  if (value <? 0) || (255 <? value) then Throw RangeError
  else if inBounds buf offset then Ok (<[Z.to_nat offset := value]> buf, offset + 1)
  else Throw RangeError.

Definition readUInt16BE (buf : list Z) (offset : Z) : result Z :=
  first ← readUInt8 buf offset;
  last ← readUInt8 buf (offset + 1);
  Ok (first * 2 ^ 8 + last).

Definition writeUInt16BE (value offset : Z) (buf : list Z) : result (list Z * Z) :=
  if (value <? 0) || (65535 <? value) then Throw RangeError
  else if inBounds buf offset && inBounds buf (offset + 1) then
    Ok (<[Z.to_nat (offset + 1) := Z.land value 255]>
          (<[Z.to_nat offset := Z.shiftr value 8]> buf), offset + 2)
  else Throw RangeError.

(** [buf.slice(start, end)] for non-negative indices: both are clamped to
    the length. *)
Definition slice (buf : list Z) (start stop : Z) : list Z :=
  take (Z.to_nat (stop - start)) (drop (Z.to_nat start) buf).

(** [src.copy(target, targetStart)]: copies as many bytes as fit and
    returns their number. *)
Definition copy (src target : list Z) (targetStart : Z) : result (list Z * Z) :=
  if targetStart <? 0 then Throw RangeError
  else if Z.of_nat (length target) <=? targetStart then Ok (target, 0)
  else
    let nb := Z.min (Z.of_nat (length src)) (Z.of_nat (length target) - targetStart) in
    Ok (take (Z.to_nat targetStart) target ++ take (Z.to_nat nb) src
          ++ drop (Z.to_nat (targetStart + nb)) target, nb).

End Buffer.

(** ** Strings *)

(** A JavaScript string as the codec observes it: through [str.length]
    (UTF-16 code units) and through [Buffer.from(str, 'utf8')]. *)
Record JsString := { js_length : Z; js_utf8 : list Z }.

Definition byte_of_ascii (a : Ascii.ascii) : Z := Z.of_N (Ascii.N_of_ascii a).

(** A string of ASCII characters: one code unit and one byte each. *)
Definition jsAscii (s : string) : JsString :=
  {| js_length := Z.of_nat (String.length s);
     js_utf8 := byte_of_ascii <$> String.list_ascii_of_string s |}.

(** ** Node's UTF-8 decoder *)

(** [buf.toString('utf8')].  The string that comes out is kept the way
    [js_utf8] keeps one, by its UTF-8 bytes: a well-formed sequence
    decodes to the character it encodes, whose bytes are the same, and
    every maximal ill-formed part decodes to U+FFFD, whose bytes are
    EF BF BD. *)
Module Utf8.

Definition replacement : list Z := [239; 191; 189].

(** The decoder between two bytes: the bytes of the sequence under way,
    the number of continuation bytes still needed and the bounds on the
    next one. *)
Record Decoder := { seen : list Z; needed : Z; lower : Z; upper : Z }.

Definition start : Decoder := {| seen := []; needed := 0; lower := 128; upper := 191 |}.

(** A byte met between two sequences: an ASCII byte is a character, a
    lead byte opens a sequence of two, three or four bytes, anything else
    is ill-formed.  After E0 and F0 the second byte must exclude the
    overlong forms, after ED the surrogates, after F4 what lies beyond
    U+10FFFF. *)
Definition lead (b : Z) : list Z * Decoder :=
  if b <=? 127 then ([b], start)
  else if (194 <=? b) && (b <=? 223)
  then ([], {| seen := [b]; needed := 1; lower := 128; upper := 191 |})
  else if (224 <=? b) && (b <=? 239)
  then ([], {| seen := [b]; needed := 2;
               lower := if b =? 224 then 160 else 128;
               upper := if b =? 237 then 159 else 191 |})
  else if (240 <=? b) && (b <=? 244)
  then ([], {| seen := [b]; needed := 3;
               lower := if b =? 240 then 144 else 128;
               upper := if b =? 244 then 143 else 191 |})
  else (replacement, start).

(** One byte: what it adds to the string, and the decoder after it.  A
    byte that cannot continue the sequence under way ends it with U+FFFD
    and is then read as the first byte of what follows. *)
Definition feed (b : Z) (s : Decoder) : list Z * Decoder :=
  if needed s =? 0 then lead b
  else if (b <? lower s) || (upper s <? b)
  then (replacement ++ (lead b).1, (lead b).2)
  else if needed s =? 1 then (seen s ++ [b], start)
  else ([], {| seen := seen s ++ [b]; needed := needed s - 1; lower := 128; upper := 191 |}).

(** A sequence cut short by the end of the buffer gives U+FFFD. *)
Fixpoint decode (bytes : list Z) (s : Decoder) : list Z :=
  match bytes with
  | [] => if needed s =? 0 then [] else replacement
  | b :: rest => (feed b s).1 ++ decode rest (feed b s).2
  end.

Definition toString (bytes : list Z) : list Z := decode bytes start.

Definition between (lo b hi : Z) : bool := (lo <=? b) && (b <=? hi).

(** Well-formed UTF-8, by the table of byte sequences of the Unicode
    standard. *)
Fixpoint wellFormed (bytes : list Z) : bool :=
  match bytes with
  | [] => true
  | b1 :: rest1 =>
      if between 0 b1 127 then wellFormed rest1
      else
        match rest1 with
        | [] => false
        | b2 :: rest2 =>
            if between 194 b1 223 then between 128 b2 191 && wellFormed rest2
            else
              match rest2 with
              | [] => false
              | b3 :: rest3 =>
                  if between 224 b1 239
                  then between (if b1 =? 224 then 160 else 128) b2
                               (if b1 =? 237 then 159 else 191)
                       && between 128 b3 191 && wellFormed rest3
                  else
                    match rest3 with
                    | [] => false
                    | b4 :: rest4 =>
                        between 240 b1 244
                        && between (if b1 =? 240 then 144 else 128) b2
                                   (if b1 =? 244 then 143 else 191)
                        && between 128 b3 191 && between 128 b4 191 && wellFormed rest4
                    end
              end
        end
  end.

End Utf8.

(** ** data.ts: HazelBuffer *)

Record HazelMessage := { tag : Z; data : list Z }.

Module HazelBuffer.

Definition PACKED_INT_LENGTH : list Z := [2 ^ 7; 2 ^ 14; 2 ^ 21; 2 ^ 28].

(** An omitted [offset] reaches Node as [undefined], which Node's
    default parameter turns into 0. *)
Definition orZero (offset : option Z) : Z := default 0 offset.

Definition readByte (buf : list Z) (offset : option Z) : result Z :=
  Buffer.readUInt8 buf (orZero offset).

Definition writeByte (byte : Z) (offset : option Z) (buf : list Z) : result (list Z * Z) :=
  Buffer.writeUInt8 byte (orZero offset) buf.

Definition readBoolean (buf : list Z) (offset : option Z) : result bool :=
  b ← Buffer.readUInt8 buf (orZero offset); Ok (b =? 1).

Definition writeBoolean (b : bool) (offset : option Z) (buf : list Z) : result (list Z * Z) :=
  Buffer.writeUInt8 (if b then 1 else 0) (orZero offset) buf.

Definition readUInt16 (buf : list Z) (offset : option Z) : result Z :=
  Buffer.readUInt16BE buf (orZero offset).

Definition writeUInt16 (short : Z) (offset : option Z) (buf : list Z) : result (list Z * Z) :=
  Buffer.writeUInt16BE short (orZero offset) buf.

(** The [do ... while (byte >= 0x80)] loop of [readPackedUInt32]; [None]
    is the loop running out of [fuel], which [readPackedLoop_total]
    excludes. *)
Fixpoint readPackedLoop (fuel : nat) (buf : list Z) (res shift cursor : Z)
  : option (result Z) :=
  match fuel with
  | O => None
  | S fuel' =>
      if (Z.of_nat (length buf) <=? cursor) || (21 <? shift) then Some (Throw RangeError)
      else
        match Buffer.readUInt8 buf cursor with
        | Throw e => Some (Throw e)
        | Ok byte =>
            let res' := res + JS.shl (JS.band byte 127) shift in
            let shift' := shift + 7 in
            if 128 <=? byte then readPackedLoop fuel' buf res' shift' (cursor + 1)
            else Some (Ok res')
        end
  end.

Definition readPackedFuel : nat := 5.

(** The loop reads at most four bytes ([readPackedLoop_total]), so the
    default branch below is dead. *)
Definition readPackedUInt32 (buf : list Z) (offset : option Z) : result Z :=
  match readPackedLoop readPackedFuel buf 0 0 (orZero offset) with
  | Some r => r
  | None => Throw RangeError
  end.

(** The [while (int & -0x80)] loop of [writePackedUInt32] and the write
    after it; the value returned is [cursor]. *)
Fixpoint writePackedLoop (fuel : nat) (int offset cursor : Z) (buf : list Z)
  : option (result (list Z * Z)) :=
  match fuel with
  | O => None
  | S fuel' =>
      if negb (JS.band int (-128) =? 0) then
        match Buffer.writeUInt8 (JS.bor (JS.band int 255) 128) (offset + cursor) buf with
        | Throw e => Some (Throw e)
        | Ok (buf', _) => writePackedLoop fuel' (JS.ushr int 7) offset (cursor + 1) buf'
        end
      else
        match Buffer.writeUInt8 (JS.bor int 0) (offset + cursor) buf with
        | Throw e => Some (Throw e)
        | Ok (buf', _) => Some (Ok (buf', cursor))
        end
  end.

Definition writePackedFuel : nat := 5.

(** The loop writes at most five bytes ([writePackedLoop_total]), so the
    default branch below is dead. *)
Definition writePackedUInt32 (int : Z) (offset : option Z) (buf : list Z)
  : result (list Z * Z) :=
  match writePackedLoop writePackedFuel int (orZero offset) 0 buf with
  | Some r => r
  | None => Throw RangeError
  end.

(** [findIndex(...) + 1 || PACKED_INT_LENGTH.length]: [+] binds tighter
    than [||], and 0 is the only falsy sum. *)
Definition getPackedUInt32Size (int : Z) : Z :=
  let found := JS.findIndex (fun b => int <? b) PACKED_INT_LENGTH + 1 in
  if found =? 0 then Z.of_nat (length PACKED_INT_LENGTH) else found.

(** [readString]: the string that [strBuf.toString('utf8')] returns, by
    its UTF-8 bytes. *)
Definition readString (buf : list Z) (offset : option Z) : result (list Z) :=
  len ← readPackedUInt32 buf offset;
  let read := getPackedUInt32Size len in
  let strBuf := Buffer.slice buf (orZero offset + read) (orZero offset + read + len) in
  Ok (Utf8.toString strBuf).

(** [writeString]: [len] is what [writePackedUInt32] returned. *)
Definition writeString (str : JsString) (offset : option Z) (buf : list Z)
  : result (list Z * Z) :=
  let strBuf := js_utf8 str in
  '(buf1, len) ← writePackedUInt32 (Z.of_nat (length strBuf)) offset buf;
  '(buf2, _) ← Buffer.copy strBuf buf1 (orZero offset + len);
  Ok (buf2, len + Z.of_nat (length strBuf)).

Definition readHazelMessage (buf : list Z) (offset : option Z) : result HazelMessage :=
  len ← Buffer.readUInt16BE buf (orZero offset);
  tag ← Buffer.readUInt8 buf (orZero offset + 2);
  Ok {| tag := tag;
        data := Buffer.slice buf (orZero offset + 3) (orZero offset + 3 + len) |}.

Definition writeHazelMessage (message : HazelMessage) (offset : option Z) (buf : list Z)
  : result (list Z * Z) :=
  let offset := orZero offset in
  '(buf1, _) ← Buffer.writeUInt16BE (Z.of_nat (length (data message))) offset buf;
  '(buf2, _) ← Buffer.writeUInt8 (tag message) (offset + 2) buf1;
  '(buf3, _) ← Buffer.copy (data message) buf2 (offset + 3);
  Ok (buf3, 3 + Z.of_nat (length (data message))).

End HazelBuffer.

(** ** constants.ts *)

(** Modelled from the spec: [constants.ts] is not among the sources; the
    packet type bytes are those of the specification's data model
    (NORMAL 0x00, RELIABLE 0x01, FRAGMENT 0x05, HELLO 0x08, DISCONNECT 0x09,
    ACKNOWLEDGEMENT 0x0A, PING 0x0C). *)
Module PacketType.
Definition NORMAL : Z := 0.
Definition RELIABLE : Z := 1.
Definition FRAGMENT : Z := 5.
Definition HELLO : Z := 8.
Definition DISCONNECT : Z := 9.
Definition ACKNOWLEDGEMENT : Z := 10.
Definition PING : Z := 12.
End PacketType.

(** ** The connection record *)

(** The two [Connection] classes: the one that tracks [seenHello] and
    emits [hello] (server role), and the one whose [disconnect] takes a
    reason and a message and which parses inbound DISCONNECT packets (the
    class the client wraps). *)
Inductive Role := ServerSide | ClientSide.

(** The closures stored in [pendingAck]. *)
Inductive Callback :=
| OnAckReliable (id : nat)     (* clearInterval(interval); resolve(bytes) *)
| OnAckPing (pingTime : Z).    (* pendingPings--; lastPings.shift(); lastPings.push(...) *)

Inductive Promise := Pending | Resolved | Rejected.

(** One call of [sendReliable]: the promise it returned, the buffer and
    the counter its interval closes over, and whether the interval is
    still armed. *)
Record Reliable := {
  r_buf : list Z;
  r_attempts : Z;
  r_armed : bool;
  r_promise : Promise
}.

(** The events; the message of [close] is a string, kept by its UTF-8
    bytes. *)
Inductive Emitted :=
| EvHello (payload : list Z)
| EvMessage (msg : HazelMessage)
| EvClose (forced : option bool) (reason : option Z) (message : option (list Z)).

Record Connection := {
  pingTimer : bool;                 (* the 1500 ms interval is armed *)
  pendingAck : gmap Z Callback;
  pendingPings : Z;
  lastPings : list Z;
  seenHello : bool;
  nonce : Z;
  closeListener : bool;             (* the once('close') listener is registered *)
  reliables : list Reliable;        (* one entry per sendReliable call, oldest first *)
  sent : list (list Z);             (* datagrams passed to socket.send, oldest first *)
  emitted : list Emitted            (* events emitted, oldest first *)
}.

(** What a call leaves behind besides the state: it returns, or an
    exception leaves it (for the [async] methods: the returned promise is
    rejected with it). *)
Inductive Outcome := Returned | Thrown (e : Exn).

(** The events that drive a connection. *)
Inductive Input :=
| Data (now : Z) (msg : list Z)     (* emit('data', msg), Date.now() = now *)
| PingTick (now : Z)                (* the ping interval fires *)
| RetxTick (id : nat)               (* the interval of the id-th sendReliable fires *)
| CallSendNormal (messages : list HazelMessage)
| CallSendReliable (messages : list HazelMessage)
| CallDisconnect (forced : option bool) (reason : option Z) (message : option JsString).

Module Conn.

Definition init : Connection :=
  {| pingTimer := true; pendingAck := ∅; pendingPings := 0;
     lastPings := [0; 0; 0; 0; 0]; seenHello := false; nonce := 0;
     closeListener := true; reliables := []; sent := []; emitted := [] |}.

Definition set_pingTimer (v : bool) (c : Connection) : Connection :=
  {| pingTimer := v; pendingAck := pendingAck c; pendingPings := pendingPings c;
     lastPings := lastPings c; seenHello := seenHello c; nonce := nonce c;
     closeListener := closeListener c; reliables := reliables c; sent := sent c;
     emitted := emitted c |}.

Definition set_pendingAck (v : gmap Z Callback) (c : Connection) : Connection :=
  {| pingTimer := pingTimer c; pendingAck := v; pendingPings := pendingPings c;
     lastPings := lastPings c; seenHello := seenHello c; nonce := nonce c;
     closeListener := closeListener c; reliables := reliables c; sent := sent c;
     emitted := emitted c |}.

Definition set_pendingPings (v : Z) (c : Connection) : Connection :=
  {| pingTimer := pingTimer c; pendingAck := pendingAck c; pendingPings := v;
     lastPings := lastPings c; seenHello := seenHello c; nonce := nonce c;
     closeListener := closeListener c; reliables := reliables c; sent := sent c;
     emitted := emitted c |}.

Definition set_lastPings (v : list Z) (c : Connection) : Connection :=
  {| pingTimer := pingTimer c; pendingAck := pendingAck c; pendingPings := pendingPings c;
     lastPings := v; seenHello := seenHello c; nonce := nonce c;
     closeListener := closeListener c; reliables := reliables c; sent := sent c;
     emitted := emitted c |}.

Definition set_seenHello (v : bool) (c : Connection) : Connection :=
  {| pingTimer := pingTimer c; pendingAck := pendingAck c; pendingPings := pendingPings c;
     lastPings := lastPings c; seenHello := v; nonce := nonce c;
     closeListener := closeListener c; reliables := reliables c; sent := sent c;
     emitted := emitted c |}.

Definition set_nonce (v : Z) (c : Connection) : Connection :=
  {| pingTimer := pingTimer c; pendingAck := pendingAck c; pendingPings := pendingPings c;
     lastPings := lastPings c; seenHello := seenHello c; nonce := v;
     closeListener := closeListener c; reliables := reliables c; sent := sent c;
     emitted := emitted c |}.

Definition set_closeListener (v : bool) (c : Connection) : Connection :=
  {| pingTimer := pingTimer c; pendingAck := pendingAck c; pendingPings := pendingPings c;
     lastPings := lastPings c; seenHello := seenHello c; nonce := nonce c;
     closeListener := v; reliables := reliables c; sent := sent c;
     emitted := emitted c |}.

Definition set_reliables (v : list Reliable) (c : Connection) : Connection :=
  {| pingTimer := pingTimer c; pendingAck := pendingAck c; pendingPings := pendingPings c;
     lastPings := lastPings c; seenHello := seenHello c; nonce := nonce c;
     closeListener := closeListener c; reliables := v; sent := sent c;
     emitted := emitted c |}.

Definition set_sent (v : list (list Z)) (c : Connection) : Connection :=
  {| pingTimer := pingTimer c; pendingAck := pendingAck c; pendingPings := pendingPings c;
     lastPings := lastPings c; seenHello := seenHello c; nonce := nonce c;
     closeListener := closeListener c; reliables := reliables c; sent := v;
     emitted := emitted c |}.

Definition set_emitted (v : list Emitted) (c : Connection) : Connection :=
  {| pingTimer := pingTimer c; pendingAck := pendingAck c; pendingPings := pendingPings c;
     lastPings := lastPings c; seenHello := seenHello c; nonce := nonce c;
     closeListener := closeListener c; reliables := reliables c; sent := sent c;
     emitted := v |}.

(** *** Emitting and sending *)

Definition isClose (e : Emitted) : bool :=
  match e with
  | EvClose _ _ _ => true
  | _ => false
  end.

(** [this.emit(...)]: listeners run synchronously.  The class registers
    one listener of its own, [once('close', ...)], which clears the ping
    interval and [pendingAck] and is then removed. *)
Definition emit (e : Emitted) (c : Connection) : Connection :=
  let c := set_emitted (emitted c ++ [e]) c in
  if isClose e && closeListener c
  then set_pendingAck ∅ (set_pingTimer false (set_closeListener false c))
  else c.

(** [sendRaw]: the datagram is handed to [socket.send]. *)
Definition sendRaw (buf : list Z) (c : Connection) : Connection :=
  set_sent (sent c ++ [buf]) c.

Definition getNonce (c : Connection) : Connection * Z :=
  let n := Z.rem (nonce c + 1) 65535 in
  (set_nonce n c, n).

Definition has (m : gmap Z Callback) (k : Z) : bool :=
  match m !! k with
  | Some _ => true
  | None => false
  end.

(** *** sendAck *)

(** [for (let i = 1; i <= 8; i++) if (!this.pendingAck.has(nonce - i))
    pending |= 1 << (i - 1)] *)
Definition ackMask (pa : gmap Z Callback) (nonce : Z) : Z :=
  foldl (fun pending i =>
           if negb (has pa (nonce - i)) then JS.bor pending (JS.shl 1 (i - 1))
           else pending)
        0 (seqZ 1 8).

Definition ackBuffer (nonce pending : Z) : result (list Z) :=
  '(b, _) ← HazelBuffer.writeByte PacketType.ACKNOWLEDGEMENT None (Buffer.alloc 4);
  '(b, _) ← HazelBuffer.writeUInt16 nonce (Some 1) b;
  '(b, _) ← HazelBuffer.writeByte pending (Some 3) b;
  Ok b.

Definition sendAck (nonce : Z) (c : Connection) : Connection :=
  match ackBuffer nonce (ackMask (pendingAck c) nonce) with
  | Ok buf => sendRaw buf c
  | Throw _ => c
  end.

(** *** disconnect *)

Definition disconnectBuffer (flag : bool) : result (list Z) :=
  '(b, _) ← HazelBuffer.writeByte PacketType.DISCONNECT None (Buffer.alloc 2);
  '(b, _) ← HazelBuffer.writeBoolean flag None b;
  Ok b.

(** [async disconnect (force?: boolean)] of the server-side class. *)
Definition disconnectServer (force : option bool) (c : Connection)
  : Connection * Outcome :=
  let c := emit (EvClose None None None) c in
  match disconnectBuffer (negb (default false force)) with
  | Ok buf => (sendRaw buf c, Returned)
  | Throw e => (c, Thrown e)
  end.

(** [if (message)]: a string is truthy when it is not empty. *)
Definition truthy (message : option JsString) : option JsString :=
  match message with
  | Some s => if js_length s =? 0 then None else Some s
  | None => None
  end.

Definition reasonBuffer (reason : Z) (message : option JsString) : result (list Z) :=
  let reasonLength :=
    1 + match truthy message with
        | Some s => HazelBuffer.getPackedUInt32Size (js_length s) + js_length s
        | None => 0
        end in
  '(b, _) ← HazelBuffer.writeByte reason None (Buffer.alloc reasonLength);
  match truthy message with
  | Some s => '(b, _) ← HazelBuffer.writeString s (Some 1) b; Ok b
  | None => Ok b
  end.

Definition gracefulBuffer (forced : bool) (reasonBuf : list Z) : result (list Z) :=
  '(b, _) ← HazelBuffer.writeByte PacketType.DISCONNECT None
              (Buffer.alloc (5 + Z.of_nat (length reasonBuf)));
  '(b, _) ← HazelBuffer.writeBoolean (negb forced) None b;
  '(b, _) ← HazelBuffer.writeHazelMessage {| tag := 0; data := reasonBuf |} None b;
  Ok b.

(** [async disconnect (forced: boolean = false, reason?, message?)] of
    the class the client wraps. *)
Definition disconnectClient (forced : option bool) (reason : option Z)
    (message : option JsString) (c : Connection) : Connection * Outcome :=
  let forced := default false forced in
  match negb forced, reason with
  | true, Some r =>
      match reasonBuf ← reasonBuffer r message; gracefulBuffer forced reasonBuf with
      | Ok buf => (sendRaw buf c, Returned)
      | Throw e => (c, Thrown e)
      end
  | _, _ =>
      match disconnectBuffer true with
      | Ok buf =>
          let c := emit (EvClose (Some forced) reason (js_utf8 <$> message)) c in
          (sendRaw buf c, Returned)
      | Throw e => (c, Thrown e)
      end
  end.

Definition disconnect (role : Role) (forced : option bool) (reason : option Z)
    (message : option JsString) (c : Connection) : Connection * Outcome :=
  match role with
  | ServerSide => disconnectServer forced c
  | ClientSide => disconnectClient forced reason message c
  end.

(** *** sendNormal, sendReliable *)

(** [messages.reduce((a, b) => a + b.data.length + 3, start)] *)
Definition messagesLength (start : Z) (messages : list HazelMessage) : Z :=
  foldl (fun a b => a + Z.of_nat (length (data b)) + 3) start messages.

(** [messages.forEach((message) => cursor += buf.writeHazelMessage(message, cursor))] *)
Fixpoint writeMessages (messages : list HazelMessage) (cursor : Z) (buf : list Z)
  : result (list Z) :=
  match messages with
  | [] => Ok buf
  | m :: ms =>
      '(buf', n) ← HazelBuffer.writeHazelMessage m (Some cursor) buf;
      writeMessages ms (cursor + n) buf'
  end.

Definition normalBuffer (messages : list HazelMessage) : result (list Z) :=
  '(b, _) ← HazelBuffer.writeByte PacketType.NORMAL None
              (Buffer.alloc (messagesLength 1 messages));
  writeMessages messages 1 b.

Definition sendNormal (messages : list HazelMessage) (c : Connection)
  : Connection * Outcome :=
  match normalBuffer messages with
  | Ok buf => (sendRaw buf c, Returned)
  | Throw e => (c, Thrown e)
  end.

Definition reliableBuffer (nonce : Z) (messages : list HazelMessage) : result (list Z) :=
  '(b, _) ← HazelBuffer.writeByte PacketType.RELIABLE None
              (Buffer.alloc (messagesLength 3 messages));
  '(b, _) ← HazelBuffer.writeUInt16 nonce (Some 1) b;
  writeMessages messages 3 b.

(** The promise executor of [sendReliable]: the interval is armed with
    [attempts = 0], [send()] runs once, and the callback is stored under
    the nonce. *)
Definition sendReliable (messages : list HazelMessage) (c : Connection)
  : Connection * Outcome :=
  let '(c, nonce) := getNonce c in
  match reliableBuffer nonce messages with
  | Throw e => (c, Thrown e)
  | Ok buf =>
      let id := length (reliables c) in
      let c := set_reliables
                 (reliables c ++ [{| r_buf := buf; r_attempts := 0; r_armed := true;
                                     r_promise := Pending |}]) c in
      let c := sendRaw buf c in
      (set_pendingAck (<[nonce := OnAckReliable id]> (pendingAck c)) c, Returned)
  end.

Definition settle (p : Promise) (r : Reliable) : Reliable :=
  {| r_buf := r_buf r; r_attempts := r_attempts r; r_armed := r_armed r;
     r_promise := match r_promise r with Pending => p | settled => settled end |}.

Definition clearRetx (r : Reliable) : Reliable :=
  {| r_buf := r_buf r; r_attempts := r_attempts r; r_armed := false;
     r_promise := r_promise r |}.

Definition countAttempt (r : Reliable) : Reliable :=
  {| r_buf := r_buf r; r_attempts := r_attempts r + 1; r_armed := r_armed r;
     r_promise := r_promise r |}.

Definition updReliable (id : nat) (f : Reliable -> Reliable) (c : Connection) : Connection :=
  set_reliables (alter f id (reliables c)) c.

(** The interval callback of the [id]-th reliable send; a cleared
    interval does not fire. *)
Definition retxTick (role : Role) (id : nat) (c : Connection) : Connection * Outcome :=
  match reliables c !! id with
  | None => (c, Returned)
  | Some r =>
      if r_armed r then
        if r_attempts r =? 10 then
          let c := updReliable id (fun r => settle Rejected (clearRetx r)) c in
          disconnect role (Some true) None None c
        else
          (updReliable id countAttempt (sendRaw (r_buf r) c), Returned)
      else (c, Returned)
  end.

(** *** sendPing and the ack callbacks *)

Definition pingBuffer (nonce : Z) : result (list Z) :=
  '(b, _) ← HazelBuffer.writeByte PacketType.PING None (Buffer.alloc 3);
  '(b, _) ← HazelBuffer.writeUInt16 nonce (Some 1) b;
  Ok b.

Definition sendPing (role : Role) (now : Z) (c : Connection) : Connection * Outcome :=
  if 10 <=? pendingPings c then disconnect role (Some true) None None c
  else
    let '(c, nonce) := getNonce c in
    let c := set_pendingAck (<[nonce := OnAckPing now]> (pendingAck c)) c in
    let c := set_pendingPings (pendingPings c + 1) c in
    match pingBuffer nonce with
    | Ok buf => (sendRaw buf c, Returned)
    | Throw e => (c, Thrown e)
    end.

(** [this.pendingAck.get(id)!()] *)
Definition runCallback (now : Z) (cb : Callback) (c : Connection) : Connection :=
  match cb with
  | OnAckReliable id => updReliable id (fun r => settle Resolved (clearRetx r)) c
  | OnAckPing pingTime =>
      let c := set_pendingPings (pendingPings c - 1) c in
      set_lastPings (tail (lastPings c) ++ [now - pingTime]) c
  end.

Definition handleAck (now : Z) (msg : list Z) (c : Connection) : Connection * Outcome :=
  if 3 <=? Z.of_nat (length msg) then
    match Buffer.readUInt16BE msg 1 with
    | Throw e => (c, Thrown e)
    | Ok id =>
        match pendingAck c !! id with
        | Some cb =>
            let c := runCallback now cb c in
            (set_pendingAck (delete id (pendingAck c)) c, Returned)
        | None => (c, Returned)
        end
    end
  else (c, Returned).

Definition handlePing (msg : list Z) (c : Connection) : Connection * Outcome :=
  if 3 <=? Z.of_nat (length msg) then
    match Buffer.readUInt16BE msg 1 with
    | Throw e => (c, Thrown e)
    | Ok n => (sendAck n c, Returned)
    end
  else (c, Returned).

(** *** handleMessagePacket *)

(** [while (cursor < msg.length)]: [None] is the loop running out of
    [fuel]; every round moves the cursor by at least 3. *)
Fixpoint messageLoop (fuel : nat) (msg : list Z) (cursor : Z) (c : Connection)
  : option (Connection * Outcome) :=
  if cursor <? Z.of_nat (length msg) then
    match fuel with
    | O => None
    | S fuel' =>
        match HazelBuffer.readHazelMessage msg (Some cursor) with
        | Throw e => Some (c, Thrown e)
        | Ok message =>
            messageLoop fuel' msg (cursor + (3 + Z.of_nat (length (data message))))
              (emit (EvMessage message) c)
        end
    end
  else Some (c, Returned).

(** [length msg] rounds are enough ([messageLoop_total]); the default
    branch is dead. *)
Definition readMessages (msg : list Z) (cursor : Z) (c : Connection) : Connection * Outcome :=
  match messageLoop (length msg) msg cursor c with
  | Some r => r
  | None => (c, Returned)
  end.

(** [if (ack) this.sendAck(msg.readUInt16(1))] *)
Definition maybeAck (msg : list Z) (ack : bool) (c : Connection) : result Connection :=
  if ack then n ← HazelBuffer.readUInt16 msg (Some 1); Ok (sendAck n c)
  else Ok c.

(** The [else] branch of the DISCONNECT case: the reason record is read
    at offset 2, then the flag, the reason byte and, when the record is
    longer than one byte, the message. *)
Definition parseDisconnect (msg : list Z) : result Emitted :=
  m ← HazelBuffer.readHazelMessage msg (Some 2);
  let message := data m in
  if 1 <? Z.of_nat (length message) then
    graceful ← HazelBuffer.readBoolean msg (Some 1);
    reason ← HazelBuffer.readByte message None;
    text ← HazelBuffer.readString message (Some 1);
    Ok (EvClose (Some (negb graceful)) (Some reason) (Some text))
  else
    graceful ← HazelBuffer.readBoolean msg (Some 1);
    reason ← HazelBuffer.readByte message None;
    Ok (EvClose (Some (negb graceful)) (Some reason) None).

Section Version.

(** [HAZEL_VERSION] of [constants.ts], which is not among the sources. *)
Variable HAZEL_VERSION : Z.

Definition handleMessagePacketServer (msg : list Z) (ack : bool) (c : Connection)
  : Connection * Outcome :=
  let cursor := if ack then 3 else 1 in
  if Z.of_nat (length msg) <? cursor then disconnect ServerSide (Some true) None None c
  else
    match maybeAck msg ack c with
    | Throw e => (c, Thrown e)
    | Ok c =>
        match HazelBuffer.readByte msg (Some 0) with
        | Throw e => (c, Thrown e)
        | Ok first =>
            if first =? PacketType.HELLO then
              if seenHello c || (Z.of_nat (length msg) <? 4)
              then disconnect ServerSide (Some true) None None c
              else
                let c := set_seenHello true c in
                match HazelBuffer.readByte msg (Some 3) with
                | Throw e => (c, Thrown e)
                | Ok hazelVer =>
                    if negb (hazelVer =? HAZEL_VERSION)
                    then disconnect ServerSide (Some true) None None c
                    else (emit (EvHello (Buffer.slice msg 4 (Z.of_nat (length msg)))) c,
                          Returned)
                end
            else readMessages msg cursor c
        end
    end.

Definition handleMessagePacketClient (msg : list Z) (ack : bool) (c : Connection)
  : Connection * Outcome :=
  let cursor := if ack then 3 else 1 in
  if Z.of_nat (length msg) <? cursor then disconnect ClientSide (Some true) None None c
  else
    match HazelBuffer.readByte msg (Some 0) with
    | Throw e => (c, Thrown e)
    | Ok first =>
        if first =? PacketType.HELLO then disconnect ClientSide (Some true) None None c
        else
          match maybeAck msg ack c with
          | Throw e => (c, Thrown e)
          | Ok c => readMessages msg cursor c
          end
    end.

Definition handleMessagePacket (role : Role) (msg : list Z) (ack : bool) (c : Connection)
  : Connection * Outcome :=
  match role with
  | ServerSide => handleMessagePacketServer msg ack c
  | ClientSide => handleMessagePacketClient msg ack c
  end.

(** The DISCONNECT case of [handleMessage]: the server-side class emits
    [close] at once; the other parses the packet ([parseDisconnect]
    evaluates the arguments of [emit]) before anything is emitted. *)
Definition handleDisconnect (role : Role) (msg : list Z) (c : Connection)
  : Connection * Outcome :=
  match role with
  | ServerSide => (emit (EvClose None None None) c, Returned)
  | ClientSide =>
      if Z.of_nat (length msg) =? 1 then (emit (EvClose (Some true) None None) c, Returned)
      else
        match parseDisconnect msg with
        | Ok e => (emit e c, Returned)
        | Throw e => (c, Thrown e)
        end
  end.

(** [switch (msg[0])]: an empty datagram and an unknown first byte
    match no case. *)
Definition handleMessage (role : Role) (now : Z) (msg : list Z) (c : Connection)
  : Connection * Outcome :=
  match msg with
  | [] => (c, Returned)
  | first :: _ =>
      if first =? PacketType.NORMAL then handleMessagePacket role msg false c
      else if (first =? PacketType.HELLO) || (first =? PacketType.RELIABLE)
      then handleMessagePacket role msg true c
      else if first =? PacketType.DISCONNECT then handleDisconnect role msg c
      else if first =? PacketType.ACKNOWLEDGEMENT then handleAck now msg c
      else if first =? PacketType.FRAGMENT then (c, Returned)
      else if first =? PacketType.PING then handlePing msg c
      else (c, Returned)
  end.

(** One event of the connection's event loop. *)
Definition step (role : Role) (i : Input) (c : Connection) : Connection * Outcome :=
  match i with
  | Data now msg => handleMessage role now msg c
  | PingTick now => if pingTimer c then sendPing role now c else (c, Returned)
  | RetxTick id => retxTick role id c
  | CallSendNormal messages => sendNormal messages c
  | CallSendReliable messages => sendReliable messages c
  | CallDisconnect forced reason message => disconnect role forced reason message c
  end.

(** A sequence of events; an exception that leaves a handler does not
    stop the later ones. *)
Definition run (role : Role) (inputs : list Input) (c : Connection) : Connection :=
  foldl (fun c i => (step role i c).1) c inputs.

End Version.

(** [get ping ()]: [lastPings.reduce((a, b) => a + b, 0) / 5]; the sum
    is an integer, the quotient is the double that the division gives. *)
Definition ping (c : Connection) : Q :=
  Double.div (foldl Z.add 0%Z (lastPings c)) 5.

End Conn.

(** ** Notions used by the statements *)

(** The values [writePackedUInt32] passes to [writeUInt8], in order, for an
    unsigned [u]: seven bits at a time, low bits first, the high bit set on
    all but the last. *)
Fixpoint packedBytes (fuel : nat) (u : Z) : list Z :=
  match fuel with
  | O => []
  | S fuel' => if u <? 128 then [u] else (u mod 128 + 128) :: packedBytes fuel' (u / 128)
  end.

(** [buf] with [bytes] written over it from position [pos] on. *)
Definition splice (buf : list Z) (pos : Z) (bytes : list Z) : list Z :=
  take (Z.to_nat pos) buf ++ bytes ++ drop (Z.to_nat pos + length bytes) buf.

(** A byte of a datagram. *)
Definition isByte (b : Z) : Prop := 0 ≤ b < 256.

(** The promise returned by the [id]-th call of [sendReliable]. *)
Definition promiseOf (id : nat) (c : Connection) : option Promise :=
  r_promise <$> reliables c !! id.

(** The number of [close] events in a list of emitted events. *)
Definition closes (l : list Emitted) : nat := length (List.filter Conn.isClose l).

Definition closeCount (c : Connection) : nat := closes (emitted c).

Definition isTick (id : nat) (i : Input) : bool :=
  match i with
  | RetxTick id' => Nat.eqb id' id
  | _ => false
  end.

(** How often the interval of the [id]-th reliable send fires in [inputs]. *)
Definition ticksOf (id : nat) (inputs : list Input) : nat :=
  length (List.filter (isTick id) inputs).

(** The inbound-recently-seen set of the specification: the nonces of the
    reliable datagrams (RELIABLE or HELLO, at least three bytes long)
    delivered so far.  The connection record has no such field; this is
    the notion the specification's wording refers to. *)
Definition specInboundSeen (inputs : list Input) : list Z :=
  omap (fun i =>
          match i with
          | Data _ (first :: b1 :: b2 :: _) =>
              if (first =? PacketType.RELIABLE) || (first =? PacketType.HELLO)
              then Some (b1 * 2 ^ 8 + b2) else None
          | _ => None
          end) inputs.

(** Five pings, sent at [t1] ... [t5] and acknowledged 10, 20, 30, 40 and
    50 ms later; a fresh connection gives them the nonces 1 to 5. *)
Definition fivePings (t1 t2 t3 t4 t5 : Z) : list Input :=
  [PingTick t1; Data (t1 + 10) [10; 0; 1];
   PingTick t2; Data (t2 + 20) [10; 0; 2];
   PingTick t3; Data (t3 + 30) [10; 0; 3];
   PingTick t4; Data (t4 + 40) [10; 0; 4];
   PingTick t5; Data (t5 + 50) [10; 0; 5]].

(** Entries of [reliables]: an armed interval has made at most ten
    retransmissions, and a pending promise has its interval armed. *)
Definition relInv (r : Reliable) : Prop :=
  (r_armed r = true → 0 ≤ r_attempts r ≤ 10) ∧ (r_promise r = Pending → r_armed r = true).

(** ** data.ts: the signed packed integers *)

Module Signed.

(** [int >= 0 ? (int * 2) : ((int * -2) - 1)], the argument that
    [writePackedInt32] and [getPackedInt32Size] pass on. *)
Definition zigzag (int : Z) : Z := if 0 <=? int then int * 2 else int * -2 - 1.

(** [res & 1 ? (res + 1) / -2 : res / 2]: the dividend is even in both
    branches, so the quotient of the two numbers is an integer. *)
Definition readPackedInt32 (buf : list Z) (offset : option Z) : result Z :=
  res ← HazelBuffer.readPackedUInt32 buf offset;
  Ok (if negb (JS.band res 1 =? 0) then (res + 1) / -2 else res / 2).

Definition writePackedInt32 (int : Z) (offset : option Z) (buf : list Z)
  : result (list Z * Z) :=
  HazelBuffer.writePackedUInt32 (zigzag int) offset buf.

Definition getPackedInt32Size (int : Z) : Z :=
  HazelBuffer.getPackedUInt32Size (zigzag int).

End Signed.

(** ** Notions for records, packets and pings *)

(** The three header bytes of a message record: the length of the
    payload, big-endian, and the tag. *)
Definition recordHeader (m : HazelMessage) : list Z :=
  [Z.shiftr (Z.of_nat (length (data m))) 8; Z.land (Z.of_nat (length (data m))) 255; tag m].

(** A message that fits a record: the tag is a byte and the length of the
    payload fits sixteen bits. *)
Definition wfMessage (m : HazelMessage) : Prop :=
  0 ≤ tag m ≤ 255 ∧ Z.of_nat (length (data m)) ≤ 65535.

(** The records of a packet: every message as its header followed by
    its payload, in order. *)
Fixpoint encodeRecords (ms : list HazelMessage) : list Z :=
  match ms with
  | [] => []
  | m :: ms' => recordHeader m ++ data m ++ encodeRecords ms'
  end.

(** The callback of a ping, as opposed to that of a reliable send. *)
Definition isPingCallback (cb : Callback) : bool :=
  match cb with
  | OnAckPing _ => true
  | OnAckReliable _ => false
  end.

(** The number of ping callbacks stored in [pendingAck]. *)
Definition pingCallbacks (pa : gmap Z Callback) : nat :=
  size (filter (fun kv : Z * Callback => isPingCallback kv.2 = true) pa).

(** The ping counter is at most ten and accounts for every ping
    callback that is still stored. *)
Definition pingInv (c : Connection) : Prop :=
  Z.of_nat (pingCallbacks (pendingAck c)) ≤ pendingPings c ≤ 10.

(** [getNonce]'s successor of a nonce. *)
Definition nextNonce (n : Z) : Z := Z.rem (n + 1) 65535.

(** The PING datagrams of [k] successive calls of [sendPing], the last
    nonce handed out before them being [n]. *)
Fixpoint pingPackets (n : Z) (k : nat) : list (list Z) :=
  match k with
  | O => []
  | S k' =>
      let n' := nextNonce n in
      [PacketType.PING; Z.shiftr n' 8; Z.land n' 255] :: pingPackets n' k'
  end.

(** Pings that are all answered: for each pair [(t, r)] the ping timer
    fires at time [t] and the acknowledgement of that ping arrives [r]
    milliseconds later; [n] is the last nonce handed out before, and the
    nonces go on as [getNonce] hands them out, 65534 being followed
    by 0. *)
Fixpoint answeredPings (n : Z) (rounds : list (Z * Z)) : list Input :=
  match rounds with
  | [] => []
  | (t, r) :: rest =>
      let n' := nextNonce n in
      PingTick t
      :: Data (t + r) [PacketType.ACKNOWLEDGEMENT; Z.shiftr n' 8; Z.land n' 255]
      :: answeredPings n' rest
  end.

(** ** server.ts: the table of connections *)

(** [RemoteInfo], as far as the server reads it. *)
Record RemoteInfo := { address : string; port : Z }.

(** The server's [Map<string, Connection>] and the [connection] events
    it has emitted (the keys of the connections announced, oldest first).
    The connections are those of the class that emits [hello]. *)
Record ServerState := {
  connections : gmap string Connection;
  announced : list string
}.

(** What happens to a server: a datagram arrives on its socket; an event
    other than that reaches a connection of the table (a timer fires, a
    method is called); a connection that has left the table emits [close]
    once more, which runs the listener the server registered on it. *)
Inductive ServerInput :=
| Datagram (now : Z) (msg : list Z) (remote : RemoteInfo)
| OnConnection (ip : string) (i : Input)
| StaleClose (ip : string).

Module Server.

Definition init : ServerState := {| connections := ∅; announced := [] |}.

Definition set_connections (v : gmap string Connection) (s : ServerState) : ServerState :=
  {| connections := v; announced := announced s |}.

(** [`${remote.address}:${remote.port}`] *)
Definition ipKey (remote : RemoteInfo) : string :=
  address remote +:+ ":" +:+ pretty (port remote).

(** An event of the connection stored under [ip].  The connection is
    changed in place; when it emits [close], the listener registered by
    [handleMessage], [() => this.connections.delete(ip)], removes it.  An
    exception that leaves the connection's handler is not recorded: the
    table is as the handler left it. *)
Definition deliver (ver : Z) (ip : string) (i : Input) (s : ServerState) : ServerState :=
  match connections s !! ip with
  | None => s
  | Some c =>
      let c' := (Conn.step ver ServerSide i c).1 in
      if (closeCount c <? closeCount c')%nat
      then set_connections (delete ip (connections s)) s
      else set_connections (<[ip := c']> (connections s)) s
  end.

(** [handleMessage (msg, remote)] *)
Definition handleMessage (ver : Z) (now : Z) (msg : list Z) (remote : RemoteInfo)
    (s : ServerState) : ServerState :=
  match msg with
  | [] => s
  | first :: _ =>
      let ip := ipKey remote in
      let s :=
        match connections s !! ip with
        | Some _ => s
        | None =>
            if first =? PacketType.HELLO
            then {| connections := <[ip := Conn.init]> (connections s);
                    announced := announced s ++ [ip] |}
            else s
        end in
      deliver ver ip (Data now msg) s
  end.

Definition step (ver : Z) (i : ServerInput) (s : ServerState) : ServerState :=
  match i with
  | Datagram now msg remote => handleMessage ver now msg remote s
  | OnConnection ip i => deliver ver ip i s
  | StaleClose ip => set_connections (delete ip (connections s)) s
  end.

Definition run (ver : Z) (inputs : list ServerInput) (s : ServerState) : ServerState :=
  foldl (fun s i => step ver i s) s inputs.

End Server.

(** A connection of the table: it has accepted a HELLO, has not emitted
    [close], and its ping timer and its own [close] listener are in place. *)
Definition alive (c : Connection) : Prop :=
  seenHello c = true ∧ closeCount c = 0%nat ∧ closeListener c = true ∧ pingTimer c = true.

Definition tableInv (s : ServerState) : Prop :=
  ∀ ip c, connections s !! ip = Some c → alive c ∧ ip ∈ announced s.

(** ** client.ts *)

(** The state of a [Client]: the connection it wraps, the [connected]
    flag, the promises returned by [sendRawReliable] on which the [then]
    callback of [connect] still waits, and the number of [connected]
    events emitted. *)
Record ClientState := {
  connection : Connection;
  connected : bool;
  awaiting : list nat;
  connectedEvents : nat
}.

(** How a call of a client method ends: it returns, it throws the
    [Error] with the given message, or a [RangeError] leaves it. *)
Inductive ClientOutcome :=
| Completed
| Failed (message : string)
| Raised (e : Exn).

(** What happens to a client: [connect] or [disconnect] is called, or an
    event reaches the wrapped connection.  [sendNormal] and [sendReliable]
    of the client pass their arguments on to the connection and the timers
    are the connection's; nothing in the class emits [data] on the
    connection. *)
Inductive ClientInput :=
| CallConnect (msg : option (list Z))
| CallClientDisconnect (forced : option bool) (reason : option Z) (message : option JsString)
| OfConnection (i : Input).

Module Client.

Definition init : ClientState :=
  {| connection := Conn.init; connected := false; awaiting := []; connectedEvents := 0 |}.

(** [sendRawReliable (data, nonce)] of the connection: the executor of
    [sendReliable] with the buffer and the nonce given by the caller. *)
Definition sendRawReliable (data : list Z) (nonce : Z) (c : Connection) : Connection :=
  let id := length (reliables c) in
  let c := Conn.set_reliables
             (reliables c ++ [{| r_buf := data; r_attempts := 0; r_armed := true;
                                 r_promise := Pending |}]) c in
  let c := Conn.sendRaw data c in
  Conn.set_pendingAck (<[nonce := OnAckReliable id]> (pendingAck c)) c.

(** The buffer [connect] builds; [if (msg) hello.writeBuffer(msg, 4)]
    copies a payload that was given, also an empty one. *)
Definition helloBuffer (ver nonce : Z) (msg : option (list Z)) : result (list Z) :=
  '(b, _) ← HazelBuffer.writeByte PacketType.HELLO None
              (Buffer.alloc (4 + match msg with
                                  | Some m => Z.of_nat (length m)
                                  | None => 0
                                  end));
  '(b, _) ← HazelBuffer.writeUInt16 nonce (Some 1) b;
  '(b, _) ← HazelBuffer.writeByte ver (Some 3) b;
  match msg with
  | Some m => '(b, _) ← Buffer.copy m b 4; Ok b
  | None => Ok b
  end.

Definition isResolved (c : Connection) (id : nat) : bool :=
  match promiseOf id c with
  | Some Resolved => true
  | _ => false
  end.

(** The [then] callbacks of [connect]: once the promise is resolved,
    the callback sets [connected] and emits [connected]; it runs after the
    event that resolved the promise has been handled. *)
Definition runThens (s : ClientState) : ClientState :=
  let c := connection s in
  let fired := List.filter (isResolved c) (awaiting s) in
  {| connection := c;
     connected := if fired is [] then connected s else true;
     awaiting := List.filter (fun id => negb (isResolved c id)) (awaiting s);
     connectedEvents := connectedEvents s + length fired |}.

Definition ofOutcome (o : Outcome) : ClientOutcome :=
  match o with
  | Returned => Completed
  | Thrown e => Raised e
  end.

Section Version.

Variable HAZEL_VERSION : Z.

Definition connect (msg : option (list Z)) (s : ClientState) : ClientState * ClientOutcome :=
  if connected s then (s, Failed "Already connected!")
  else
    let '(c, nonce) := Conn.getNonce (connection s) in
    match helloBuffer HAZEL_VERSION nonce msg with
    | Throw e =>
        ({| connection := c; connected := connected s; awaiting := awaiting s;
            connectedEvents := connectedEvents s |}, Raised e)
    | Ok hello =>
        ({| connection := sendRawReliable hello nonce c; connected := connected s;
            awaiting := awaiting s ++ [length (reliables c)];
            connectedEvents := connectedEvents s |}, Completed)
    end.

Definition disconnect (forced : option bool) (reason : option Z) (message : option JsString)
    (s : ClientState) : ClientState * ClientOutcome :=
  if negb (connected s) then (s, Failed "Already connected!")
  else
    let '(c, o) := Conn.disconnect ClientSide forced reason message (connection s) in
    ({| connection := c; connected := false; awaiting := awaiting s;
        connectedEvents := connectedEvents s |}, ofOutcome o).

Definition call (i : ClientInput) (s : ClientState) : ClientState * ClientOutcome :=
  match i with
  | CallConnect msg => connect msg s
  | CallClientDisconnect forced reason message => disconnect forced reason message s
  | OfConnection i =>
      let '(c, o) := Conn.step HAZEL_VERSION ClientSide i (connection s) in
      ({| connection := c; connected := connected s; awaiting := awaiting s;
          connectedEvents := connectedEvents s |}, ofOutcome o)
  end.

(** One event of the client and the callbacks it has made ready. *)
Definition step (i : ClientInput) (s : ClientState) : ClientState * ClientOutcome :=
  let '(s', o) := call i s in (runThens s', o).

Definition run (inputs : list ClientInput) (s : ClientState) : ClientState :=
  foldl (fun s i => (step i s).1) s inputs.

End Version.

End Client.

(** An input that hands a datagram to the connection. *)
Definition isData (i : ClientInput) : bool :=
  match i with
  | OfConnection (Data _ _) => true
  | _ => false
  end.

(** No promise of a reliable send is resolved. *)
Definition noResolved (c : Connection) : Prop :=
  ∀ id r, reliables c !! id = Some r → r_promise r ≠ Resolved.

(** * Properties *)

(** ** JavaScript integer operations on the ranges the codec uses *)

Lemma toUint32_range z : 0 ≤ JS.toUint32 z < 2 ^ 32.
Proof. unfold JS.toUint32. apply Z.mod_pos_bound. lia. Qed.

Lemma toUint32_small z : 0 ≤ z < 2 ^ 32 → JS.toUint32 z = z.
Proof. intros H. unfold JS.toUint32. apply Z.mod_small. lia. Qed.

Lemma toInt32_small z : - 2 ^ 31 ≤ z < 2 ^ 31 → JS.toInt32 z = z.
Proof. intros H. unfold JS.toInt32. rewrite Z.mod_small; lia. Qed.

(** [ToInt32] and [ToUint32] differ by 0 or by 2^32. *)
Lemma toInt32_toUint32 z :
  (JS.toUint32 z < 2 ^ 31 ∧ JS.toInt32 z = JS.toUint32 z) ∨
  (2 ^ 31 ≤ JS.toUint32 z ∧ JS.toInt32 z = JS.toUint32 z - 2 ^ 32).
Proof.
  unfold JS.toInt32, JS.toUint32.
  change (2 ^ 32) with 4294967296. change (2 ^ 31) with 2147483648.
  Z.div_mod_to_equations. lia.
Qed.

Lemma land_neg128 t : Z.land t (-128) = 128 * (t / 128).
Proof.
  change (-128) with (Z.lnot (Z.ones 7)).
  rewrite <- Z.ldiff_land, Z.ldiff_ones_r by lia.
  rewrite Z.shiftl_mul_pow2, Z.shiftr_div_pow2 by lia.
  change (2 ^ 7) with 128. lia.
Qed.

Lemma band_neg128 int : (JS.band int (-128) =? 0) = (JS.toUint32 int <? 128).
Proof.
  unfold JS.band. change (JS.toInt32 (-128)) with (-128).
  rewrite land_neg128.
  pose proof (toUint32_range int) as Hr.
  change (2 ^ 32) with 4294967296 in Hr.
  destruct (toInt32_toUint32 int) as [[Hlt ->]|[Hge ->]];
    change (2 ^ 31) with 2147483648 in *; change (2 ^ 32) with 4294967296 in *.
  - destruct (Z.ltb_spec (JS.toUint32 int) 128).
    + rewrite Z.div_small by lia. reflexivity.
    + apply Z.eqb_neq. Z.div_mod_to_equations. lia.
  - destruct (Z.ltb_spec (JS.toUint32 int) 128); [lia|].
    apply Z.eqb_neq. Z.div_mod_to_equations. lia.
Qed.

Lemma lor_128 x : 0 ≤ x < 256 → Z.lor x 128 = x mod 128 + 128.
Proof.
  intros Hx.
  assert (Hall : forallb (fun x => Z.lor x 128 =? x mod 128 + 128) (seqZ 0 256) = true)
    by (vm_compute; reflexivity).
  rewrite forallb_forall in Hall.
  apply Z.eqb_eq, Hall, list_elem_of_In, elem_of_seqZ. lia.
Qed.

Lemma continuation_byte int :
  JS.bor (JS.band int 255) 128 = JS.toUint32 int mod 128 + 128.
Proof.
  unfold JS.bor, JS.band. change (JS.toInt32 255) with 255. change (JS.toInt32 128) with 128.
  change 255 with (Z.ones 8). rewrite Z.land_ones by lia.
  assert (Hm : JS.toInt32 int mod 2 ^ 8 = JS.toUint32 int mod 256).
  { destruct (toInt32_toUint32 int) as [[_ ->]|[_ ->]]; [reflexivity|].
    change (2 ^ 32) with (16777216 * 256). change (2 ^ 8) with 256.
    rewrite Zminus_mod, Z.mod_mul, Z.sub_0_r, Z.mod_mod by lia. reflexivity. }
  rewrite Hm.
  pose proof (Z.mod_pos_bound (JS.toUint32 int) 256 ltac:(lia)) as Hb.
  rewrite toInt32_small by (change (2 ^ 31) with 2147483648; lia).
  rewrite lor_128 by lia.
  f_equal. clear. Z.div_mod_to_equations. lia.
Qed.

Lemma final_byte int : JS.toUint32 int < 128 → JS.bor int 0 = JS.toUint32 int.
Proof.
  intros H. unfold JS.bor. change (JS.toInt32 0) with 0. rewrite Z.lor_0_r.
  destruct (toInt32_toUint32 int) as [[_ ->]|[Hge _]]; [reflexivity|].
  change (2 ^ 31) with 2147483648 in Hge. lia.
Qed.

Lemma ushr_7 int : JS.ushr int 7 = JS.toUint32 int / 128.
Proof. unfold JS.ushr. change (7 mod 32) with 7. rewrite Z.shiftr_div_pow2 by lia. reflexivity. Qed.

(** ** Packed integers *)

Lemma pow7_S f : 2 ^ (7 * Z.of_nat (S f)) = 128 * 2 ^ (7 * Z.of_nat f).
Proof.
  replace (7 * Z.of_nat (S f)) with (7 + 7 * Z.of_nat f) by lia.
  rewrite Z.pow_add_r by lia. reflexivity.
Qed.

Lemma packedBytes_S f u :
  packedBytes (S f) u =
    if u <? 128 then [u] else (u mod 128 + 128) :: packedBytes f (u / 128).
Proof. reflexivity. Qed.

Lemma writePackedLoop_S f int offset cursor buf :
  HazelBuffer.writePackedLoop (S f) int offset cursor buf =
    if negb (JS.band int (-128) =? 0) then
      match Buffer.writeUInt8 (JS.bor (JS.band int 255) 128) (offset + cursor) buf with
      | Throw e => Some (Throw e)
      | Ok (buf', _) => HazelBuffer.writePackedLoop f (JS.ushr int 7) offset (cursor + 1) buf'
      end
    else
      match Buffer.writeUInt8 (JS.bor int 0) (offset + cursor) buf with
      | Throw e => Some (Throw e)
      | Ok (buf', _) => Some (Ok (buf', cursor))
      end.
Proof. reflexivity. Qed.

Lemma packedBytes_length f u :
  0 ≤ u < 2 ^ (7 * Z.of_nat (S f)) →
  (1 ≤ length (packedBytes (S f) u) ≤ S f)%nat.
Proof.
  revert u. induction f as [|f IH]; intros u Hu; rewrite packedBytes_S.
  - change (2 ^ (7 * Z.of_nat 1)) with 128 in Hu.
    destruct (Z.ltb_spec u 128); simpl; lia.
  - destruct (Z.ltb_spec u 128); [simpl; lia|].
    rewrite pow7_S in Hu.
    assert (0 ≤ u / 128 < 2 ^ (7 * Z.of_nat (S f))).
    { split; [apply Z.div_pos; lia|apply Z.div_lt_upper_bound; lia]. }
    specialize (IH (u / 128) ltac:(assumption)).
    rewrite length_cons. lia.
Qed.

Lemma splice_insert buf pos x :
  0 ≤ pos < Z.of_nat (length buf) →
  <[Z.to_nat pos := x]> buf = splice buf pos [x].
Proof.
  intros H. unfold splice. rewrite insert_take_drop by lia.
  cbn [length app]. replace (Z.to_nat pos + 1)%nat with (S (Z.to_nat pos)) by lia.
  reflexivity.
Qed.

Lemma splice_cons buf pos x bytes :
  0 ≤ pos < Z.of_nat (length buf) →
  splice (<[Z.to_nat pos := x]> buf) (pos + 1) bytes = splice buf pos (x :: bytes).
Proof.
  intros H. unfold splice.
  replace (Z.to_nat (pos + 1)) with (S (Z.to_nat pos)) by lia.
  rewrite drop_insert_lt by lia.
  rewrite (take_S_r _ _ x) by (apply list_lookup_insert_eq; lia).
  rewrite take_insert_ge by lia.
  rewrite <- app_assoc. cbn [length app].
  replace (S (Z.to_nat pos) + length bytes)%nat with (Z.to_nat pos + S (length bytes))%nat by lia.
  reflexivity.
Qed.

Lemma writeUInt8_ok v pos buf :
  0 ≤ v ≤ 255 → 0 ≤ pos < Z.of_nat (length buf) →
  Buffer.writeUInt8 v pos buf = Ok (<[Z.to_nat pos := v]> buf, pos + 1).
Proof.
  intros Hv Hp. unfold Buffer.writeUInt8, Buffer.inBounds.
  destruct (Z.ltb_spec v 0); [lia|]. destruct (Z.ltb_spec 255 v); [lia|].
  destruct (Z.leb_spec 0 pos); [|lia].
  destruct (Z.ltb_spec pos (Z.of_nat (length buf))); [|lia]. reflexivity.
Qed.

Lemma writeUInt8_oob v pos buf :
  Z.of_nat (length buf) ≤ pos → Buffer.writeUInt8 v pos buf = Throw RangeError.
Proof.
  intros Hp. unfold Buffer.writeUInt8, Buffer.inBounds.
  destruct (_ || _); [reflexivity|].
  destruct (Z.ltb_spec pos (Z.of_nat (length buf))); [lia|].
  rewrite andb_false_r. reflexivity.
Qed.

Lemma writePackedLoop_spec f int offset cursor buf :
  JS.toUint32 int < 2 ^ (7 * Z.of_nat (S f)) →
  0 ≤ offset + cursor →
  offset + cursor + Z.of_nat (length (packedBytes (S f) (JS.toUint32 int))) ≤ Z.of_nat (length buf) →
  HazelBuffer.writePackedLoop (S f) int offset cursor buf =
    Some (Ok (splice buf (offset + cursor) (packedBytes (S f) (JS.toUint32 int)),
              cursor + Z.of_nat (length (packedBytes (S f) (JS.toUint32 int))) - 1)).
Proof.
  revert int cursor buf. induction f as [|f IH]; intros int cursor buf Hu Hpos Hroom;
    rewrite writePackedLoop_S; rewrite packedBytes_S in *;
    rewrite band_neg128; pose proof (toUint32_range int) as Hr.
  - change (2 ^ (7 * Z.of_nat 1)) with 128 in Hu.
    destruct (Z.ltb_spec (JS.toUint32 int) 128); [|lia].
    cbn [negb length] in *.
    rewrite final_byte, writeUInt8_ok by lia.
    rewrite splice_insert by lia. do 3 f_equal. lia.
  - destruct (Z.ltb_spec (JS.toUint32 int) 128) as [Hlt|Hge].
    + cbn [negb length] in *. rewrite final_byte, writeUInt8_ok by lia.
      rewrite splice_insert by lia. do 3 f_equal. lia.
    + cbn [negb] in *. rewrite length_cons in *. rewrite continuation_byte.
      pose proof (Z.mod_pos_bound (JS.toUint32 int) 128 ltac:(lia)).
      rewrite writeUInt8_ok by lia.
      rewrite pow7_S in Hu.
      assert (Hq : 0 ≤ JS.toUint32 int / 128 < 2 ^ (7 * Z.of_nat (S f))).
      { split; [apply Z.div_pos; lia|apply Z.div_lt_upper_bound; lia]. }
      assert (Hq32 : JS.toUint32 int / 128 < 2 ^ 32).
      { apply Z.div_lt_upper_bound; lia. }
      assert (Hu' : JS.toUint32 (JS.ushr int 7) = JS.toUint32 int / 128).
      { rewrite ushr_7. apply toUint32_small. lia. }
      rewrite IH; rewrite ?Hu', ?length_insert; try lia.
      replace (offset + (cursor + 1)) with (offset + cursor + 1) by lia.
      rewrite splice_cons by lia. do 3 f_equal. lia.
Qed.

Lemma writePackedLoop_total int offset buf :
  HazelBuffer.writePackedLoop HazelBuffer.writePackedFuel int offset 0 buf ≠ None.
Proof.
  assert (Hgen : ∀ f int cursor buf,
             JS.toUint32 int < 2 ^ (7 * Z.of_nat (S f)) →
             HazelBuffer.writePackedLoop (S f) int offset cursor buf ≠ None).
  { induction f as [|f IH]; intros i cursor b Hu; rewrite writePackedLoop_S;
      rewrite band_neg128; pose proof (toUint32_range i) as Hr;
      destruct (Z.ltb_spec (JS.toUint32 i) 128) as [Hlt|Hge]; cbn [negb];
      try (destruct (Buffer.writeUInt8 _ _ _) as [[? ?]|?]; discriminate).
    - change (2 ^ (7 * Z.of_nat 1)) with 128 in Hu. lia.
    - destruct (Buffer.writeUInt8 _ _ _) as [[b' ?]|?]; [|discriminate].
      apply IH. rewrite pow7_S in Hu. rewrite ushr_7.
      assert (JS.toUint32 i / 128 < 2 ^ (7 * Z.of_nat (S f)))
        by (apply Z.div_lt_upper_bound; lia).
      assert (0 ≤ JS.toUint32 i / 128) by (apply Z.div_pos; lia).
      assert (2 ^ (7 * Z.of_nat (S f)) ≤ 2 ^ 32 → JS.toUint32 (JS.toUint32 i / 128) < 2 ^ (7 * Z.of_nat (S f))).
      { intros. rewrite toUint32_small; lia. }
      unfold JS.toUint32 at 1.
      eapply Z.le_lt_trans; [apply Z.mod_le; [assumption|lia]|assumption]. }
  apply Hgen. pose proof (toUint32_range int).
  change (2 ^ (7 * Z.of_nat 5)) with 34359738368. change (2 ^ 32) with 4294967296 in *. lia.
Qed.

Lemma writePackedLoop_noroom f int offset cursor buf :
  JS.toUint32 int < 2 ^ (7 * Z.of_nat (S f)) →
  0 ≤ offset + cursor →
  Z.of_nat (length buf) < offset + cursor + Z.of_nat (length (packedBytes (S f) (JS.toUint32 int))) →
  HazelBuffer.writePackedLoop (S f) int offset cursor buf = Some (Throw RangeError).
Proof.
  revert int cursor buf. induction f as [|f IH]; intros int cursor buf Hu Hpos Hroom;
    rewrite writePackedLoop_S; rewrite packedBytes_S in *;
    rewrite band_neg128; pose proof (toUint32_range int) as Hr.
  - change (2 ^ (7 * Z.of_nat 1)) with 128 in Hu.
    destruct (Z.ltb_spec (JS.toUint32 int) 128); [|lia].
    cbn [negb length] in *. rewrite writeUInt8_oob by lia. reflexivity.
  - destruct (Z.ltb_spec (JS.toUint32 int) 128) as [Hlt|Hge].
    + cbn [negb length] in *. rewrite writeUInt8_oob by lia. reflexivity.
    + cbn [negb] in *. rewrite length_cons in *. rewrite continuation_byte.
      pose proof (Z.mod_pos_bound (JS.toUint32 int) 128 ltac:(lia)).
      destruct (Z.le_gt_cases (Z.of_nat (length buf)) (offset + cursor)).
      { rewrite writeUInt8_oob by lia. reflexivity. }
      rewrite writeUInt8_ok by lia.
      rewrite pow7_S in Hu.
      assert (Hq : 0 ≤ JS.toUint32 int / 128 < 2 ^ (7 * Z.of_nat (S f))).
      { split; [apply Z.div_pos; lia|apply Z.div_lt_upper_bound; lia]. }
      assert (Hq32 : JS.toUint32 int / 128 < 2 ^ 32).
      { apply Z.div_lt_upper_bound; lia. }
      assert (Hu' : JS.toUint32 (JS.ushr int 7) = JS.toUint32 int / 128).
      { rewrite ushr_7. apply toUint32_small. lia. }
      apply IH; rewrite ?Hu', ?length_insert; lia.
Qed.

Lemma readPackedLoop_S fuel buf res shift cursor :
  HazelBuffer.readPackedLoop (S fuel) buf res shift cursor =
    if (Z.of_nat (length buf) <=? cursor) || (21 <? shift) then Some (Throw RangeError)
    else
      match Buffer.readUInt8 buf cursor with
      | Throw e => Some (Throw e)
      | Ok byte =>
          if 128 <=? byte
          then HazelBuffer.readPackedLoop fuel buf (res + JS.shl (JS.band byte 127) shift)
                 (shift + 7) (cursor + 1)
          else Some (Ok (res + JS.shl (JS.band byte 127) shift))
      end.
Proof. reflexivity. Qed.

Lemma readPackedLoop_total buf res cursor :
  HazelBuffer.readPackedLoop HazelBuffer.readPackedFuel buf res 0 cursor ≠ None.
Proof.
  assert (Hgen : ∀ fuel res shift cursor,
             0 ≤ shift ≤ 28 → 28 - shift < 7 * Z.of_nat fuel →
             HazelBuffer.readPackedLoop fuel buf res shift cursor ≠ None).
  { induction fuel as [|fuel IH]; intros r shift cur Hs Hf; [lia|].
    rewrite readPackedLoop_S.
    destruct (Z.leb_spec (Z.of_nat (length buf)) cur); [discriminate|].
    destruct (Z.ltb_spec 21 shift); [discriminate|]. cbn [orb].
    destruct (Buffer.readUInt8 buf cur); [|discriminate].
    destruct (128 <=? a); [|discriminate].
    apply IH; lia. }
  apply Hgen; unfold HazelBuffer.readPackedFuel; lia.
Qed.

Lemma readUInt8_middle pre b post :
  Buffer.readUInt8 (pre ++ b :: post) (Z.of_nat (length pre)) = Ok b.
Proof.
  unfold Buffer.readUInt8. destruct (Z.leb_spec 0 (Z.of_nat (length pre))); [|lia].
  rewrite Nat2Z.id, list_lookup_middle by reflexivity. reflexivity.
Qed.

Lemma band_127 b : 0 ≤ b < 2 ^ 31 → JS.band b 127 = b mod 128.
Proof.
  intros Hb. unfold JS.band. change (JS.toInt32 127) with (Z.ones 7).
  rewrite toInt32_small by lia. rewrite Z.land_ones by lia. reflexivity.
Qed.

Lemma shl_small x shift :
  0 ≤ x < 128 → 0 ≤ shift ≤ 21 → JS.shl x shift = x * 2 ^ shift.
Proof.
  intros Hx Hs. unfold JS.shl.
  assert (H21 : 2 ^ shift ≤ 2 ^ 21) by (apply Z.pow_le_mono_r; lia).
  assert (0 < 2 ^ shift) by (apply Z.pow_pos_nonneg; lia).
  change (2 ^ 21) with 2097152 in H21.
  rewrite (toInt32_small x) by (change (2 ^ 31) with 2147483648; lia).
  rewrite (Z.mod_small shift) by lia. rewrite Z.shiftl_mul_pow2 by lia.
  apply toInt32_small. change (2 ^ 31) with 2147483648. nia.
Qed.

Lemma readPacked_guard (buf : list Z) cursor shift :
  cursor < Z.of_nat (length buf) → shift ≤ 21 →
  (Z.of_nat (length buf) <=? cursor) || (21 <? shift) = false.
Proof.
  intros Hc Hs. destruct (Z.leb_spec (Z.of_nat (length buf)) cursor); [lia|].
  destruct (Z.ltb_spec 21 shift); [lia|]. reflexivity.
Qed.

Lemma readPackedLoop_spec f fuel u pre post res shift :
  (S f ≤ fuel)%nat →
  0 ≤ u < 2 ^ (7 * Z.of_nat (S f)) →
  0 ≤ shift → shift + 7 * Z.of_nat f ≤ 21 →
  HazelBuffer.readPackedLoop fuel (pre ++ packedBytes (S f) u ++ post) res shift
    (Z.of_nat (length pre)) = Some (Ok (res + u * 2 ^ shift)).
Proof.
  revert fuel u pre res shift.
  induction f as [|f IH]; intros fuel u pre res shift Hfuel Hu Hs Hs';
    (destruct fuel as [|fuel]; [lia|]); rewrite readPackedLoop_S, packedBytes_S.
  - change (2 ^ (7 * Z.of_nat 1)) with 128 in Hu.
    destruct (Z.ltb_spec u 128); [|lia].
    rewrite readPacked_guard by (rewrite ?length_app; simpl; lia).
    cbn [app]. rewrite readUInt8_middle. destruct (Z.leb_spec 128 u); [lia|].
    rewrite band_127 by (change (2 ^ 31) with 2147483648; lia).
    rewrite Z.mod_small by lia. rewrite shl_small by lia. reflexivity.
  - destruct (Z.ltb_spec u 128) as [Hlt|Hge].
    + rewrite readPacked_guard by (rewrite ?length_app; simpl; lia).
      cbn [app]. rewrite readUInt8_middle. destruct (Z.leb_spec 128 u); [lia|].
      rewrite band_127 by (change (2 ^ 31) with 2147483648; lia).
      rewrite Z.mod_small by lia. rewrite shl_small by lia. reflexivity.
    + rewrite readPacked_guard by (rewrite ?length_app; simpl; lia).
      cbn [app]. rewrite readUInt8_middle.
      pose proof (Z.mod_pos_bound u 128 ltac:(lia)) as Hm.
      destruct (Z.leb_spec 128 (u mod 128 + 128)); [|lia].
      rewrite band_127 by (change (2 ^ 31) with 2147483648; lia).
      replace ((u mod 128 + 128) mod 128) with (u mod 128)
        by (clear; Z.div_mod_to_equations; lia).
      rewrite shl_small by lia.
      rewrite pow7_S in Hu.
      assert (Hq : 0 ≤ u / 128 < 2 ^ (7 * Z.of_nat (S f))).
      { split; [apply Z.div_pos; lia|apply Z.div_lt_upper_bound; lia]. }
      replace (pre ++ (u mod 128 + 128) :: packedBytes (S f) (u / 128) ++ post)
        with ((pre ++ [u mod 128 + 128]) ++ packedBytes (S f) (u / 128) ++ post)
        by (rewrite <- app_assoc; reflexivity).
      replace (Z.of_nat (length pre) + 1) with (Z.of_nat (length (pre ++ [u mod 128 + 128])))
        by (rewrite length_app; simpl; lia).
      rewrite IH by lia. do 2 f_equal.
      rewrite Z.pow_add_r by lia. change (2 ^ 7) with 128.
      rewrite (Z.div_mod u 128) at 3 by lia. ring.
Qed.

Lemma readPackedLoop_overflow j fuel fw u pre post res shift :
  (j < fuel)%nat → (j < fw)%nat →
  2 ^ (7 * Z.of_nat j) ≤ u → 0 ≤ shift → shift + 7 * Z.of_nat j = 28 →
  HazelBuffer.readPackedLoop fuel (pre ++ packedBytes fw u ++ post) res shift
    (Z.of_nat (length pre)) = Some (Throw RangeError).
Proof.
  revert fuel fw u pre res shift.
  induction j as [|j IH]; intros fuel fw u pre res shift Hfuel Hfw Hu Hs Hs';
    (destruct fuel as [|fuel]; [lia|]); (destruct fw as [|fw]; [lia|]);
    rewrite readPackedLoop_S.
  - destruct (Z.ltb_spec 21 shift); [|lia]. rewrite orb_true_r. reflexivity.
  - rewrite packedBytes_S. rewrite pow7_S in Hu.
    assert (0 < 2 ^ (7 * Z.of_nat j)) by (apply Z.pow_pos_nonneg; lia).
    destruct (Z.ltb_spec u 128) as [Hlt|Hge]; [lia|].
    rewrite readPacked_guard by (rewrite ?length_app; simpl; lia).
    cbn [app]. rewrite readUInt8_middle.
    pose proof (Z.mod_pos_bound u 128 ltac:(lia)) as Hm.
    destruct (Z.leb_spec 128 (u mod 128 + 128)); [|lia].
    replace (pre ++ (u mod 128 + 128) :: packedBytes fw (u / 128) ++ post)
      with ((pre ++ [u mod 128 + 128]) ++ packedBytes fw (u / 128) ++ post)
      by (rewrite <- app_assoc; reflexivity).
    replace (Z.of_nat (length pre) + 1) with (Z.of_nat (length (pre ++ [u mod 128 + 128])))
      by (rewrite length_app; simpl; lia).
    apply IH; try lia. apply Z.div_le_lower_bound; lia.
Qed.

Lemma packedBytes_length_exact k f u :
  (k ≤ f)%nat → 0 ≤ u < 2 ^ (7 * Z.of_nat (S k)) →
  (k = 0%nat ∨ 2 ^ (7 * Z.of_nat k) ≤ u) →
  length (packedBytes (S f) u) = S k.
Proof.
  revert f u. induction k as [|k IH]; intros f u Hk Hu Hlow; rewrite packedBytes_S.
  - change (2 ^ (7 * Z.of_nat 1)) with 128 in Hu.
    destruct (Z.ltb_spec u 128); [reflexivity|lia].
  - destruct Hlow as [|Hlow]; [lia|].
    destruct f as [|f]; [lia|].
    rewrite pow7_S in Hlow. rewrite (pow7_S (S k)) in Hu.
    assert (0 < 2 ^ (7 * Z.of_nat k)) by (apply Z.pow_pos_nonneg; lia).
    destruct (Z.ltb_spec u 128); [lia|].
    rewrite length_cons. f_equal. apply IH; [lia| |].
    + split; [apply Z.div_pos; lia|apply Z.div_lt_upper_bound; lia].
    + right. apply Z.div_le_lower_bound; lia.
Qed.

Lemma getPackedUInt32Size_cases n :
  HazelBuffer.getPackedUInt32Size n =
    if n <? 2 ^ 7 then 1 else if n <? 2 ^ 14 then 2 else if n <? 2 ^ 21 then 3 else 4.
Proof.
  unfold HazelBuffer.getPackedUInt32Size, JS.findIndex, HazelBuffer.PACKED_INT_LENGTH.
  cbn [JS.findIndex JS.findIndexFrom length].
  destruct (n <? 2 ^ 7); [reflexivity|].
  destruct (n <? 2 ^ 14); [reflexivity|].
  destruct (n <? 2 ^ 21); [reflexivity|].
  destruct (n <? 2 ^ 28); reflexivity.
Qed.

Lemma getPackedUInt32Size_length n :
  0 ≤ n < 2 ^ 28 →
  HazelBuffer.getPackedUInt32Size n = Z.of_nat (length (packedBytes 5 n)).
Proof.
  intros Hn. rewrite getPackedUInt32Size_cases.
  destruct (Z.ltb_spec n (2 ^ 7)).
  { rewrite (packedBytes_length_exact 0); [reflexivity|lia| |left; reflexivity].
    change (2 ^ (7 * Z.of_nat 1)) with (2 ^ 7). lia. }
  destruct (Z.ltb_spec n (2 ^ 14)).
  { rewrite (packedBytes_length_exact 1); [reflexivity|lia| |right].
    - change (2 ^ (7 * Z.of_nat 2)) with (2 ^ 14). lia.
    - change (2 ^ (7 * Z.of_nat 1)) with (2 ^ 7). lia. }
  destruct (Z.ltb_spec n (2 ^ 21)).
  { rewrite (packedBytes_length_exact 2); [reflexivity|lia| |right].
    - change (2 ^ (7 * Z.of_nat 3)) with (2 ^ 21). lia.
    - change (2 ^ (7 * Z.of_nat 2)) with (2 ^ 14). lia. }
  rewrite (packedBytes_length_exact 3); [reflexivity|lia| |right].
  - change (2 ^ (7 * Z.of_nat 4)) with (2 ^ 28). lia.
  - change (2 ^ (7 * Z.of_nat 3)) with (2 ^ 21). lia.
Qed.

Lemma splice_shape buf pos bytes :
  0 ≤ pos → pos + Z.of_nat (length bytes) ≤ Z.of_nat (length buf) →
  ∃ pre post, splice buf pos bytes = pre ++ bytes ++ post ∧ Z.of_nat (length pre) = pos.
Proof.
  intros Hp Hr. exists (take (Z.to_nat pos) buf), (drop (Z.to_nat pos + length bytes) buf).
  split; [reflexivity|]. rewrite length_take. lia.
Qed.

Lemma packedBytes_more f g u :
  (f ≤ g)%nat → 0 ≤ u < 2 ^ (7 * Z.of_nat (S f)) →
  packedBytes (S g) u = packedBytes (S f) u.
Proof.
  revert g u. induction f as [|f IH]; intros g u Hg Hu; rewrite !packedBytes_S.
  - change (2 ^ (7 * Z.of_nat 1)) with 128 in Hu.
    destruct (Z.ltb_spec u 128); [reflexivity|lia].
  - destruct (Z.ltb_spec u 128); [reflexivity|].
    destruct g as [|g]; [lia|]. f_equal. apply IH; [lia|].
    rewrite pow7_S in Hu.
    split; [apply Z.div_pos; lia|apply Z.div_lt_upper_bound; lia].
Qed.

(** C4, amended.  For every unsigned 32-bit [n], [writePackedUInt32]
    writes between one and five bytes (it needs exactly that much room and
    returns their number less one).  For [n] below 2^28, reading the bytes
    back yields [n] and [getPackedUInt32Size n] is their number; from 2^28
    on, the reader refuses the fifth byte with a [RangeError]. *)
Theorem packedUInt32_roundtrip (n : Z) :
  0 ≤ n < 2 ^ 32 →
  ∃ bytes : list Z,
    (1 ≤ length bytes ≤ 5)%nat ∧
    (∀ offset buf,
        0 ≤ offset → offset + Z.of_nat (length bytes) ≤ Z.of_nat (length buf) →
        HazelBuffer.writePackedUInt32 n (Some offset) buf
        = Ok (splice buf offset bytes, Z.of_nat (length bytes) - 1)) ∧
    (∀ offset buf,
        0 ≤ offset → Z.of_nat (length buf) < offset + Z.of_nat (length bytes) →
        HazelBuffer.writePackedUInt32 n (Some offset) buf = Throw RangeError) ∧
    (n < 2 ^ 28 →
       HazelBuffer.getPackedUInt32Size n = Z.of_nat (length bytes) ∧
       ∀ offset buf,
         0 ≤ offset → offset + Z.of_nat (length bytes) ≤ Z.of_nat (length buf) →
         HazelBuffer.readPackedUInt32 (splice buf offset bytes) (Some offset) = Ok n) ∧
    (2 ^ 28 ≤ n →
       ∀ offset buf,
         0 ≤ offset → offset + Z.of_nat (length bytes) ≤ Z.of_nat (length buf) →
         HazelBuffer.readPackedUInt32 (splice buf offset bytes) (Some offset)
         = Throw RangeError).
Proof.
  intros Hn. exists (packedBytes 5 n).
  assert (Hu : JS.toUint32 n = n) by (apply toUint32_small; lia).
  assert (H35 : n < 2 ^ (7 * Z.of_nat 5)).
  { change (2 ^ (7 * Z.of_nat 5)) with 34359738368. change (2 ^ 32) with 4294967296 in Hn. lia. }
  split; [apply packedBytes_length; lia|].
  split; [|split; [|split]].
  - intros offset buf Ho Hroom. unfold HazelBuffer.writePackedUInt32.
    change (HazelBuffer.orZero (Some offset)) with offset. unfold HazelBuffer.writePackedFuel.
    rewrite writePackedLoop_spec; rewrite ?Hu, ?Z.add_0_r; try lia.
    rewrite Z.add_0_l. reflexivity.
  - intros offset buf Ho Hroom. unfold HazelBuffer.writePackedUInt32.
    change (HazelBuffer.orZero (Some offset)) with offset. unfold HazelBuffer.writePackedFuel.
    rewrite writePackedLoop_noroom; rewrite ?Hu, ?Z.add_0_r; try lia. reflexivity.
  - intros H28. split; [apply getPackedUInt32Size_length; lia|].
    intros offset buf Ho Hroom.
    destruct (splice_shape buf offset (packedBytes 5 n) Ho Hroom) as (pre & post & -> & <-).
    unfold HazelBuffer.readPackedUInt32, HazelBuffer.readPackedFuel.
    change (HazelBuffer.orZero (Some (Z.of_nat (length pre)))) with (Z.of_nat (length pre)).
    rewrite (packedBytes_more 3 4) in * by (change (2 ^ (7 * Z.of_nat 4)) with (2 ^ 28); lia).
    rewrite readPackedLoop_spec;
      [rewrite Z.mul_1_r; reflexivity|lia| |lia|lia].
    change (2 ^ (7 * Z.of_nat 4)) with (2 ^ 28). lia.
  - intros H28 offset buf Ho Hroom.
    destruct (splice_shape buf offset (packedBytes 5 n) Ho Hroom) as (pre & post & -> & <-).
    unfold HazelBuffer.readPackedUInt32, HazelBuffer.readPackedFuel.
    change (HazelBuffer.orZero (Some (Z.of_nat (length pre)))) with (Z.of_nat (length pre)).
    rewrite (readPackedLoop_overflow 4); [reflexivity|lia|lia| |lia|lia].
    change (2 ^ (7 * Z.of_nat 4)) with (2 ^ 28). lia.
Qed.

(** C4, amended, at [n = 300], written at offset 1 of a four-byte buffer. *)
Lemma packedUInt32_roundtrip_witness :
  0 ≤ 300 < 2 ^ 32 ∧
  ∃ bytes : list Z,
    (1 ≤ length bytes ≤ 5)%nat ∧
    HazelBuffer.writePackedUInt32 300 (Some 1) (Buffer.alloc 4)
    = Ok (splice (Buffer.alloc 4) 1 bytes, Z.of_nat (length bytes) - 1) ∧
    HazelBuffer.getPackedUInt32Size 300 = Z.of_nat (length bytes) ∧
    HazelBuffer.readPackedUInt32 (splice (Buffer.alloc 4) 1 bytes) (Some 1) = Ok 300.
Proof.
  split; [lia|].
  destruct (packedUInt32_roundtrip 300 ltac:(lia)) as (bytes & Hlen & Hw & _ & Hr & _).
  destruct (Hr ltac:(lia)) as [Hsize Hread].
  assert (Hroom : 1 + Z.of_nat (length bytes) ≤ Z.of_nat (length (Buffer.alloc 4))).
  { rewrite <- Hsize. vm_compute. discriminate. }
  exists bytes. split; [exact Hlen|]. split; [apply Hw; [lia|exact Hroom]|].
  split; [exact Hsize|]. apply Hread; [lia|exact Hroom].
Defined.

(** C4 as stated fails at 2^28: five bytes are written (four do not
    suffice), the reader throws on them, and [getPackedUInt32Size] says 4. *)
Lemma packed_roundtrip_counterexample :
  0 ≤ 2 ^ 28 < 2 ^ 32 ∧
  HazelBuffer.writePackedUInt32 (2 ^ 28) None (Buffer.alloc 5)
  = Ok ([128; 128; 128; 128; 1], 4) ∧
  HazelBuffer.writePackedUInt32 (2 ^ 28) None (Buffer.alloc 4) = Throw RangeError ∧
  HazelBuffer.readPackedUInt32 [128; 128; 128; 128; 1] None = Throw RangeError ∧
  HazelBuffer.getPackedUInt32Size (2 ^ 28) = 4.
Proof. vm_compute. repeat split; congruence. Qed.

(** ** The connection: shapes of the operations *)

Import Conn.

(** The message loop only appends [message] events. *)
Lemma emit_message m c :
  emit (EvMessage m) c = set_emitted (emitted c ++ [EvMessage m]) c.
Proof. reflexivity. Qed.

Lemma set_emitted_id c : set_emitted (emitted c) c = c.
Proof. destruct c; reflexivity. Qed.

Lemma messageLoop_shape fuel msg cursor c r :
  messageLoop fuel msg cursor c = Some r →
  ∃ ms, r.1 = set_emitted (emitted c ++ (EvMessage <$> ms)) c.
Proof.
  revert cursor c. induction fuel as [|fuel IH]; intros cursor c; cbn [messageLoop].
  - destruct (cursor <? _); [discriminate|]. intros [= <-]. exists [].
    cbn. rewrite app_nil_r, set_emitted_id. reflexivity.
  - destruct (cursor <? _).
    + destruct (HazelBuffer.readHazelMessage _ _) as [m|e].
      * intros H. apply IH in H as [ms ->]. exists (m :: ms).
        rewrite emit_message. cbn. rewrite <- app_assoc. reflexivity.
      * intros [= <-]. exists []. cbn. rewrite app_nil_r, set_emitted_id. reflexivity.
    + intros [= <-]. exists []. cbn. rewrite app_nil_r, set_emitted_id. reflexivity.
Qed.

Lemma messageLoop_total msg cursor c :
  1 ≤ cursor → messageLoop (length msg) msg cursor c ≠ None.
Proof.
  revert c.
  assert (Hgen : ∀ fuel cur c,
             Z.of_nat (length msg) - cur < Z.of_nat fuel →
             messageLoop fuel msg cur c ≠ None).
  { induction fuel as [|fuel IH]; intros cur c Hf; cbn [messageLoop].
    - destruct (Z.ltb_spec cur (Z.of_nat (length msg))); [lia|discriminate].
    - destruct (Z.ltb_spec cur (Z.of_nat (length msg))); [|discriminate].
      destruct (HazelBuffer.readHazelMessage _ _) as [m|e]; [|discriminate].
      apply IH. lia. }
  intros c Hc. apply Hgen. lia.
Qed.

Lemma readMessages_shape msg cursor c :
  ∃ ms, (readMessages msg cursor c).1 = set_emitted (emitted c ++ (EvMessage <$> ms)) c.
Proof.
  unfold readMessages.
  destruct (messageLoop _ _ _ _) as [r|] eqn:E.
  - eapply messageLoop_shape, E.
  - exists []. cbn. rewrite app_nil_r, set_emitted_id. reflexivity.
Qed.

Lemma disconnectBuffer_eq flag :
  disconnectBuffer flag = Ok [if flag then 1 else 0; 0].
Proof. destruct flag; reflexivity. Qed.

Lemma disconnectServer_eq force c :
  disconnectServer force c =
    (sendRaw [if negb (default false force) then 1 else 0; 0] (emit (EvClose None None None) c),
     Returned).
Proof. unfold disconnectServer. rewrite disconnectBuffer_eq. reflexivity. Qed.

Lemma sendAck_shape n c : sendAck n c = c ∨ ∃ buf, sendAck n c = sendRaw buf c.
Proof. unfold sendAck. destruct (ackBuffer _ _); eauto. Qed.

Lemma maybeAck_shape msg ack c :
  maybeAck msg ack c = Ok c ∨ (∃ n, maybeAck msg ack c = Ok (sendAck n c))
  ∨ ∃ e, maybeAck msg ack c = Throw e.
Proof.
  unfold maybeAck. destruct ack; [|by left].
  destruct (HazelBuffer.readUInt16 msg (Some 1)) as [n|e]; cbn; eauto.
Qed.

Lemma parseDisconnect_shape msg :
  (∃ e, isClose e = true ∧ parseDisconnect msg = Ok e) ∨ ∃ x, parseDisconnect msg = Throw x.
Proof.
  unfold parseDisconnect.
  destruct (HazelBuffer.readHazelMessage msg (Some 2)) as [m|?];
    cbn [mbind result_bind rbind]; [|eauto].
  destruct (1 <? Z.of_nat (length (data m)));
    (destruct (HazelBuffer.readBoolean msg (Some 1)) as [g|?];
     cbn [mbind result_bind rbind]; [|eauto]);
    (destruct (HazelBuffer.readByte (data m) None) as [r|?];
     cbn [mbind result_bind rbind]; [|eauto]).
  - destruct (HazelBuffer.readString (data m) (Some 1)) as [t|?];
      cbn [mbind result_bind rbind]; [|eauto].
    left. eexists. split; [|reflexivity]. reflexivity.
  - left. eexists. split; [|reflexivity]. reflexivity.
Qed.

(** Case analysis over one step: the handlers are unfolded down to
    [emit], [sendRaw] and the setters; the loop, the acknowledgement and the
    buffers are replaced by their shapes above; every remaining [match] is
    split. *)
#[local] Arguments readMessages : simpl never.
#[local] Arguments parseDisconnect : simpl never.
#[local] Arguments maybeAck : simpl never.
#[local] Arguments sendAck : simpl never.
#[local] Arguments disconnectServer : simpl never.
#[local] Arguments disconnectBuffer : simpl never.

Ltac unfold_conn :=
  unfold step, handleMessage, handleMessagePacket, handleMessagePacketServer,
    handleMessagePacketClient, handleDisconnect, handleAck, handlePing, sendPing,
    retxTick, sendReliable, sendNormal, disconnect, disconnectClient,
    getNonce, runCallback, updReliable in *.

Ltac with_messages msg cursor c :=
  let ms := fresh "ms" in let E := fresh "E" in
  destruct (readMessages_shape msg cursor c) as [ms E];
  destruct (readMessages msg cursor c) as [? ?]; cbn [fst] in E; subst.

Ltac conn_step :=
  match goal with
  | |- context [readMessages ?msg ?cursor ?c] => with_messages msg cursor c
  | |- context [maybeAck ?m ?a ?c] =>
      destruct (maybeAck_shape m a c) as [->|[[? ->]|[? ->]]]
  | |- context [sendAck ?n ?c] =>
      destruct (sendAck_shape n c) as [->|[? ->]]
  | |- context [parseDisconnect ?m] =>
      let e := fresh "e" in let He := fresh "He" in
      destruct (parseDisconnect_shape m) as [(e & He & ->)|[? ->]]
  | |- context [disconnectServer ?f ?c] => rewrite (disconnectServer_eq f c)
  | |- context [disconnectBuffer ?f] => rewrite (disconnectBuffer_eq f)
  | |- context [match ?x with _ => _ end] => destruct x eqn:?
  end.

Ltac conn_cases :=
  repeat first [ discriminate | conn_step | progress (unfold emit, sendRaw; cbn)
               | match goal with He : isClose ?e = true |- _ => rewrite He in * end ];
  try done.

(** ** What every step preserves *)

Lemma step_seenHello ver role i c :
  seenHello c = true → seenHello (step ver role i c).1 = true.
Proof.
  intros H. destruct i, role; unfold_conn; conn_cases.
Qed.

Lemma step_closeListener ver role i c :
  closeListener c = false → closeListener (step ver role i c).1 = false.
Proof.
  intros H. destruct i, role; unfold_conn; conn_cases.
Qed.

Lemma step_nonce ver role i c :
  nonce (step ver role i c).1 = nonce c ∨
  nonce (step ver role i c).1 = Z.rem (nonce c + 1) 65535.
Proof.
  destruct i, role; unfold_conn; conn_cases; auto.
Qed.

(** ** Nonces *)

Lemma run_snoc ver role inputs i c :
  run ver role (inputs ++ [i]) c = (step ver role i (run ver role inputs c)).1.
Proof. unfold run. rewrite foldl_app. reflexivity. Qed.

Lemma run_cons ver role inputs i c :
  run ver role (i :: inputs) c = run ver role inputs (step ver role i c).1.
Proof. reflexivity. Qed.

Lemma reachable_nonce ver role inputs :
  0 ≤ nonce (run ver role inputs init) < 65535.
Proof.
  induction inputs as [|i inputs IH] using rev_ind; [cbn; lia|].
  rewrite run_snoc.
  destruct (step_nonce ver role i (run ver role inputs init)) as [->| ->]; [lia|].
  rewrite Z.rem_mod_nonneg by lia. apply Z.mod_pos_bound. lia.
Qed.

Lemma sendReliable_pendingAck messages c buf :
  reliableBuffer (Z.rem (nonce c + 1) 65535) messages = Ok buf →
  sendReliable messages c =
    (set_pendingAck (<[Z.rem (nonce c + 1) 65535 := OnAckReliable (length (reliables c))]> (pendingAck c))
       (sendRaw buf
          (set_reliables (reliables c ++ [{| r_buf := buf; r_attempts := 0; r_armed := true;
                                             r_promise := Pending |}])
             (set_nonce (Z.rem (nonce c + 1) 65535) c))), Returned).
Proof. intros H. unfold sendReliable, getNonce. cbv beta iota zeta. rewrite H. reflexivity. Qed.

(** C8.  On a connection that started with the counter at 0, after any
    sequence of events: the counter is below 65535, [getNonce] returns
    (previous + 1) mod 65535, which is the previous value plus one until
    65534 wraps to 0, so 65535 is never produced; [sendReliable] takes that
    nonce and stores its callback under it. *)
Theorem nonce_generation ver role inputs messages :
  let c := run ver role inputs init in
  let n := (getNonce c).2 in
  0 ≤ nonce c < 65535 ∧
  n = (nonce c + 1) mod 65535 ∧
  n = (if nonce c =? 65534 then 0 else nonce c + 1) ∧
  0 ≤ n < 65535 ∧ n ≠ 65535 ∧
  nonce (getNonce c).1 = n ∧
  nonce (sendReliable messages c).1 = n ∧
  match reliableBuffer n messages with
  | Ok buf => pendingAck (sendReliable messages c).1 !! n
              = Some (OnAckReliable (length (reliables c)))
  | Throw _ => True
  end.
Proof.
  intros c n. pose proof (reachable_nonce ver role inputs) as Hc. fold c in Hc.
  assert (Hn : n = (nonce c + 1) mod 65535).
  { unfold n, getNonce. cbn. apply Z.rem_mod_nonneg; lia. }
  assert (Hn' : n = Z.rem (nonce c + 1) 65535) by reflexivity.
  split; [exact Hc|]. split; [exact Hn|].
  split.
  { rewrite Hn. destruct (Z.eqb_spec (nonce c) 65534) as [->|Hne]; [reflexivity|].
    apply Z.mod_small. lia. }
  pose proof (Z.mod_pos_bound (nonce c + 1) 65535 ltac:(lia)) as Hb.
  split; [lia|]. split; [lia|]. split; [reflexivity|].
  split.
  - unfold sendReliable, getNonce. cbv beta iota zeta.
    rewrite <- Hn'. destruct (reliableBuffer n messages); reflexivity.
  - destruct (reliableBuffer n messages) as [buf|e] eqn:E; [|exact I].
    rewrite Hn' in E. rewrite (sendReliable_pendingAck _ _ _ E). cbn.
    rewrite <- Hn'. apply lookup_insert_eq.
Qed.

(** ** The selective-ack mask *)

Lemma testbit_small p k j : 0 ≤ p < 2 ^ k → k ≤ j → Z.testbit p j = false.
Proof.
  intros Hp Hj. destruct (Z.eq_dec p 0) as [->|Hne]; [apply Z.testbit_0_l|].
  apply Z.bits_above_log2; [lia|].
  assert (Z.log2 p < k); [|lia]. apply Z.log2_lt_pow2; lia.
Qed.

Lemma lor_pow2 p k : 0 ≤ k → 0 ≤ p < 2 ^ k → Z.lor p (2 ^ k) = p + 2 ^ k.
Proof.
  intros Hk Hp.
  assert (Hd : Z.land p (2 ^ k) = 0).
  { apply Z.bits_inj'. intros j Hj. rewrite Z.land_spec, Z.pow2_bits_eqb, Z.bits_0 by lia.
    destruct (Z.eqb_spec k j) as [<-|]; [|apply andb_false_r].
    rewrite (testbit_small p k k) by lia. reflexivity. }
  rewrite Z.add_nocarry_lxor, Z.lxor_lor by exact Hd. reflexivity.
Qed.

Lemma shl_one k : 0 ≤ k < 8 → JS.shl 1 k = 2 ^ k.
Proof.
  intros Hk. assert (Hc : k = 0 ∨ k = 1 ∨ k = 2 ∨ k = 3 ∨ k = 4 ∨ k = 5 ∨ k = 6 ∨ k = 7) by lia.
  destruct Hc as [->|[->|[->|[->|[->|[->|[->| ->]]]]]]]; reflexivity.
Qed.

(** The mask after the first [k] rounds of the loop of [sendAck]. *)
Lemma ackMask_prefix pa n (k : nat) :
  (k ≤ 8)%nat →
  let p := foldl (fun pending i =>
                    if negb (has pa (n - i)) then JS.bor pending (JS.shl 1 (i - 1))
                    else pending) 0 (seqZ 1 (Z.of_nat k)) in
  0 ≤ p < 2 ^ Z.of_nat k ∧
  ∀ j, 0 ≤ j →
       Z.testbit p j = if j <? Z.of_nat k then negb (has pa (n - (j + 1))) else false.
Proof.
  induction k as [|k IH]; intros Hk p.
  - subst p. change (seqZ 1 (Z.of_nat 0)) with (@nil Z). cbn [foldl].
    split; [change (2 ^ Z.of_nat 0) with 1; lia|]. intros j Hj.
    destruct (Z.ltb_spec j (Z.of_nat 0)); [lia|]. apply Z.testbit_0_l.
  - subst p. rewrite seqZ_S, foldl_app. cbn [foldl].
    destruct (IH ltac:(lia)) as [Hr Hb]. clear IH.
    set (p := foldl _ 0 (seqZ 1 (Z.of_nat k))) in *.
    replace (1 + Z.of_nat k - 1) with (Z.of_nat k) by lia.
    replace (2 ^ Z.of_nat (S k)) with (2 * 2 ^ Z.of_nat k)
      by (rewrite Nat2Z.inj_succ, Z.pow_succ_r; lia).
    assert (H256 : 2 ^ Z.of_nat k ≤ 2 ^ 7) by (apply Z.pow_le_mono_r; lia).
    change (2 ^ 7) with 128 in H256.
    destruct (has pa (n - (1 + Z.of_nat k))) eqn:Hhas; cbn [negb].
    + split; [lia|]. intros j Hj. rewrite Hb by lia.
      destruct (Z.ltb_spec j (Z.of_nat k)), (Z.ltb_spec j (Z.of_nat (S k))); try lia; try reflexivity.
      replace (j + 1) with (1 + Z.of_nat k) by lia. rewrite Hhas. reflexivity.
    + unfold JS.bor. rewrite shl_one by lia.
      rewrite !toInt32_small by (change (2 ^ 31) with 2147483648; lia).
      split; [rewrite lor_pow2 by lia; lia|].
      intros j Hj. rewrite Z.lor_spec, Hb, Z.pow2_bits_eqb by lia.
      destruct (Z.ltb_spec j (Z.of_nat k)), (Z.ltb_spec j (Z.of_nat (S k))),
        (Z.eqb_spec (Z.of_nat k) j); try lia; rewrite ?orb_false_r; try reflexivity.
      replace (j + 1) with (1 + Z.of_nat k) by lia. rewrite Hhas. reflexivity.
Qed.

Lemma ackMask_range pa n : 0 ≤ ackMask pa n ≤ 255.
Proof.
  destruct (ackMask_prefix pa n 8 ltac:(lia)) as [Hr _].
  unfold ackMask. change (2 ^ Z.of_nat 8) with 256 in Hr. change (Z.of_nat 8) with 8 in Hr. lia.
Qed.

Lemma ackMask_bits pa n i :
  1 ≤ i ≤ 8 → Z.testbit (ackMask pa n) (i - 1) = negb (has pa (n - i)).
Proof.
  intros Hi. destruct (ackMask_prefix pa n 8 ltac:(lia)) as [_ Hb].
  unfold ackMask. change (Z.of_nat 8) with 8 in Hb. rewrite Hb by lia.
  destruct (Z.ltb_spec (i - 1) 8); [|lia]. do 3 f_equal. lia.
Qed.

Lemma ackBuffer_eq n p :
  0 ≤ n ≤ 65535 → 0 ≤ p ≤ 255 →
  ackBuffer n p = Ok [PacketType.ACKNOWLEDGEMENT; Z.shiftr n 8; Z.land n 255; p].
Proof.
  intros Hn Hp. unfold ackBuffer, HazelBuffer.writeByte, HazelBuffer.writeUInt16,
    Buffer.writeUInt16BE, Buffer.writeUInt8.
  cbn. destruct (Z.ltb_spec n 0); [lia|]. destruct (Z.ltb_spec 65535 n); [lia|].
  cbn. destruct (Z.ltb_spec p 0); [lia|]. destruct (Z.ltb_spec 255 p); [lia|].
  reflexivity.
Qed.

Lemma sent_emit e c : sent (emit e c) = sent c.
Proof. unfold emit. destruct (_ && _); reflexivity. Qed.

Lemma reliables_emit e c : reliables (emit e c) = reliables c.
Proof. unfold emit. destruct (_ && _); reflexivity. Qed.

Lemma emitted_emit e c : emitted (emit e c) = emitted c ++ [e].
Proof. unfold emit. destruct (_ && _); reflexivity. Qed.

Lemma sent_sendRaw buf c : sent (sendRaw buf c) = sent c ++ [buf].
Proof. reflexivity. Qed.

Lemma sent_readMessages msg cursor c : sent (readMessages msg cursor c).1 = sent c.
Proof. destruct (readMessages_shape msg cursor c) as [ms ->]. reflexivity. Qed.

Lemma sent_disconnect role c :
  ∃ buf, sent (disconnect role (Some true) None None c).1 = sent c ++ [buf].
Proof.
  destruct role; cbn [disconnect].
  - rewrite disconnectServer_eq. cbn [fst]. rewrite sent_sendRaw, sent_emit. eauto.
  - unfold disconnectClient. cbn -[emit sendRaw]. rewrite disconnectBuffer_eq.
    cbn [fst]. rewrite sent_sendRaw, sent_emit. eauto.
Qed.

Lemma uint16_bytes b1 b2 :
  isByte b1 → isByte b2 →
  0 ≤ b1 * 2 ^ 8 + b2 ≤ 65535 ∧
  Z.shiftr (b1 * 2 ^ 8 + b2) 8 = b1 ∧ Z.land (b1 * 2 ^ 8 + b2) 255 = b2.
Proof.
  unfold isByte. intros H1 H2. change (2 ^ 8) with 256.
  split; [lia|]. split.
  - rewrite Z.shiftr_div_pow2 by lia. change (2 ^ 8) with 256.
    rewrite Z.div_add_l by lia. rewrite Z.div_small by lia. lia.
  - change 255 with (Z.ones 8). rewrite Z.land_ones by lia. change (2 ^ 8) with 256.
    rewrite Z.add_comm, Z.mod_add by lia. apply Z.mod_small. lia.
Qed.

Lemma has_None (pa : gmap Z Callback) k : negb (has pa k) = true ↔ pa !! k = None.
Proof. unfold has. destruct (pa !! k); cbn; split; congruence. Qed.

Lemma readUInt16BE_1 first b1 b2 tl :
  Buffer.readUInt16BE (first :: b1 :: b2 :: tl) 1 = Ok (b1 * 2 ^ 8 + b2).
Proof. reflexivity. Qed.

Lemma readByte_0 first tl : HazelBuffer.readByte (first :: tl) (Some 0) = Ok first.
Proof. reflexivity. Qed.

Lemma readByte_3 first b1 b2 tl :
  HazelBuffer.readByte (first :: b1 :: b2 :: tl) (Some 3) =
    match tl with
    | v :: _ => Ok v
    | [] => Throw RangeError
    end.
Proof. destruct tl; reflexivity. Qed.

Lemma sendAck_eq b1 b2 c :
  isByte b1 → isByte b2 →
  sendAck (b1 * 2 ^ 8 + b2) c =
    sendRaw [PacketType.ACKNOWLEDGEMENT; b1; b2; ackMask (pendingAck c) (b1 * 2 ^ 8 + b2)] c.
Proof.
  intros H1 H2. destruct (uint16_bytes b1 b2 H1 H2) as (Hr & Hhi & Hlo).
  unfold sendAck. rewrite ackBuffer_eq by (auto using ackMask_range).
  rewrite Hhi, Hlo. reflexivity.
Qed.

Lemma maybeAck_reliable first b1 b2 tl c :
  isByte b1 → isByte b2 →
  maybeAck (first :: b1 :: b2 :: tl) true c =
    Ok (sendRaw [PacketType.ACKNOWLEDGEMENT; b1; b2;
                 ackMask (pendingAck c) (b1 * 2 ^ 8 + b2)] c).
Proof.
  intros H1 H2. unfold maybeAck, HazelBuffer.readUInt16.
  change (HazelBuffer.orZero (Some 1)) with 1. rewrite readUInt16BE_1.
  cbn [mbind result_bind rbind]. rewrite sendAck_eq by assumption. reflexivity.
Qed.

(** C1, amended.  The acknowledgement of an inbound reliable packet (and
    of a ping) with nonce [N] is the first datagram sent in response,
    [0x0A, N >> 8, N & 255, mask]; bit [i - 1] of [mask], for [i] from 1 to
    8, is set exactly when [N - i] is not a key of [pendingAck], the table
    of the connection's own outbound nonces that await an acknowledgement. *)
Theorem ack_mask_reflects_pendingAck ver role now first b1 b2 tl c :
  isByte b1 → isByte b2 →
  first = PacketType.RELIABLE ∨ first = PacketType.PING
  ∨ (role = ServerSide ∧ first = PacketType.HELLO) →
  ∃ mask rest,
    sent (step ver role (Data now (first :: b1 :: b2 :: tl)) c).1
    = sent c ++ [PacketType.ACKNOWLEDGEMENT; b1; b2; mask] :: rest ∧
    0 ≤ mask ≤ 255 ∧
    ∀ i, 1 ≤ i ≤ 8 →
         (Z.testbit mask (i - 1) = true ↔ pendingAck c !! (b1 * 2 ^ 8 + b2 - i) = None).
Proof.
  intros H1 H2 Hfirst.
  exists (ackMask (pendingAck c) (b1 * 2 ^ 8 + b2)).
  assert (Hbits : ∀ i, 1 ≤ i ≤ 8 →
            (Z.testbit (ackMask (pendingAck c) (b1 * 2 ^ 8 + b2)) (i - 1) = true
             ↔ pendingAck c !! (b1 * 2 ^ 8 + b2 - i) = None)).
  { intros i Hi. rewrite ackMask_bits by exact Hi. apply has_None. }
  pose proof (ackMask_range (pendingAck c) (b1 * 2 ^ 8 + b2)) as Hrange.
  set (mask := ackMask _ _) in *.
  assert (Hlen : (Z.of_nat (length (first :: b1 :: b2 :: tl)) <? 3) = false).
  { apply Z.ltb_ge. cbn [length]. lia. }
  cut (∃ rest, sent (step ver role (Data now (first :: b1 :: b2 :: tl)) c).1
               = sent c ++ [PacketType.ACKNOWLEDGEMENT; b1; b2; mask] :: rest).
  { intros [rest Hs]. exists rest. auto. }
  unfold step, handleMessage.
  destruct Hfirst as [->|[->|[-> ->]]];
    unfold PacketType.RELIABLE, PacketType.HELLO, PacketType.NORMAL, PacketType.PING,
      PacketType.DISCONNECT, PacketType.FRAGMENT in *;
    cbn [Z.eqb Pos.eqb orb handleMessagePacket].
  - destruct role; unfold handleMessagePacket;
      [unfold handleMessagePacketServer|unfold handleMessagePacketClient];
      cbv zeta; change (if true then 3 else 1) with 3;
      rewrite Hlen, ?readByte_0; cbn [Z.eqb Pos.eqb PacketType.HELLO];
      rewrite maybeAck_reliable by assumption; fold mask;
      rewrite ?readByte_0; cbn [Z.eqb Pos.eqb PacketType.HELLO];
      rewrite sent_readMessages; exists []; reflexivity.
  - unfold handlePing.
    replace (3 <=? Z.of_nat (length (12 :: b1 :: b2 :: tl))) with true
      by (symmetry; apply Z.leb_le; cbn [length]; lia).
    rewrite readUInt16BE_1, sendAck_eq by assumption. exists []. reflexivity.
  - unfold handleMessagePacket, handleMessagePacketServer. cbv zeta. change (if true then 3 else 1) with 3.
    rewrite Hlen, maybeAck_reliable by assumption. fold mask.
    rewrite readByte_0. cbn [Z.eqb Pos.eqb PacketType.HELLO].
    destruct (seenHello _ || _).
    + destruct (sent_disconnect ServerSide (sendRaw [PacketType.ACKNOWLEDGEMENT; b1; b2; mask] c))
        as [buf Hb]. rewrite Hb, sent_sendRaw, <- app_assoc.
      exists [buf]. reflexivity.
    + rewrite readByte_3. destruct tl as [|hazelVer tl']; [exists []; reflexivity|].
      destruct (negb _).
      * destruct (sent_disconnect ServerSide (set_seenHello true (sendRaw [PacketType.ACKNOWLEDGEMENT; b1; b2; mask] c)))
          as [buf Hb]. rewrite Hb. cbn [sent set_seenHello]. rewrite sent_sendRaw, <- app_assoc.
        exists [buf]. reflexivity.
      * cbn [fst]. rewrite sent_emit. exists []. reflexivity.
Qed.

(** C1, amended, at the datagram [0x01, 0x00, 0x2B] on a fresh connection. *)
Lemma ack_mask_reflects_pendingAck_witness :
  ∃ mask rest,
    sent (step 0 ServerSide (Data 0 [PacketType.RELIABLE; 0; 43]) init).1
    = sent init ++ [PacketType.ACKNOWLEDGEMENT; 0; 43; mask] :: rest ∧
    0 ≤ mask ≤ 255 ∧
    ∀ i, 1 ≤ i ≤ 8 →
         (Z.testbit mask (i - 1) = true ↔ pendingAck init !! (0 * 2 ^ 8 + 43 - i) = None).
Proof.
  apply (ack_mask_reflects_pendingAck 0 ServerSide 0 PacketType.RELIABLE 0 43 [] init).
  - unfold isByte. lia.
  - unfold isByte. lia.
  - left. reflexivity.
Defined.

(** C1 as stated fails: nonce 42 has been received, yet the acknowledgement
    of nonce 43 carries the mask 0xFF, whose bit 0 is set. *)
Lemma ack_mask_counterexample :
  let history := [Data 0 [1; 0; 42]] in
  let c := run 0 ServerSide history init in
  sent (step 0 ServerSide (Data 0 [1; 0; 43]) c).1 = sent c ++ [[10; 0; 43; 255]] ∧
  ¬ (Z.testbit 255 (1 - 1) = true ↔ 43 - 1 ∉ specInboundSeen history).
Proof.
  split; [vm_compute; reflexivity|].
  intros [H _]. apply H; [reflexivity|]. vm_compute. apply list_elem_of_here.
Qed.

(** ** HELLO on the server side *)




Lemma maybeAck_long first b1 b2 tl c :
  ∃ n, maybeAck (first :: b1 :: b2 :: tl) true c = Ok (sendAck n c).
Proof.
  unfold maybeAck, HazelBuffer.readUInt16.
  change (HazelBuffer.orZero (Some 1)) with 1. rewrite readUInt16BE_1. eauto.
Qed.

Lemma slice_payload first b1 b2 v payload :
  Buffer.slice (first :: b1 :: b2 :: v :: payload) 4
    (Z.of_nat (length (first :: b1 :: b2 :: v :: payload))) = payload.
Proof.
  unfold Buffer.slice. change (Z.to_nat 4) with 4%nat. cbn [drop length].
  apply take_ge. lia.
Qed.









(** ** The division of [ping] *)

Lemma nearest_mul x d : 0 < d → Double.nearest (x * d) d = x.
Proof.
  intros Hd. unfold Double.nearest. rewrite Z.div_mul, Z.mod_mul by lia.
  change (2 * 0) with 0. destruct (Z.compare_spec 0 d); lia.
Qed.

Lemma Qpower2_neg p : 0 ≤ p → (inject_Z (2 ^ p) * 2 ^ (- p) == 1)%Q.
Proof.
  intros Hp. rewrite Qpower_opp. rewrite Zpower_Qpower by exact Hp.
  apply Qmult_inv_r. apply Qpower_not_0. discriminate.
Qed.

Lemma roundPos_exact k d :
  0 < d → 0 < k < 2 ^ 53 → (Double.roundPos (k * d) d == inject_Z k)%Q.
Proof.
  intros Hd Hk. unfold Double.roundPos, Double.exponent.
  destruct (Z.leb_spec d (k * d)) as [_|Hlt]; [|nia].
  rewrite Z.div_mul by lia.
  assert (He : 0 ≤ Z.log2 k < 53).
  { split; [apply Z.log2_nonneg|]. apply Z.log2_lt_pow2; lia. }
  set (e := Z.log2 k) in *.
  destruct (Z.leb_spec 0 (e - 52)) as [Hp|Hp].
  - replace (e - 52) with 0 by lia. change (2 ^ 0) with 1. rewrite Z.mul_1_r.
    rewrite nearest_mul by exact Hd. change (2 ^ 0)%Q with 1%Q. ring.
  - replace (k * d * 2 ^ (- (e - 52))) with (k * 2 ^ (- (e - 52)) * d) by ring.
    rewrite nearest_mul by exact Hd.
    rewrite inject_Z_mult. rewrite <- Qmult_assoc.
    replace (e - 52) with (- (- (e - 52))) at 2 by lia.
    rewrite Qpower2_neg by lia. ring.
Qed.

(** A quotient that is an integer of less than 54 bits is exact. *)
Lemma div_exact k d :
  0 < d → Z.abs k < 2 ^ 53 → (Double.div (k * d) d == inject_Z k)%Q.
Proof.
  intros Hd Hk. unfold Double.div.
  destruct (Z.eqb_spec (k * d) 0) as [H0|H0].
  - assert (k = 0) by nia. subst k. reflexivity.
  - rewrite Z.abs_mul, (Z.abs_eq d) by lia.
    destruct (Z.ltb_spec 0 (k * d * d)) as [Hpos|Hneg].
    + assert (0 < k) by nia. rewrite (Z.abs_eq k) by lia. apply roundPos_exact; lia.
    + assert (k < 0) by nia. rewrite roundPos_exact by lia.
      rewrite Z.abs_neq by lia. rewrite inject_Z_opp. ring.
Qed.

Lemma nearest_half n d : 0 < d → Z.abs (d * Double.nearest n d - n) * 2 ≤ d.
Proof.
  intros Hd. unfold Double.nearest.
  pose proof (Z.div_mod n d ltac:(lia)) as Hdm.
  pose proof (Z.mod_pos_bound n d Hd) as Hr.
  set (q := n / d) in *. set (r := n mod d) in *.
  destruct (Z.compare_spec (2 * r) d); [destruct (Z.even q)| |]; nia.
Qed.

(** [exponent] is the binary exponent of the quotient. *)
Lemma exponent_spec n d :
  0 < n → 0 < d →
  (0 ≤ Double.exponent n d → 2 ^ Double.exponent n d * d ≤ n) ∧
  (Double.exponent n d < 0 → d ≤ n * 2 ^ (- Double.exponent n d)).
Proof.
  intros Hn Hd. unfold Double.exponent.
  destruct (Z.leb_spec d n) as [Hle|Hlt].
  - assert (Hq : 0 < n / d) by (apply Z.div_str_pos; lia).
    pose proof (Z.log2_spec (n / d) Hq) as [Hlo _].
    pose proof (Z.log2_nonneg (n / d)).
    pose proof (Z.mul_div_le n d Hd).
    split; [intros _; nia|lia].
  - set (c := (d + n - 1) / n).
    assert (Hc : 1 < c).
    { unfold c. apply Z.lt_le_trans with (2 * n / n).
      - rewrite Z.div_mul by lia. lia.
      - apply Z.div_le_mono; lia. }
    pose proof (Z.log2_up_spec c Hc) as [_ Hup].
    pose proof (Z.log2_up_pos c Hc) as Hpos.
    assert (Hdc : d ≤ n * c).
    { pose proof (Z.div_mod (d + n - 1) n ltac:(lia)) as Hdm. fold c in Hdm.
      pose proof (Z.mod_pos_bound (d + n - 1) n Hn). lia. }
    split; [lia|]. intros _. rewrite Z.opp_involutive. nia.
Qed.

Lemma inject_Z_sub x y : inject_Z (x - y) = (inject_Z x - inject_Z y)%Q.
Proof. unfold Z.sub, Qminus. rewrite inject_Z_plus, inject_Z_opp. reflexivity. Qed.

Lemma Qabs_inject z : Qabs (inject_Z z) = inject_Z (Z.abs z).
Proof. reflexivity. Qed.

(** Rounding moves the quotient by at most one part in [2 ^ 53]. *)
Lemma roundPos_error n d :
  0 < n → 0 < d →
  (Qabs (inject_Z d * Double.roundPos n d - inject_Z n) * inject_Z (2 ^ 53) <= inject_Z n)%Q.
Proof.
  intros Hn Hd. destruct (exponent_spec n d Hn Hd) as [Hhi Hlo].
  unfold Double.roundPos. set (e := Double.exponent n d) in *.
  destruct (Z.leb_spec 0 (e - 52)) as [Hp|Hp].
  - set (P := 2 ^ (e - 52)).
    assert (HP : 0 < P) by (apply Z.pow_pos_nonneg; lia).
    assert (He : 2 ^ e = 2 ^ 52 * P).
    { unfold P. rewrite <- Z.pow_add_r by lia. f_equal. lia. }
    pose proof (nearest_half n (d * P) ltac:(nia)) as Hhalf.
    set (m := Double.nearest n (d * P)) in *.
    assert (HP2 : (2 ^ (e - 52) == inject_Z P)%Q)
      by (symmetry; apply (Zpower_Qpower 2); exact Hp).
    rewrite HP2.
    rewrite <- !inject_Z_mult, <- inject_Z_sub, Qabs_inject, <- inject_Z_mult, <- Zle_Qle.
    specialize (Hhi ltac:(lia)). rewrite He in Hhi.
    replace (d * (m * P)) with (d * P * m) by ring. nia.
  - set (P := 2 ^ (- (e - 52))).
    assert (HP : 0 < P) by (apply Z.pow_pos_nonneg; lia).
    pose proof (nearest_half (n * P) d Hd) as Hhalf.
    set (m := Double.nearest (n * P) d) in *.
    assert (Hinv : (inject_Z P * 2 ^ (e - 52) == 1)%Q).
    { unfold P. replace (e - 52) with (- (- (e - 52))) at 2 by lia.
      apply Qpower2_neg. lia. }
    assert (Hbig : 2 ^ 52 * d ≤ n * P).
    { destruct (Z.le_gt_cases 0 e) as [He|He].
      - specialize (Hhi He). unfold P.
        replace (2 ^ 52) with (2 ^ e * 2 ^ (- (e - 52)))
          by (rewrite <- Z.pow_add_r by lia; f_equal; lia).
        assert (0 < 2 ^ (- (e - 52))) by (apply Z.pow_pos_nonneg; lia). nia.
      - specialize (Hlo He). unfold P.
        replace (- (e - 52)) with (52 + - e) by lia. rewrite Z.pow_add_r by lia.
        assert (0 < 2 ^ 52) by reflexivity. nia. }
    assert (Hpow : (0 < 2 ^ (e - 52))%Q).
    { apply Qpower_0_lt. reflexivity. }
    assert (Heq : (inject_Z d * (inject_Z m * 2 ^ (e - 52)) - inject_Z n
                   == inject_Z (d * m - n * P) * 2 ^ (e - 52))%Q).
    { rewrite inject_Z_sub, !inject_Z_mult.
      transitivity (inject_Z d * inject_Z m * 2 ^ (e - 52)
                    - inject_Z n * (inject_Z P * 2 ^ (e - 52)))%Q; [rewrite Hinv|]; ring. }
    rewrite Heq, Qabs_Qmult, Qabs_inject, (Qabs_pos (2 ^ (e - 52))) by (apply Qlt_le_weak, Hpow).
    apply (Qmult_le_r _ _ (inject_Z P)); [change 0%Q with (inject_Z 0); rewrite <- Zlt_Qlt; exact HP|].
    apply (Qle_trans _ (inject_Z (Z.abs (d * m - n * P)) * inject_Z (2 ^ 53)
                        * (inject_Z P * 2 ^ (e - 52)))%Q); [apply Qle_lteq; right; ring|].
    rewrite Hinv, Qmult_1_r, <- !inject_Z_mult, <- Zle_Qle. nia.
Qed.

Lemma div_error a d :
  0 < d →
  (Qabs (inject_Z d * Double.div a d - inject_Z a) * inject_Z (2 ^ 53) <= Qabs (inject_Z a))%Q.
Proof.
  intros Hd. unfold Double.div.
  destruct (Z.eqb_spec a 0) as [->|H0].
  { assert (Hz : (inject_Z d * 0 - inject_Z 0 == 0)%Q) by ring.
    rewrite Hz. discriminate. }
  rewrite (Z.abs_eq d) by lia. rewrite Qabs_inject.
  destruct (Z.ltb_spec 0 (a * d)) as [Hpos|Hneg].
  - assert (0 < a) by nia. rewrite (Z.abs_eq a) by lia. apply roundPos_error; lia.
  - assert (a < 0) by nia.
    pose proof (roundPos_error (Z.abs a) d ltac:(lia) Hd) as H'.
    rewrite <- (Qabs_opp (inject_Z d * - Double.roundPos (Z.abs a) d - inject_Z a)).
    assert (Hz : (- (inject_Z d * - Double.roundPos (Z.abs a) d - inject_Z a)
                  == inject_Z d * Double.roundPos (Z.abs a) d - inject_Z (Z.abs a))%Q).
    { rewrite (Z.abs_neq a) by lia. rewrite inject_Z_opp. ring. }
    rewrite Hz. exact H'.
Qed.

(** The same bound on the distance from the mean of five. *)
Lemma div5_error s :
  (Qabs (Double.div s 5 - inject_Z s / 5) * inject_Z (2 ^ 53) <= Qabs (inject_Z s / 5))%Q.
Proof.
  pose proof (div_error s 5 ltac:(lia)) as H.
  apply (Qmult_le_r _ _ 5); [reflexivity|].
  assert (H1 : (Qabs (Double.div s 5 - inject_Z s / 5) * inject_Z (2 ^ 53) * 5
                == Qabs (inject_Z 5 * Double.div s 5 - inject_Z s) * inject_Z (2 ^ 53))%Q).
  { assert (H5 : (inject_Z 5 * Double.div s 5 - inject_Z s
                  == 5 * (Double.div s 5 - inject_Z s / 5))%Q) by (change (inject_Z 5) with 5%Q; field).
    rewrite H5, Qabs_Qmult. change (Qabs 5) with 5%Q. ring. }
  assert (H2 : (Qabs (inject_Z s / 5) * 5 == Qabs (inject_Z s))%Q).
  { assert (H5 : (inject_Z s == 5 * (inject_Z s / 5))%Q) by field.
    rewrite H5 at 2. rewrite Qabs_Qmult. change (Qabs 5) with 5%Q. ring. }
  rewrite H1, H2. exact H.
Qed.

(** ** Ping and the round-trip ring *)

Lemma length_tail_snoc (l : list Z) x : length l = 5%nat → length (tail l ++ [x]) = 5%nat.
Proof. destruct l; cbn; [discriminate|]. rewrite length_app. cbn. lia. Qed.

Lemma step_lastPings ver role i c :
  length (lastPings c) = 5%nat → length (lastPings (step ver role i c).1) = 5%nat.
Proof.
  intros H. destruct i, role; unfold_conn; conn_cases; auto using length_tail_snoc.
Qed.

Lemma reachable_lastPings ver role inputs :
  length (lastPings (run ver role inputs init)) = 5%nat.
Proof.
  induction inputs as [|i inputs IH] using rev_ind; [reflexivity|].
  rewrite run_snoc. apply step_lastPings, IH.
Qed.

Lemma run_app ver role l1 l2 c :
  run ver role (l1 ++ l2) c = run ver role l2 (run ver role l1 c).
Proof. unfold run. apply foldl_app. Qed.

(** A ping sent at time [t] and acknowledged at time [t + r]. *)
Lemma ping_then_ack ver role c t r :
  pingTimer c = true → pendingPings c < 10 → 0 ≤ nonce c < 65534 →
  let n := nonce c + 1 in
  let c' := run ver role [PingTick t; Data (t + r) [PacketType.ACKNOWLEDGEMENT; n / 256; n mod 256]] c in
  lastPings c' = tail (lastPings c) ++ [r] ∧
  pingTimer c' = true ∧ pendingPings c' = pendingPings c ∧ nonce c' = n.
Proof.
  intros Ht Hp Hn n c'. subst c'. unfold run. cbn [foldl].
  assert (Hrem : Z.rem (nonce c + 1) 65535 = n).
  { rewrite Z.rem_mod_nonneg by lia. apply Z.mod_small. lia. }
  assert (Hping : ∃ c1, (step ver role (PingTick t) c).1 = c1 ∧
            pendingAck c1 !! n = Some (OnAckPing t) ∧ lastPings c1 = lastPings c ∧
            pingTimer c1 = true ∧ pendingPings c1 = pendingPings c + 1 ∧ nonce c1 = n).
  { unfold step. rewrite Ht. unfold sendPing.
    destruct (Z.leb_spec 10 (pendingPings c)); [lia|].
    unfold getNonce. cbv zeta beta iota. rewrite Hrem.
    destruct (pingBuffer n); eexists; (split; [reflexivity|]); cbn;
      rewrite lookup_insert_eq; auto. }
  destruct Hping as (c1 & -> & Hpa & Hl & Ht1 & Hp1 & Hn1).
  unfold step, handleMessage, PacketType.ACKNOWLEDGEMENT.
  cbn [Z.eqb Pos.eqb orb PacketType.NORMAL PacketType.HELLO PacketType.RELIABLE PacketType.DISCONNECT].
  unfold handleAck.
  change (3 <=? Z.of_nat (length [10; n / 256; n mod 256])) with true. cbv iota.
  rewrite readUInt16BE_1.
  replace (n / 256 * 2 ^ 8 + n mod 256) with n
    by (change (2 ^ 8) with 256; rewrite (Z.div_mod n 256) at 1 by lia; ring).
  rewrite Hpa. cbn. rewrite Hl, Ht1, Hp1, Hn1.
  repeat split; try lia. do 2 f_equal. lia.
Qed.

(** C9, amended.  After any sequence of events [lastPings] has five
    entries, which start at zero, and [ping] is what the division of
    their sum by five gives in double precision: the arithmetic mean
    itself when the sum is a multiple of five, and the mean within one
    part in [2 ^ 53] in every case.  After five acknowledged pings with
    round trips of 10, 20, 30, 40 and 50 ms [ping] is 30. *)
Theorem ping_is_mean_of_ring ver role inputs t1 t2 t3 t4 t5 :
  (∃ e1 e2 e3 e4 e5,
      lastPings (run ver role inputs init) = [e1; e2; e3; e4; e5] ∧
      let sum := e1 + e2 + e3 + e4 + e5 in
      let mean := (inject_Z sum / 5)%Q in
      ping (run ver role inputs init) = Double.div sum 5 ∧
      (sum mod 5 = 0 → Z.abs sum < 5 * 2 ^ 53 →
       (ping (run ver role inputs init) == mean)%Q) ∧
      (Qabs (ping (run ver role inputs init) - mean) * inject_Z (2 ^ 53)
       <= Qabs mean)%Q) ∧
  lastPings init = [0; 0; 0; 0; 0] ∧
  (ping (run ver role (fivePings t1 t2 t3 t4 t5) init) == 30)%Q.
Proof.
  split; [|split; [reflexivity|]].
  - pose proof (reachable_lastPings ver role inputs) as Hlen.
    unfold ping. destruct (lastPings (run ver role inputs init))
      as [|e1 [|e2 [|e3 [|e4 [|e5 [|e6 l]]]]]]; try discriminate.
    exists e1, e2, e3, e4, e5. split; [reflexivity|]. cbn [foldl]. cbv zeta.
    replace (0 + e1 + e2 + e3 + e4 + e5)%Z with (e1 + e2 + e3 + e4 + e5)%Z by lia.
    set (sum := (e1 + e2 + e3 + e4 + e5)%Z).
    split; [reflexivity|]. split; [|apply div5_error].
    intros Hmod Hsmall.
    assert (Hk : sum = (sum / 5 * 5)%Z).
    { pose proof (Z.div_mod sum 5 ltac:(lia)). lia. }
    rewrite Hk at 1. rewrite div_exact by lia.
    rewrite Hk at 2. rewrite inject_Z_mult. change (inject_Z 5) with 5%Q. field.
  - change (fivePings t1 t2 t3 t4 t5)
      with ([PingTick t1; Data (t1 + 10) [10; 0; 1]] ++
            [PingTick t2; Data (t2 + 20) [10; 0; 2]] ++
            [PingTick t3; Data (t3 + 30) [10; 0; 3]] ++
            [PingTick t4; Data (t4 + 40) [10; 0; 4]] ++
            [PingTick t5; Data (t5 + 50) [10; 0; 5]]).
    rewrite !run_app.
    destruct (ping_then_ack ver role init t1 10) as (Hl1 & Ht1 & Hp1 & Hn1);
      [reflexivity|cbn; lia|cbn; lia|].
    change (nonce init + 1) with 1 in *. change (1 / 256) with 0 in *. change (1 mod 256) with 1 in *.
    change PacketType.ACKNOWLEDGEMENT with 10 in *.
    set (c1 := run ver role [PingTick t1; Data (t1 + 10) [10; 0; 1]] init) in *.
    destruct (ping_then_ack ver role c1 t2 20) as (Hl2 & Ht2 & Hp2 & Hn2);
      [assumption|rewrite Hp1; cbn; lia|lia|].
    rewrite Hn1 in *. change (1 + 1) with 2 in *.
    change (2 / 256) with 0 in *. change (2 mod 256) with 2 in *.
    change PacketType.ACKNOWLEDGEMENT with 10 in *.
    set (c2 := run ver role [PingTick t2; Data (t2 + 20) [10; 0; 2]] c1) in *.
    destruct (ping_then_ack ver role c2 t3 30) as (Hl3 & Ht3 & Hp3 & Hn3);
      [assumption|rewrite Hp2, Hp1; cbn; lia|lia|].
    rewrite Hn2 in *. change (2 + 1) with 3 in *.
    change (3 / 256) with 0 in *. change (3 mod 256) with 3 in *.
    change PacketType.ACKNOWLEDGEMENT with 10 in *.
    set (c3 := run ver role [PingTick t3; Data (t3 + 30) [10; 0; 3]] c2) in *.
    destruct (ping_then_ack ver role c3 t4 40) as (Hl4 & Ht4 & Hp4 & Hn4);
      [assumption|rewrite Hp3, Hp2, Hp1; cbn; lia|lia|].
    rewrite Hn3 in *. change (3 + 1) with 4 in *.
    change (4 / 256) with 0 in *. change (4 mod 256) with 4 in *.
    change PacketType.ACKNOWLEDGEMENT with 10 in *.
    set (c4 := run ver role [PingTick t4; Data (t4 + 40) [10; 0; 4]] c3) in *.
    destruct (ping_then_ack ver role c4 t5 50) as (Hl5 & Ht5 & Hp5 & Hn5);
      [assumption|rewrite Hp4, Hp3, Hp2, Hp1; cbn; lia|lia|].
    rewrite Hn4 in *. change (4 + 1) with 5 in *.
    change (5 / 256) with 0 in *. change (5 mod 256) with 5 in *.
    change PacketType.ACKNOWLEDGEMENT with 10 in *.
    unfold ping. rewrite Hl5, Hl4, Hl3, Hl2, Hl1. vm_compute. reflexivity.
Qed.

(** C9, amended, after one ping acknowledged 5 ms later: the sum of the
    ring is 5 and [ping] is 1. *)
Lemma ping_is_mean_of_ring_witness :
  let c := run 0 ServerSide [PingTick 0; Data 5 [10; 0; 1]] init in
  lastPings c = [0; 0; 0; 0; 5] ∧ (ping c == 1)%Q.
Proof.
  intros c.
  destruct (ping_is_mean_of_ring 0 ServerSide [PingTick 0; Data 5 [10; 0; 1]] 0 0 0 0 0)
    as [(e1 & e2 & e3 & e4 & e5 & Hring & _ & Hexact & _) _].
  assert (Hc : lastPings c = [0; 0; 0; 0; 5]) by reflexivity.
  split; [exact Hc|].
  pose proof (eq_trans (eq_sym Hc) Hring) as Heq.
  injection Heq as <- <- <- <- <-.
  apply (Qeq_trans _ _ _ (Hexact eq_refl eq_refl)). reflexivity.
Defined.

(** C9 as stated fails: after one ping acknowledged 1 ms later the ring
    is [0, 0, 0, 0, 1], whose mean is one fifth; [ping] is the double
    0.2, which is 3602879701896397 / 2^54. *)
Lemma ping_not_the_mean_counterexample :
  let c := run 0 ServerSide [PingTick 0; Data 1 [10; 0; 1]] init in
  lastPings c = [0; 0; 0; 0; 1] ∧
  ¬ (ping c == 1 / 5)%Q ∧
  (ping c == 3602879701896397 # 18014398509481984)%Q.
Proof.
  intros c. split; [reflexivity|]. split; [|vm_compute; reflexivity].
  vm_compute. discriminate.
Qed.

(** ** Retransmission of a reliable send *)

Lemma disconnect_forced role c :
  ∃ flag e,
    isClose e = true ∧
    disconnect role (Some true) None None c = (sendRaw [flag; 0] (emit e c), Returned).
Proof.
  destruct role; cbn [disconnect].
  - rewrite disconnectServer_eq. exists 0, (EvClose None None None). split; reflexivity.
  - unfold disconnectClient. cbn -[emit sendRaw]. rewrite disconnectBuffer_eq.
    exists 1, (EvClose (Some true) None None). split; reflexivity.
Qed.

(** What a forced [disconnect] emits and hands to the socket: the flag
    is written over the type byte. *)
Lemma disconnect_forced_eq role c :
  disconnect role (Some true) None None c
  = (sendRaw (match role with ServerSide => [0; 0] | ClientSide => [1; 0] end)
       (emit (match role with
              | ServerSide => EvClose None None None
              | ClientSide => EvClose (Some true) None None
              end) c), Returned).
Proof.
  destruct role; cbn [disconnect].
  - rewrite disconnectServer_eq. reflexivity.
  - unfold disconnectClient. cbn -[emit sendRaw]. rewrite disconnectBuffer_eq. reflexivity.
Qed.

Lemma retxTick_resend role id c r :
  reliables c !! id = Some r → r_armed r = true → r_attempts r ≠ 10 →
  retxTick role id c = (updReliable id countAttempt (sendRaw (r_buf r) c), Returned).
Proof.
  intros Hr Ha Hn. unfold retxTick. rewrite Hr, Ha.
  destruct (Z.eqb_spec (r_attempts r) 10); [contradiction|reflexivity].
Qed.

Lemma retxTick_exhausted role id c r :
  reliables c !! id = Some r → r_armed r = true → r_attempts r = 10 →
  retxTick role id c =
    disconnect role (Some true) None None
      (updReliable id (fun r => settle Rejected (clearRetx r)) c).
Proof.
  intros Hr Ha Hn. unfold retxTick. rewrite Hr, Ha, Hn. reflexivity.
Qed.

(** [k] retransmissions in a row, none of them the last. *)
Lemma retx_ticks ver role id buf k : ∀ c r,
  reliables c !! id = Some r → r_buf r = buf → r_armed r = true →
  0 ≤ r_attempts r → r_attempts r + Z.of_nat k ≤ 10 →
  let c' := run ver role (replicate k (RetxTick id)) c in
  sent c' = sent c ++ replicate k buf ∧ emitted c' = emitted c ∧
  ∃ r', reliables c' !! id = Some r' ∧ r_buf r' = buf ∧ r_armed r' = true ∧
        r_attempts r' = r_attempts r + Z.of_nat k ∧ r_promise r' = r_promise r.
Proof.
  induction k as [|k IH]; intros c r Hr Hb Ha H0 Hk c'.
  - subst c'. cbn. rewrite app_nil_r. split; [reflexivity|]. split; [reflexivity|].
    exists r. rewrite Z.add_0_r. auto.
  - set (c1 := updReliable id countAttempt (sendRaw (r_buf r) c)).
    assert (Hc' : c' = run ver role (replicate k (RetxTick id)) c1).
    { subst c'. cbn [replicate]. rewrite run_cons. unfold step.
      rewrite (retxTick_resend role id c r) by (auto; lia). reflexivity. }
    rewrite Hc'. clear Hc' c'.
    assert (Hr1 : reliables c1 !! id = Some (countAttempt r)).
    { subst c1. unfold updReliable. cbn. rewrite list_lookup_alter_eq, Hr. reflexivity. }
    destruct (IH c1 (countAttempt r) Hr1) as (Hs & He & r' & Hr' & Hb' & Ha' & Hat & Hp);
      [cbn; assumption|cbn; assumption|cbn; lia|cbn; lia|].
    rewrite Hs, He. subst c1. cbn [sent emitted updReliable sendRaw set_reliables set_sent].
    rewrite Hb, <- app_assoc in *. cbn [app].
    split; [reflexivity|]. split; [reflexivity|].
    exists r'. unfold countAttempt in Hat, Hp. cbn [r_attempts r_promise] in Hat, Hp.
    repeat split; try assumption. lia.
Qed.

(** C2.  A reliable send that is never acknowledged: the datagram is
    passed to the socket once by [sendReliable] and once by each of the
    first ten ticks of its interval, eleven times in all, and the promise
    is still pending; the eleventh tick rejects it and disconnects. *)
Theorem reliable_send_eleven_datagrams ver role messages c buf :
  reliableBuffer (Z.rem (nonce c + 1) 65535) messages = Ok buf →
  let id := length (reliables c) in
  let c10 := run ver role (CallSendReliable messages :: replicate 10 (RetxTick id)) c in
  let c11 := (step ver role (RetxTick id) c10).1 in
  sent c10 = sent c ++ replicate 11 buf ∧
  promiseOf id c10 = Some Pending ∧
  emitted c10 = emitted c ∧
  promiseOf id c11 = Some Rejected ∧
  ∃ flag e, isClose e = true ∧
            sent c11 = sent c ++ replicate 11 buf ++ [[flag; 0]] ∧
            emitted c11 = emitted c ++ [e].
Proof.
  intros Hbuf id c10 c11.
  set (r0 := {| r_buf := buf; r_attempts := 0; r_armed := true; r_promise := Pending |}).
  assert (H0 : ∃ c0, (step ver role (CallSendReliable messages) c).1 = c0 ∧
                     sent c0 = sent c ++ [buf] ∧ emitted c0 = emitted c ∧
                     reliables c0 !! id = Some r0).
  { unfold step. rewrite (sendReliable_pendingAck _ _ _ Hbuf). eexists. split; [reflexivity|].
    cbn. split; [reflexivity|]. split; [reflexivity|].
    apply list_lookup_middle. reflexivity. }
  destruct H0 as (c0 & Hc0 & Hs0 & He0 & Hr0).
  destruct (retx_ticks ver role id buf 10 c0 r0 Hr0) as (Hs & He & r' & Hr' & Hb' & Ha' & Hat & Hp);
    [reflexivity|reflexivity|cbn; lia|cbn; lia|].
  assert (Hc10 : c10 = run ver role (replicate 10 (RetxTick id)) c0).
  { subst c10. rewrite run_cons, Hc0. reflexivity. }
  rewrite <- Hc10 in *. clear Hc10. clearbody c10.
  split; [rewrite Hs, Hs0, <- app_assoc; reflexivity|].
  split; [unfold promiseOf; rewrite Hr'; cbn [fmap option_fmap option_map]; rewrite Hp; reflexivity|].
  split; [congruence|].
  subst c11. unfold step.
  rewrite (retxTick_exhausted role id c10 r') by (auto; cbn in Hat; lia).
  set (c10' := updReliable id _ c10).
  destruct (disconnect_forced role c10') as (flag & e & Hclose & ->). cbn [fst].
  split.
  - unfold promiseOf, sendRaw. cbn. rewrite reliables_emit. subst c10'.
    unfold updReliable. cbn. rewrite list_lookup_alter_eq, Hr'.
    destruct r' as [b a ar p]. cbn in *. subst p. reflexivity.
  - exists flag, e. split; [exact Hclose|].
    rewrite sent_sendRaw, sent_emit. unfold sendRaw. cbn. rewrite emitted_emit.
    subst c10'. cbn. rewrite Hs, Hs0, He, He0, <- !app_assoc. split; reflexivity.
Qed.

(** C2 at [sendReliable({ tag: 1, data: empty })] on a fresh connection. *)
Lemma reliable_send_eleven_datagrams_witness :
  let messages := [{| tag := 1; data := [] |}] in
  let buf := [1; 0; 1; 0; 0; 1] in
  reliableBuffer (Z.rem (nonce init + 1) 65535) messages = Ok buf ∧
  let c10 := run 0 ServerSide (CallSendReliable messages :: replicate 10 (RetxTick 0)) init in
  let c11 := (step 0 ServerSide (RetxTick 0) c10).1 in
  sent c10 = sent init ++ replicate 11 buf ∧
  promiseOf 0 c10 = Some Pending ∧
  emitted c10 = emitted init ∧
  promiseOf 0 c11 = Some Rejected ∧
  ∃ flag e, isClose e = true ∧
            sent c11 = sent init ++ replicate 11 buf ++ [[flag; 0]] ∧
            emitted c11 = emitted init ++ [e].
Proof.
  intros messages buf. split; [reflexivity|].
  apply (reliable_send_eleven_datagrams 0 ServerSide messages init buf). reflexivity.
Defined.

(** ** Close events and pending reliable sends *)

Lemma closes_app l1 l2 : closes (l1 ++ l2) = (closes l1 + closes l2)%nat.
Proof. unfold closes. rewrite List.filter_app, length_app. reflexivity. Qed.

Lemma closes_messages ms : closes (EvMessage <$> ms) = 0%nat.
Proof. induction ms as [|m ms IH]; [reflexivity|exact IH]. Qed.

Lemma closes_one e : closes [e] = if isClose e then 1%nat else 0%nat.
Proof. unfold closes. cbn. destruct (isClose e); reflexivity. Qed.

#[local] Arguments closes : simpl never.

(** Counting [close] events in the log a step has extended. *)
Ltac close_arith :=
  unfold closeCount in *; cbn in *;
  rewrite ?closes_app, ?closes_messages, ?closes_one in *; cbn [isClose] in *;
  repeat match goal with
         | He : isClose ?e = true |- context [isClose ?e] => rewrite He
         | He : isClose ?e = true, H : context [isClose ?e] |- _ => rewrite He in H
         end;
  try lia; try done.

(** The event log only grows, and so does the number of [close] events. *)
Lemma step_closeCount ver role i c :
  (closeCount c ≤ closeCount (step ver role i c).1)%nat.
Proof.
  destruct i, role; unfold_conn; conn_cases; close_arith.
Qed.

(** The step that emits [close] while the class's own listener is still
    registered runs it: the ping interval and [pendingAck] are cleared. *)
Lemma step_first_close ver role i c :
  closeListener c = true →
  closeCount (step ver role i c).1 ≠ closeCount c →
  pendingAck (step ver role i c).1 = ∅ ∧ pingTimer (step ver role i c).1 = false
  ∧ closeListener (step ver role i c).1 = false.
Proof.
  intros Hl. destruct i, role; unfold_conn; conn_cases; intros; close_arith;
    try congruence.
Qed.

Lemma step_listener_closes ver role i c :
  (closeListener c = false → closeCount c ≠ 0%nat) →
  closeListener (step ver role i c).1 = false → closeCount (step ver role i c).1 ≠ 0%nat.
Proof.
  intros Hinv. destruct i, role; unfold_conn; conn_cases; intros; close_arith;
    try (specialize (Hinv ltac:(assumption)); lia).
Qed.

(** How one step changes the entry of a reliable send. *)
Lemma step_reliable_cases ver role i c id r :
  reliables c !! id = Some r →
  ∃ r', reliables (step ver role i c).1 !! id = Some r' ∧
        (r' = r
         ∨ (i = RetxTick id ∧ r_armed r = true ∧ r_attempts r ≠ 10 ∧ r' = countAttempt r)
         ∨ (i = RetxTick id ∧ r_armed r = true ∧ r_attempts r = 10
            ∧ r' = settle Rejected (clearRetx r))
         ∨ ((∃ k, pendingAck c !! k = Some (OnAckReliable id))
            ∧ r' = settle Resolved (clearRetx r))).
Proof.
  intros Hr.
  assert (Hlt : (id < length (reliables c))%nat) by (eapply lookup_lt_Some, Hr).
  destruct i, role; unfold_conn; conn_cases;
    repeat match goal with
           | |- context [alter ?f ?n (reliables c) !! id] =>
               destruct (decide (n = id)) as [->|];
               [rewrite list_lookup_alter_eq|rewrite list_lookup_alter_ne by assumption]
           | |- context [(reliables c ++ _) !! id] => rewrite lookup_app_l by exact Hlt
           end;
    rewrite ?Hr; cbn [fmap option_fmap option_map]; simplify_eq;
    repeat match goal with
           | H : (_ =? _) = false |- _ => apply Z.eqb_neq in H
           | H : (_ =? _) = true |- _ => apply Z.eqb_eq in H
           end;
    eexists; (split; [reflexivity|]); eauto 10.
Qed.

(** A step stores no callback for a reliable send that already exists. *)
Lemma step_no_callback ver role i c id :
  (id < length (reliables c))%nat →
  (∀ k, pendingAck c !! k ≠ Some (OnAckReliable id)) →
  ∀ k, pendingAck (step ver role i c).1 !! k ≠ Some (OnAckReliable id).
Proof.
  intros Hlt Hno k.
  destruct i, role; unfold_conn; conn_cases;
    repeat match goal with
           | |- context [<[?n := _]> _ !! k] =>
               destruct (decide (n = k)) as [->|];
               [rewrite lookup_insert_eq|rewrite lookup_insert_ne by assumption]
           | |- context [delete ?n _ !! k] =>
               destruct (decide (n = k)) as [->|];
               [rewrite lookup_delete_eq|rewrite lookup_delete_ne by assumption]
           end;
    rewrite ?lookup_empty; try done; try apply Hno.
  all: intros [= <-]; lia.
Qed.

(** An entry that a step creates is a fresh one. *)
Lemma step_reliable_new ver role i c id r' :
  reliables c !! id = None →
  reliables (step ver role i c).1 !! id = Some r' →
  r_attempts r' = 0 ∧ r_armed r' = true ∧ r_promise r' = Pending.
Proof.
  intros Hnone.
  assert (Hge : (length (reliables c) ≤ id)%nat) by (apply lookup_ge_None, Hnone).
  destruct i, role; unfold_conn; conn_cases;
    repeat match goal with
           | |- context [alter ?f ?n (reliables c) !! id] =>
               destruct (decide (n = id)) as [->|];
               [rewrite list_lookup_alter_eq|rewrite list_lookup_alter_ne by assumption]
           end;
    rewrite ?Hnone; cbn [fmap option_fmap option_map]; try done.
  all: intros Hl; apply lookup_snoc_Some in Hl as [[? ?]|[_ <-]]; [lia|done].
Qed.

Lemma step_relInv ver role i c :
  (∀ id r, reliables c !! id = Some r → relInv r) →
  ∀ id r, reliables (step ver role i c).1 !! id = Some r → relInv r.
Proof.
  intros Hinv id r' Hr'.
  destruct (reliables c !! id) as [r|] eqn:Hr.
  - destruct (Hinv id r Hr) as [Ha Hp].
    destruct (step_reliable_cases ver role i c id r Hr) as (r'' & Hr'' & Hcases).
    rewrite Hr' in Hr''. injection Hr'' as <-.
    destruct Hcases as [->|[(_ & Harm & Hne & ->)|[(_ & Harm & Heq & ->)|(_ & ->)]]].
    + split; assumption.
    + unfold relInv, countAttempt. cbn. split; [intros _; specialize (Ha Harm); lia|exact Hp].
    + unfold relInv, settle, clearRetx. cbn. split; [discriminate|].
      destruct (r_promise r); discriminate.
    + unfold relInv, settle, clearRetx. cbn. split; [discriminate|].
      destruct (r_promise r); discriminate.
  - destruct (step_reliable_new ver role i c id r' Hr Hr') as (Hat & Harm & Hp).
    split; intros _; [lia|assumption].
Qed.

Lemma reachable_relInv ver role inputs id r :
  reliables (run ver role inputs init) !! id = Some r → relInv r.
Proof.
  revert id r. induction inputs as [|i inputs IH] using rev_ind; intros id r.
  - cbn. rewrite lookup_nil. discriminate.
  - rewrite run_snoc. apply step_relInv. exact IH.
Qed.

Lemma reachable_listener ver role inputs :
  closeListener (run ver role inputs init) = false →
  closeCount (run ver role inputs init) ≠ 0%nat.
Proof.
  induction inputs as [|i inputs IH] using rev_ind; [discriminate|].
  rewrite run_snoc. apply step_listener_closes, IH.
Qed.

Lemma step_rejected ver role i c id :
  promiseOf id c = Some Rejected → promiseOf id (step ver role i c).1 = Some Rejected.
Proof.
  unfold promiseOf. destruct (reliables c !! id) as [r|] eqn:Hr; [|discriminate].
  cbn. intros [= Hp].
  destruct (step_reliable_cases ver role i c id r Hr) as (r' & -> & Hcases). cbn. f_equal.
  destruct Hcases as [->|[(_ & _ & _ & ->)|[(_ & _ & _ & ->)|(_ & ->)]]];
    unfold settle, clearRetx, countAttempt; cbn; rewrite ?Hp; reflexivity.
Qed.

Lemma run_rejected ver role inputs c id :
  promiseOf id c = Some Rejected → promiseOf id (run ver role inputs c) = Some Rejected.
Proof.
  revert c. induction inputs as [|i inputs IH]; intros c H; [exact H|].
  rewrite run_cons. apply IH, step_rejected, H.
Qed.

Lemma isTick_true id i : isTick id i = true → i = RetxTick id.
Proof.
  destruct i; try discriminate. cbn. intros H. apply Nat.eqb_eq in H. congruence.
Qed.

Lemma isTick_false id i : isTick id i = false → i ≠ RetxTick id.
Proof. intros H ->. cbn in H. rewrite Nat.eqb_refl in H. discriminate. Qed.

Lemma ticksOf_cons id i inputs :
  ticksOf id (i :: inputs) = ((if isTick id i then 1 else 0) + ticksOf id inputs)%nat.
Proof. unfold ticksOf. cbn. destruct (isTick id i); reflexivity. Qed.

(** A pending reliable send whose callback is gone is rejected by its own
    interval, at the eleventh tick at the latest. *)
Lemma pending_rejected_by_ticks ver role id post : ∀ c r,
  reliables c !! id = Some r → r_promise r = Pending → r_armed r = true →
  0 ≤ r_attempts r ≤ 10 →
  (∀ k, pendingAck c !! k ≠ Some (OnAckReliable id)) →
  (11 - r_attempts r ≤ Z.of_nat (ticksOf id post)) →
  promiseOf id (run ver role post c) = Some Rejected.
Proof.
  induction post as [|i post IH]; intros c r Hr Hp Ha Hat Hno Hticks.
  - cbn in Hticks. lia.
  - rewrite run_cons. rewrite ticksOf_cons in Hticks.
    assert (Hlt : (id < length (reliables c))%nat) by (eapply lookup_lt_Some, Hr).
    pose proof (step_no_callback ver role i c id Hlt Hno) as Hno'.
    destruct (isTick id i) eqn:Htick.
    + apply isTick_true in Htick as ->. unfold step.
      destruct (Z.eq_dec (r_attempts r) 10) as [H10|H10].
      * apply run_rejected.
        rewrite (retxTick_exhausted role id c r) by assumption.
        destruct (disconnect_forced role (updReliable id (fun r => settle Rejected (clearRetx r)) c))
          as (flag & e & _ & ->).
        unfold promiseOf, sendRaw, updReliable. cbn. rewrite reliables_emit. cbn.
        rewrite list_lookup_alter_eq, Hr. cbn. rewrite Hp. reflexivity.
      * unfold step in Hno'.
        rewrite (retxTick_resend role id c r) in * by assumption. cbn [fst] in *.
        apply (IH _ (countAttempt r));
          [unfold updReliable; cbn; rewrite list_lookup_alter_eq, Hr; reflexivity
          |assumption|assumption|cbn; lia|assumption|cbn; lia].
    + apply isTick_false in Htick.
      destruct (step_reliable_cases ver role i c id r Hr) as (r' & Hr' & Hcases).
      destruct Hcases as [->|[(Hi & _)|[(Hi & _)|((k & Hk) & _)]]];
        [|contradiction|contradiction|exfalso; exact (Hno k Hk)].
      apply (IH _ r); try assumption; lia.
Qed.

Lemma closeCount_forced ver role c reason message :
  closeCount (step ver role (CallDisconnect (Some true) reason message) c).1
  = S (closeCount c).
Proof.
  unfold step. destruct role; cbn [disconnect].
  - rewrite disconnectServer_eq. unfold closeCount, sendRaw. cbn.
    rewrite emitted_emit, closes_app, closes_one. cbn. lia.
  - unfold disconnectClient. cbn -[emit sendRaw]. rewrite disconnectBuffer_eq.
    unfold closeCount, sendRaw. cbn. rewrite emitted_emit, closes_app, closes_one. cbn. lia.
Qed.

(** The counter of an interval that is still armed has gone up by one at
    each of its firings. *)
Lemma attempts_count ver role id since : ∀ c0 r0 r,
  reliables c0 !! id = Some r0 →
  reliables (run ver role since c0) !! id = Some r →
  r_armed r = true →
  r_armed r0 = true ∧ r_attempts r = r_attempts r0 + Z.of_nat (ticksOf id since).
Proof.
  induction since as [|i since IH]; intros c0 r0 r Hr0 Hr Ha.
  - cbn in Hr. rewrite Hr0 in Hr. injection Hr as <-. cbn. split; [exact Ha|lia].
  - rewrite run_cons in Hr. rewrite ticksOf_cons.
    destruct (step_reliable_cases ver role i c0 id r0 Hr0) as (r1 & Hr1 & Hcases).
    destruct (IH _ r1 r Hr1 Hr Ha) as [Ha1 Hat].
    destruct (isTick id i) eqn:Htick.
    + apply isTick_true in Htick as ->. cbn [step] in Hr1.
      destruct (r_armed r0) eqn:Ha0.
      * destruct (Z.eq_dec (r_attempts r0) 10) as [H10|H10].
        -- rewrite (retxTick_exhausted role id c0 r0) in Hr1 by assumption.
           rewrite disconnect_forced_eq in Hr1.
           unfold sendRaw, updReliable in Hr1. cbn in Hr1.
           rewrite reliables_emit in Hr1. cbn in Hr1.
           rewrite list_lookup_alter_eq, Hr0 in Hr1. injection Hr1 as <-.
           cbn in Ha1. discriminate.
        -- rewrite (retxTick_resend role id c0 r0) in Hr1 by assumption.
           unfold updReliable in Hr1. cbn in Hr1.
           rewrite list_lookup_alter_eq, Hr0 in Hr1. injection Hr1 as <-.
           cbn in Hat. split; [reflexivity|lia].
      * unfold retxTick in Hr1. rewrite Hr0, Ha0 in Hr1. cbn in Hr1.
        rewrite Hr0 in Hr1. injection Hr1 as <-. congruence.
    + apply isTick_false in Htick.
      destruct Hcases as [->|[(Hi & _)|[(Hi & _)|(_ & ->)]]];
        [|contradiction|contradiction|cbn in Ha1; discriminate].
      split; [exact Ha1|lia].
Qed.

(** C3, amended.  At the step that emits the first [close] the
    connection's own handler runs: the ping interval is stopped,
    [pendingAck] is emptied and the handler is gone for good.  A reliable
    send, made by the event [j], that is still pending at that moment is
    rejected by its own interval, at the firing that finds ten
    retransmissions made: the firings before the close count as those
    after it.  Every later forced [disconnect] emits [close] again. *)
Theorem first_close_rejects_pending ver role before j since i post id :
  let c := run ver role (before ++ j :: since) init in
  let c' := (step ver role i c).1 in
  closeCount c = 0%nat → closeCount c' ≠ 0%nat →
  reliables (run ver role before init) !! id = None →
  reliables (run ver role (before ++ [j]) init) !! id ≠ None →
  promiseOf id c' = Some Pending →
  (10 < ticksOf id (since ++ i :: post))%nat →
  (pingTimer c' = false ∧ pendingAck c' = ∅ ∧ closeListener c' = false) ∧
  promiseOf id (run ver role post c') = Some Rejected ∧
  (∀ c0 reason message,
      closeCount (step ver role (CallDisconnect (Some true) reason message) c0).1
      = S (closeCount c0)) ∧
  (∀ inputs, closeListener (run ver role inputs c') = false).
Proof.
  intros c c' Hzero Hclosed Hnew Hmade Hpending Hticks.
  assert (Hl : closeListener c = true).
  { destruct (closeListener c) eqn:E; [reflexivity|].
    exfalso. exact (reachable_listener ver role (before ++ j :: since) E Hzero). }
  destruct (step_first_close ver role i c Hl) as (Hpa & Hpt & Hcl).
  { fold c'. rewrite Hzero. exact Hclosed. }
  fold c' in Hpa, Hpt, Hcl.
  split; [auto|]. split; [|split].
  - unfold promiseOf in Hpending.
    destruct (reliables c' !! id) as [r|] eqn:Hr; [|discriminate].
    cbn in Hpending. injection Hpending as Hp.
    assert (Hinv : relInv r).
    { apply (reachable_relInv ver role ((before ++ j :: since) ++ [i]) id).
      rewrite run_snoc. exact Hr. }
    destruct Hinv as [Hbound Harmed].
    destruct (reliables (run ver role (before ++ [j]) init) !! id) as [r0|] eqn:Hr0;
      [|contradiction].
    assert (Hfresh : r_attempts r0 = 0).
    { rewrite run_snoc in Hr0.
      apply (step_reliable_new ver role j (run ver role before init) id r0 Hnew Hr0). }
    assert (Hrun : c' = run ver role (since ++ [i]) (run ver role (before ++ [j]) init)).
    { unfold c', c. rewrite run_snoc, <- run_app. f_equal.
      rewrite <- app_assoc. reflexivity. }
    rewrite Hrun in Hr.
    destruct (attempts_count ver role id (since ++ [i]) _ r0 r Hr0 Hr (Harmed Hp))
      as [_ Hcount].
    rewrite <- Hrun in Hr.
    assert (Hsplit : ticksOf id (since ++ i :: post)
                     = (ticksOf id (since ++ [i]) + ticksOf id post)%nat).
    { unfold ticksOf. rewrite !List.filter_app, !length_app. cbn [List.filter].
      destruct (isTick id i); cbn [length app]; lia. }
    apply (pending_rejected_by_ticks ver role id post c' r Hr Hp (Harmed Hp)).
    + exact (Hbound (Harmed Hp)).
    + intros k. rewrite Hpa, lookup_empty. discriminate.
    + lia.
  - intros c0 reason message. apply closeCount_forced.
  - intros inputs. revert Hcl. generalize c'. clear.
    induction inputs as [|k inputs IH]; intros c0 H; [exact H|].
    rewrite run_cons. apply IH, step_closeListener, H.
Qed.

(** C3, amended: one reliable send, three firings of its interval, a
    forced [disconnect], eight more firings. *)
Lemma first_close_rejects_pending_witness :
  let j := CallSendReliable [{| tag := 1; data := [] |}] in
  let since := replicate 3 (RetxTick 0) in
  let i := CallDisconnect (Some true) None None in
  let post := replicate 8 (RetxTick 0) in
  let c := run 0 ServerSide (j :: since) init in
  let c' := (step 0 ServerSide i c).1 in
  closeCount c = 0%nat ∧ closeCount c' ≠ 0%nat ∧ promiseOf 0 c' = Some Pending ∧
  (10 < ticksOf 0 (since ++ i :: post))%nat ∧
  (pingTimer c' = false ∧ pendingAck c' = ∅ ∧ closeListener c' = false) ∧
  promiseOf 0 (run 0 ServerSide post c') = Some Rejected.
Proof.
  intros j since i post c c'.
  assert (H1 : closeCount c = 0%nat) by reflexivity.
  assert (H2 : closeCount c' ≠ 0%nat) by (vm_compute; discriminate).
  assert (H3 : promiseOf 0 c' = Some Pending) by reflexivity.
  assert (H4 : (10 < ticksOf 0 (since ++ i :: post))%nat) by (vm_compute; lia).
  destruct (first_close_rejects_pending 0 ServerSide [] j since i post 0%nat H1 H2
              eq_refl ltac:(vm_compute; discriminate) H3 H4)
    as (Hcleared & Hrejected & _).
  repeat split; try assumption; apply Hcleared.
Defined.

(** C3 as stated fails: two calls of [disconnect(true)] emit [close]
    twice; and a reliable send that is pending at the second [close] is
    resolved by the acknowledgement that arrives afterwards. *)
Lemma close_twice_counterexample :
  ¬ (closeCount (run 0 ServerSide
                   [CallDisconnect (Some true) None None;
                    CallDisconnect (Some true) None None] init) ≤ 1)%nat ∧
  let c := run 0 ServerSide
             [CallDisconnect (Some true) None None;
              CallSendReliable [{| tag := 1; data := [] |}];
              CallDisconnect (Some true) None None] init in
  closeCount c = 2%nat ∧ promiseOf 0 c = Some Pending ∧
  promiseOf 0 (run 0 ServerSide [Data 0 [10; 0; 1]] c) = Some Resolved.
Proof.
  split; [vm_compute; lia|]. repeat split; vm_compute; reflexivity.
Qed.

(** ** disconnect and the DISCONNECT packet *)

(** C5.  [disconnect(false, 4, "bye")] sends ten bytes that start with
    0x00 0x05 and whose record payload is [0x04, 'b', 'y', 'e', 0x00]: the
    writes without an offset all land on byte 0, and [writeString] copies
    the text over the length byte. *)
Theorem graceful_disconnect_packet ver c :
  step ver ClientSide (CallDisconnect (Some false) (Some 4) (Some (jsAscii "bye"))) c
  = (sendRaw [0; 5; 0; 4; 98; 121; 101; 0; 0; 0] c, Returned).
Proof.
  unfold step, disconnect, disconnectClient. cbn [default negb].
  assert (H : (reasonBuf ← reasonBuffer 4 (Some (jsAscii "bye")); gracefulBuffer false reasonBuf)
              = Ok [0; 5; 0; 4; 98; 121; 101; 0; 0; 0]) by (vm_compute; reflexivity).
  cbn -[reasonBuffer gracefulBuffer sendRaw mbind]. rewrite H. reflexivity.
Qed.

(** C6.  [disconnect] with [forced] false or absent and a reason returns
    after sending the packet: no event is emitted. *)
Theorem graceful_disconnect_no_close ver reason message c :
  emitted (step ver ClientSide (CallDisconnect (Some false) (Some reason) message) c).1
  = emitted c ∧
  emitted (step ver ClientSide (CallDisconnect None (Some reason) message) c).1
  = emitted c ∧
  emitted (step ver ClientSide (CallDisconnect (Some false) (Some 4) (Some (jsAscii "bye"))) c).1
  = emitted c.
Proof.
  unfold step, disconnect, disconnectClient.
  cbn -[reasonBuffer gracefulBuffer sendRaw mbind].
  repeat split;
    match goal with
    | |- context [match ?x with _ => _ end] => destruct x; reflexivity
    end.
Qed.

(** C10.  A DISCONNECT of two, three or four bytes makes
    [readHazelMessage(2)] read past the end of the datagram, and one whose
    reason record is empty makes [message.readByte()] do so: the handler
    throws a [RangeError], nothing is emitted and the state is unchanged. *)
Theorem short_disconnect_throws ver now flag a b t c :
  step ver ClientSide (Data now [PacketType.DISCONNECT; flag]) c = (c, Thrown RangeError) ∧
  step ver ClientSide (Data now [PacketType.DISCONNECT; flag; a]) c = (c, Thrown RangeError) ∧
  step ver ClientSide (Data now [PacketType.DISCONNECT; flag; a; b]) c
  = (c, Thrown RangeError) ∧
  step ver ClientSide (Data now [PacketType.DISCONNECT; flag; 0; 0; t]) c
  = (c, Thrown RangeError).
Proof. repeat split; reflexivity. Qed.

(** * Further properties *)

(** ** Buffers: writes in terms of [splice] *)

Lemma splice_length buf pos bytes :
  0 ≤ pos → pos + Z.of_nat (length bytes) ≤ Z.of_nat (length buf) →
  length (splice buf pos bytes) = length buf.
Proof.
  intros Hp Hr. unfold splice. rewrite !length_app, length_take, length_drop. lia.
Qed.

Lemma splice_app buf pos b1 b2 :
  0 ≤ pos → pos + Z.of_nat (length b1) ≤ Z.of_nat (length buf) →
  splice (splice buf pos b1) (pos + Z.of_nat (length b1)) b2 = splice buf pos (b1 ++ b2).
Proof.
  intros Hp Hr. unfold splice.
  replace (Z.to_nat (pos + Z.of_nat (length b1))) with (Z.to_nat pos + length b1)%nat by lia.
  rewrite (app_assoc (take _ buf) b1).
  rewrite take_app_length' by (rewrite length_app, length_take; lia).
  rewrite drop_app_ge by (rewrite length_app, length_take; lia).
  rewrite length_app, length_take, drop_drop, length_app, <- !app_assoc.
  do 4 f_equal. lia.
Qed.

Lemma writeUInt16BE_ok v pos buf :
  0 ≤ v ≤ 65535 → 0 ≤ pos → pos + 2 ≤ Z.of_nat (length buf) →
  Buffer.writeUInt16BE v pos buf
  = Ok (splice buf pos [Z.shiftr v 8; Z.land v 255], pos + 2).
Proof.
  intros Hv Hp Hr. unfold Buffer.writeUInt16BE, Buffer.inBounds.
  destruct (Z.ltb_spec v 0); [lia|]. destruct (Z.ltb_spec 65535 v); [lia|].
  destruct (Z.leb_spec 0 pos); [|lia].
  destruct (Z.ltb_spec pos (Z.of_nat (length buf))); [|lia].
  destruct (Z.leb_spec 0 (pos + 1)); [|lia].
  destruct (Z.ltb_spec (pos + 1) (Z.of_nat (length buf))); [|lia].
  cbn [orb andb]. do 2 f_equal.
  rewrite splice_insert by (rewrite length_insert; lia).
  apply splice_cons. lia.
Qed.

Lemma writeUInt16BE_oob v pos buf :
  Z.of_nat (length buf) < pos + 2 → Buffer.writeUInt16BE v pos buf = Throw RangeError.
Proof.
  intros Hr. unfold Buffer.writeUInt16BE, Buffer.inBounds.
  destruct (_ || _); [reflexivity|].
  destruct (Z.ltb_spec (pos + 1) (Z.of_nat (length buf))); [lia|].
  rewrite !andb_false_r. reflexivity.
Qed.

Lemma uint16_split v :
  0 ≤ v ≤ 65535 →
  isByte (Z.shiftr v 8) ∧ isByte (Z.land v 255) ∧ Z.shiftr v 8 * 2 ^ 8 + Z.land v 255 = v.
Proof.
  intros Hv. rewrite Z.shiftr_div_pow2 by lia.
  change 255 with (Z.ones 8). rewrite Z.land_ones by lia. unfold isByte.
  change (2 ^ 8) with 256. repeat split; Z.div_mod_to_equations; lia.
Qed.

Lemma copy_general src target ts :
  0 ≤ ts ≤ Z.of_nat (length target) →
  Buffer.copy src target ts
  = Ok (take (length target) (splice target ts src),
        Z.min (Z.of_nat (length src)) (Z.of_nat (length target) - ts)).
Proof.
  intros Hts. unfold Buffer.copy, splice.
  destruct (Z.ltb_spec ts 0); [lia|].
  destruct (Z.leb_spec (Z.of_nat (length target)) ts).
  - assert (ts = Z.of_nat (length target)) as -> by lia.
    rewrite Nat2Z.id, firstn_all, take_app_length, Z.sub_diag.
    f_equal. f_equal. lia.
  - f_equal. f_equal.
    remember (Z.min _ _) as nb eqn:Hnb.
    rewrite take_app_ge by (rewrite length_take; lia).
    f_equal. rewrite length_take.
    replace (length target - Z.to_nat ts `min` length target)%nat
      with (Z.to_nat (Z.of_nat (length target) - ts)) by lia.
    destruct (Z.le_ge_cases (Z.of_nat (length src)) (Z.of_nat (length target) - ts)).
    + rewrite take_app_ge by lia.
      assert (nb = Z.of_nat (length src)) as -> by lia.
      rewrite Nat2Z.id, firstn_all. f_equal.
      rewrite take_ge by (rewrite length_drop; lia). f_equal. lia.
    + rewrite take_app_le by lia.
      assert (nb = Z.of_nat (length target) - ts) as -> by lia.
      rewrite (drop_ge target) by lia. rewrite app_nil_r. reflexivity.
Qed.

Lemma copy_fits src target ts :
  0 ≤ ts → ts + Z.of_nat (length src) ≤ Z.of_nat (length target) →
  Buffer.copy src target ts = Ok (splice target ts src, Z.of_nat (length src)).
Proof.
  intros Hts Hr. rewrite copy_general by lia.
  rewrite take_ge by (rewrite splice_length; lia). f_equal. f_equal. lia.
Qed.

Lemma readUInt16BE_middle pre hi lo post :
  Buffer.readUInt16BE (pre ++ hi :: lo :: post) (Z.of_nat (length pre)) = Ok (hi * 2 ^ 8 + lo).
Proof.
  unfold Buffer.readUInt16BE. rewrite readUInt8_middle. cbn [mbind result_bind rbind].
  replace (Z.of_nat (length pre) + 1) with (Z.of_nat (length (pre ++ [hi])))
    by (rewrite length_app; cbn; lia).
  rewrite (cons_middle hi), app_assoc, readUInt8_middle. reflexivity.
Qed.

Lemma slice_middle pre mid post (a b : Z) :
  a = Z.of_nat (length pre) → b = a + Z.of_nat (length mid) →
  Buffer.slice (pre ++ mid ++ post) a b = mid.
Proof.
  intros -> ->. unfold Buffer.slice. rewrite Nat2Z.id, drop_app_length.
  replace (Z.to_nat _) with (length mid) by lia. apply take_app_length.
Qed.

Lemma readUInt8_app pre l k :
  0 ≤ k → Buffer.readUInt8 (pre ++ l) (Z.of_nat (length pre) + k) = Buffer.readUInt8 l k.
Proof.
  intros Hk. unfold Buffer.readUInt8.
  destruct (Z.leb_spec 0 (Z.of_nat (length pre) + k)); [|lia].
  destruct (Z.leb_spec 0 k); [|lia].
  replace (Z.to_nat (Z.of_nat (length pre) + k)) with (length pre + Z.to_nat k)%nat by lia.
  rewrite lookup_app_r by lia.
  replace (length pre + Z.to_nat k - length pre)%nat with (Z.to_nat k) by lia. reflexivity.
Qed.

Lemma slice_app pre l a n :
  0 ≤ a →
  Buffer.slice (pre ++ l) (Z.of_nat (length pre) + a) (Z.of_nat (length pre) + a + n)
  = Buffer.slice l a (a + n).
Proof.
  intros Ha. unfold Buffer.slice.
  replace (Z.of_nat (length pre) + a + n - (Z.of_nat (length pre) + a)) with (a + n - a) by lia.
  replace (Z.to_nat (Z.of_nat (length pre) + a)) with (length pre + Z.to_nat a)%nat by lia.
  rewrite <- drop_drop, drop_app_length. reflexivity.
Qed.

(** ** Message records *)

(** A record is read back from its three header bytes and as much of
    the declared payload as the buffer holds. *)
Lemma readHazelMessage_at pre hi lo t rest :
  HazelBuffer.readHazelMessage (pre ++ hi :: lo :: t :: rest) (Some (Z.of_nat (length pre)))
  = Ok {| tag := t; data := take (Z.to_nat (hi * 2 ^ 8 + lo)) rest |}.
Proof.
  unfold HazelBuffer.readHazelMessage.
  change (HazelBuffer.orZero (Some ?o)) with o.
  rewrite readUInt16BE_middle. cbn [mbind result_bind rbind].
  rewrite readUInt8_app by lia.
  change (Buffer.readUInt8 (hi :: lo :: t :: rest) 2) with (Ok (A:=Z) t).
  cbn [mbind result_bind rbind]. do 2 f_equal.
  rewrite slice_app by lia. unfold Buffer.slice.
  change (Z.to_nat 3) with 3%nat. cbn [drop]. f_equal. lia.
Qed.

Lemma recordHeader_decodes m :
  wfMessage m →
  ∃ hi lo, recordHeader m = [hi; lo; tag m] ∧ isByte hi ∧ isByte lo ∧
           hi * 2 ^ 8 + lo = Z.of_nat (length (data m)).
Proof.
  intros [_ Hlen]. destruct (uint16_split (Z.of_nat (length (data m)))) as (H1 & H2 & H3); [lia|].
  eexists _, _. split; [reflexivity|]. auto.
Qed.

Lemma writeHazelMessage_header m offset buf :
  wfMessage m → 0 ≤ offset → offset + 3 ≤ Z.of_nat (length buf) →
  HazelBuffer.writeHazelMessage m (Some offset) buf
  = Ok (take (length buf) (splice buf offset (recordHeader m ++ data m)),
        3 + Z.of_nat (length (data m))).
Proof.
  intros [Ht Hlen] Ho Hr. unfold HazelBuffer.writeHazelMessage.
  change (HazelBuffer.orZero (Some offset)) with offset.
  rewrite writeUInt16BE_ok by lia. cbn [mbind result_bind rbind].
  rewrite writeUInt8_ok by (rewrite ?splice_length; cbn [length]; lia).
  cbn [mbind result_bind rbind].
  rewrite splice_insert by (rewrite splice_length; cbn [length]; lia).
  rewrite (splice_app buf offset [_; _] [tag m]) by (cbn [length]; lia).
  change ([?a; ?b] ++ [?c]) with [a; b; c]. fold (recordHeader m).
  assert (Hh : length (recordHeader m) = 3%nat) by reflexivity.
  rewrite copy_general by (rewrite splice_length; rewrite ?Hh; lia).
  cbn [mbind result_bind rbind].
  rewrite splice_length by (rewrite ?Hh; lia).
  change 3 with (Z.of_nat (length (recordHeader m))) at 1.
  rewrite (splice_app buf offset (recordHeader m) (data m)) by (rewrite ?Hh; lia).
  reflexivity.
Qed.

Lemma recordLength m :
  Z.of_nat (length (recordHeader m ++ data m)) = 3 + Z.of_nat (length (data m)).
Proof. rewrite length_app. change (length (recordHeader m)) with 3%nat. lia. Qed.

Lemma writeHazelMessage_fits m offset buf :
  wfMessage m → 0 ≤ offset →
  offset + 3 + Z.of_nat (length (data m)) ≤ Z.of_nat (length buf) →
  HazelBuffer.writeHazelMessage m (Some offset) buf
  = Ok (splice buf offset (recordHeader m ++ data m), 3 + Z.of_nat (length (data m))).
Proof.
  intros Hwf Ho Hr. pose proof (recordLength m) as Hlen.
  rewrite writeHazelMessage_header by (auto; lia).
  rewrite take_ge by (rewrite splice_length; lia). reflexivity.
Qed.

(** X1.  A message record written into a buffer with room for it is
    read back unchanged: the three header bytes and the payload replace
    the bytes from [offset] on, the buffer keeps its length, and
    [writeHazelMessage] returns the size of the record. *)
Theorem hazelMessage_roundtrip m offset buf :
  wfMessage m → 0 ≤ offset →
  offset + 3 + Z.of_nat (length (data m)) ≤ Z.of_nat (length buf) →
  ∃ buf',
    HazelBuffer.writeHazelMessage m (Some offset) buf
    = Ok (buf', 3 + Z.of_nat (length (data m))) ∧
    buf' = splice buf offset (recordHeader m ++ data m) ∧
    length buf' = length buf ∧
    HazelBuffer.readHazelMessage buf' (Some offset) = Ok m.
Proof.
  intros Hwf Ho Hr. pose proof (recordLength m) as Hlen.
  exists (splice buf offset (recordHeader m ++ data m)).
  split; [|split; [reflexivity|split]].
  - apply writeHazelMessage_fits; auto.
  - apply splice_length; lia.
  - destruct (splice_shape buf offset (recordHeader m ++ data m)) as (pre & post & -> & <-);
      [lia|lia|].
    destruct (recordHeader_decodes m Hwf) as (hi & lo & -> & _ & _ & Hv).
    cbn [app]. rewrite readHazelMessage_at, Hv, Nat2Z.id, take_app_length.
    destruct m; reflexivity.
Qed.

(** A message with tag 7 and three bytes of payload, written at offset 2 of a nine-byte buffer. *)
Lemma hazelMessage_roundtrip_witness :
  let m := {| tag := 7; data := [1; 2; 3] |} in
  wfMessage m ∧
  ∃ buf',
    HazelBuffer.writeHazelMessage m (Some 2) (Buffer.alloc 9) = Ok (buf', 6) ∧
    buf' = [0; 0; 0; 3; 7; 1; 2; 3; 0] ∧
    HazelBuffer.readHazelMessage buf' (Some 2) = Ok m.
Proof.
  intros m.
  assert (Hwf : wfMessage m) by (unfold wfMessage; cbn; lia).
  split; [exact Hwf|].
  destruct (hazelMessage_roundtrip m 2 (Buffer.alloc 9) Hwf ltac:(lia)
              ltac:(vm_compute; discriminate))
    as (buf' & Hw & Hb & _ & Hread).
  exists buf'. split; [exact Hw|]. split; [exact Hb|exact Hread].
Defined.

(** X2.  Without room for the three header bytes [writeHazelMessage]
    throws a [RangeError].  With room for the header but not for the whole
    payload it succeeds: the payload is cut at the end of the buffer, the
    header still declares the full length and the full size is returned;
    reading the record back yields the shortened payload. *)
Theorem writeHazelMessage_truncates m offset buf :
  wfMessage m → 0 ≤ offset →
  (Z.of_nat (length buf) < offset + 3 →
   HazelBuffer.writeHazelMessage m (Some offset) buf = Throw RangeError) ∧
  (offset + 3 ≤ Z.of_nat (length buf) < offset + 3 + Z.of_nat (length (data m)) →
   let fit := take (Z.to_nat (Z.of_nat (length buf) - offset - 3)) (data m) in
   let buf' := take (Z.to_nat offset) buf ++ recordHeader m ++ fit in
   HazelBuffer.writeHazelMessage m (Some offset) buf
   = Ok (buf', 3 + Z.of_nat (length (data m))) ∧
   length buf' = length buf ∧
   HazelBuffer.readHazelMessage buf' (Some offset) = Ok {| tag := tag m; data := fit |}).
Proof.
  intros Hwf Ho. split.
  - intros Hr. unfold HazelBuffer.writeHazelMessage.
    change (HazelBuffer.orZero (Some offset)) with offset.
    destruct (Z.lt_ge_cases (Z.of_nat (length buf)) (offset + 2)).
    + rewrite writeUInt16BE_oob by lia. reflexivity.
    + destruct Hwf as [_ Hlen]. rewrite writeUInt16BE_ok by lia.
      cbn [mbind result_bind rbind].
      rewrite writeUInt8_oob by (rewrite splice_length; cbn [length]; lia). reflexivity.
  - intros Hr fit buf'.
    assert (Hfit : length fit = Z.to_nat (Z.of_nat (length buf) - offset - 3)).
    { unfold fit. rewrite length_take. lia. }
    assert (Hb : take (length buf) (splice buf offset (recordHeader m ++ data m)) = buf').
    { unfold splice, buf'. rewrite (drop_ge buf) by (rewrite length_app; cbn; lia).
      rewrite app_nil_r, take_app_ge by (rewrite length_take; lia).
      f_equal. rewrite length_take, take_app_ge by (cbn; lia).
      f_equal. unfold fit. f_equal. cbn. lia. }
    split; [|split].
    + rewrite writeHazelMessage_header by (auto; lia). rewrite Hb. reflexivity.
    + unfold buf'. rewrite !length_app, length_take, Hfit. cbn. lia.
    + unfold buf'. destruct (recordHeader_decodes m Hwf) as (hi & lo & -> & _ & _ & Hv).
      cbn [app].
      replace offset with (Z.of_nat (length (take (Z.to_nat offset) buf))) at 2
        by (rewrite length_take; lia).
      rewrite readHazelMessage_at, Hv, Nat2Z.id. do 2 f_equal.
      apply take_ge. lia.
Qed.

(** The same message written into a buffer of two bytes and into one of four. *)
Lemma writeHazelMessage_truncates_witness :
  let m := {| tag := 7; data := [1; 2; 3] |} in
  wfMessage m ∧
  HazelBuffer.writeHazelMessage m (Some 0) (Buffer.alloc 2) = Throw RangeError ∧
  HazelBuffer.writeHazelMessage m (Some 0) (Buffer.alloc 4) = Ok ([0; 3; 7; 1], 6) ∧
  HazelBuffer.readHazelMessage [0; 3; 7; 1] (Some 0) = Ok {| tag := 7; data := [1] |}.
Proof.
  intros m.
  assert (Hwf : wfMessage m) by (unfold wfMessage; cbn; lia).
  split; [exact Hwf|].
  split.
  - apply (writeHazelMessage_truncates m 0 (Buffer.alloc 2) Hwf ltac:(lia)). reflexivity.
  - destruct (writeHazelMessage_truncates m 0 (Buffer.alloc 4) Hwf ltac:(lia)) as [_ H].
    destruct (H ltac:(split; [vm_compute; discriminate|reflexivity])) as (Hw & _ & Hread).
    split; [exact Hw|exact Hread].
Defined.

(** X3.  [writeUInt16] stores a 16-bit value big-endian, high byte
    first, and [readUInt16] at the same offset returns it. *)
Theorem uint16_roundtrip v offset buf :
  0 ≤ v ≤ 65535 → 0 ≤ offset → offset + 2 ≤ Z.of_nat (length buf) →
  ∃ buf',
    HazelBuffer.writeUInt16 v (Some offset) buf = Ok (buf', offset + 2) ∧
    buf' = splice buf offset [v / 256; v mod 256] ∧
    HazelBuffer.readUInt16 buf' (Some offset) = Ok v.
Proof.
  intros Hv Ho Hr. exists (splice buf offset [v / 256; v mod 256]).
  unfold HazelBuffer.writeUInt16, HazelBuffer.readUInt16.
  change (HazelBuffer.orZero (Some offset)) with offset.
  assert (E1 : Z.shiftr v 8 = v / 256) by (rewrite Z.shiftr_div_pow2 by lia; reflexivity).
  assert (E2 : Z.land v 255 = v mod 256)
    by (change 255 with (Z.ones 8); rewrite Z.land_ones by lia; reflexivity).
  split; [|split; [reflexivity|]].
  - rewrite writeUInt16BE_ok by lia. rewrite E1, E2. reflexivity.
  - destruct (splice_shape buf offset [v / 256; v mod 256]) as (pre & post & -> & <-);
      [lia|cbn [length]; lia|].
    cbn [app]. rewrite readUInt16BE_middle. f_equal.
    change (2 ^ 8) with 256. Z.div_mod_to_equations. lia.
Qed.

(** The value 513 at offset 1 of a four-byte buffer: the bytes 2 and 1. *)
Lemma uint16_roundtrip_witness :
  ∃ buf',
    HazelBuffer.writeUInt16 513 (Some 1) (Buffer.alloc 4) = Ok (buf', 3) ∧
    buf' = [0; 2; 1; 0] ∧
    HazelBuffer.readUInt16 buf' (Some 1) = Ok 513.
Proof.
  destruct (uint16_roundtrip 513 1 (Buffer.alloc 4) ltac:(lia) ltac:(lia)
              ltac:(vm_compute; discriminate))
    as (buf' & Hw & Hb & Hread).
  exists buf'. split; [exact Hw|]. split; [exact Hb|exact Hread].
Defined.

(** ** Packed integers: the signed variant and strings *)

Lemma writePackedUInt32_small n offset buf :
  0 ≤ n < 2 ^ 28 → 0 ≤ offset →
  offset + HazelBuffer.getPackedUInt32Size n ≤ Z.of_nat (length buf) →
  HazelBuffer.writePackedUInt32 n (Some offset) buf
  = Ok (splice buf offset (packedBytes 5 n), HazelBuffer.getPackedUInt32Size n - 1).
Proof.
  intros Hn Ho Hr. rewrite getPackedUInt32Size_length in * by lia.
  assert (Hu : JS.toUint32 n = n) by (apply toUint32_small; lia).
  unfold HazelBuffer.writePackedUInt32, HazelBuffer.writePackedFuel.
  change (HazelBuffer.orZero (Some offset)) with offset.
  rewrite writePackedLoop_spec; rewrite ?Hu, ?Z.add_0_r; try lia.
  rewrite Z.add_0_l. reflexivity.
Qed.

Lemma readPackedUInt32_small n pre post :
  0 ≤ n < 2 ^ 28 →
  HazelBuffer.readPackedUInt32 (pre ++ packedBytes 5 n ++ post) (Some (Z.of_nat (length pre)))
  = Ok n.
Proof.
  intros Hn. unfold HazelBuffer.readPackedUInt32, HazelBuffer.readPackedFuel.
  change (HazelBuffer.orZero (Some ?o)) with o.
  rewrite (packedBytes_more 3 4) by (change (2 ^ (7 * Z.of_nat 4)) with (2 ^ 28); lia).
  rewrite readPackedLoop_spec; [rewrite Z.mul_1_r; reflexivity|lia| |lia|lia].
  change (2 ^ (7 * Z.of_nat 4)) with (2 ^ 28). lia.
Qed.

Lemma zigzag_range int :
  - 2 ^ 27 ≤ int < 2 ^ 27 → 0 ≤ Signed.zigzag int < 2 ^ 28.
Proof. unfold Signed.zigzag. destruct (Z.leb_spec 0 int); lia. Qed.

Lemma band_1 res : 0 ≤ res < 2 ^ 31 → JS.band res 1 = res mod 2.
Proof.
  intros H. unfold JS.band. rewrite !toInt32_small by lia.
  change 1 with (Z.ones 1). rewrite Z.land_ones by lia. reflexivity.
Qed.

Lemma unzigzag int :
  - 2 ^ 27 ≤ int < 2 ^ 27 →
  (if negb (JS.band (Signed.zigzag int) 1 =? 0)
   then (Signed.zigzag int + 1) / -2 else Signed.zigzag int / 2) = int.
Proof.
  intros H. pose proof (zigzag_range int H) as Hz.
  rewrite band_1 by lia. unfold Signed.zigzag in *.
  destruct (Z.leb_spec 0 int).
  - replace ((int * 2) mod 2) with 0 by (symmetry; apply Z.mod_mul; lia).
    cbn [Z.eqb negb]. apply Z.div_mul. lia.
  - replace ((int * -2 - 1) mod 2) with 1.
    2:{ replace (int * -2 - 1) with (1 + (- int - 1) * 2) by lia.
        rewrite Z.mod_add by lia. reflexivity. }
    cbn [Z.eqb negb]. replace (int * -2 - 1 + 1) with (int * -2) by lia.
    apply Z.div_mul. lia.
Qed.

(** X4.  A signed integer from -2^27 up to 2^27 - 1 survives
    [writePackedInt32] followed by [readPackedInt32]; the writer returns
    one less than the number of bytes, which [getPackedInt32Size] gives. *)
Theorem packedInt32_roundtrip int offset buf :
  - 2 ^ 27 ≤ int < 2 ^ 27 → 0 ≤ offset →
  offset + Signed.getPackedInt32Size int ≤ Z.of_nat (length buf) →
  ∃ buf',
    Signed.writePackedInt32 int (Some offset) buf
    = Ok (buf', Signed.getPackedInt32Size int - 1) ∧
    length buf' = length buf ∧
    1 ≤ Signed.getPackedInt32Size int ≤ 4 ∧
    Signed.readPackedInt32 buf' (Some offset) = Ok int.
Proof.
  intros Hi Ho Hr. pose proof (zigzag_range int Hi) as Hz.
  unfold Signed.getPackedInt32Size, Signed.writePackedInt32, Signed.readPackedInt32 in *.
  exists (splice buf offset (packedBytes 5 (Signed.zigzag int))).
  assert (Hlen : HazelBuffer.getPackedUInt32Size (Signed.zigzag int)
                 = Z.of_nat (length (packedBytes 5 (Signed.zigzag int))))
    by (apply getPackedUInt32Size_length; lia).
  split; [|split; [|split]].
  - apply writePackedUInt32_small; lia.
  - apply splice_length; lia.
  - rewrite getPackedUInt32Size_cases. repeat destruct (_ <? _); lia.
  - destruct (splice_shape buf offset (packedBytes 5 (Signed.zigzag int)))
      as (pre & post & -> & <-); [lia|lia|].
    rewrite readPackedUInt32_small by lia. cbn [mbind result_bind rbind].
    f_equal. apply unzigzag. lia.
Qed.

(** The integer -300, written at offset 1 of a four-byte buffer, takes two bytes. *)
Lemma packedInt32_roundtrip_witness :
  ∃ buf',
    Signed.writePackedInt32 (-300) (Some 1) (Buffer.alloc 4) = Ok (buf', 1) ∧
    Signed.readPackedInt32 buf' (Some 1) = Ok (-300).
Proof.
  destruct (packedInt32_roundtrip (-300) 1 (Buffer.alloc 4)
              ltac:(lia) ltac:(lia) ltac:(vm_compute; discriminate))
    as (buf' & Hw & _ & _ & Hread).
  exists buf'. split; [exact Hw|exact Hread].
Defined.

(** X5.  Outside that range a 32-bit integer is written in five
    bytes, although [getPackedInt32Size] says four, and [readPackedInt32]
    throws a [RangeError] on them. *)
Theorem packedInt32_out_of_range int offset buf :
  2 ^ 27 ≤ int < 2 ^ 31 ∨ - 2 ^ 31 ≤ int < - 2 ^ 27 →
  0 ≤ offset → offset + 5 ≤ Z.of_nat (length buf) →
  ∃ buf',
    Signed.writePackedInt32 int (Some offset) buf = Ok (buf', 4) ∧
    Signed.getPackedInt32Size int = 4 ∧
    Signed.readPackedInt32 buf' (Some offset) = Throw RangeError.
Proof.
  intros Hi Ho Hr.
  assert (Hz : 2 ^ 28 ≤ Signed.zigzag int < 2 ^ 32).
  { unfold Signed.zigzag. destruct (Z.leb_spec 0 int); lia. }
  unfold Signed.getPackedInt32Size, Signed.writePackedInt32, Signed.readPackedInt32.
  set (z := Signed.zigzag int) in *.
  assert (Hu : JS.toUint32 z = z) by (apply toUint32_small; lia).
  assert (Hl : length (packedBytes 5 z) = 5%nat).
  { apply (packedBytes_length_exact 4 4); [lia| |right].
    - change (2 ^ (7 * Z.of_nat 5)) with (2 ^ 35). lia.
    - change (2 ^ (7 * Z.of_nat 4)) with (2 ^ 28). lia. }
  exists (splice buf offset (packedBytes 5 z)). split; [|split].
  - unfold HazelBuffer.writePackedUInt32, HazelBuffer.writePackedFuel.
    change (HazelBuffer.orZero (Some offset)) with offset.
    rewrite writePackedLoop_spec; rewrite ?Hu, ?Hl, ?Z.add_0_r; try lia.
    reflexivity.
  - rewrite getPackedUInt32Size_cases.
    destruct (Z.ltb_spec z (2 ^ 7)); [lia|]. destruct (Z.ltb_spec z (2 ^ 14)); [lia|].
    destruct (Z.ltb_spec z (2 ^ 21)); [lia|reflexivity].
  - destruct (splice_shape buf offset (packedBytes 5 z)) as (pre & post & -> & <-);
      [lia|lia|].
    unfold HazelBuffer.readPackedUInt32, HazelBuffer.readPackedFuel.
    change (HazelBuffer.orZero (Some ?o)) with o.
    rewrite (readPackedLoop_overflow 4); [reflexivity|lia|lia| |lia|lia].
    change (2 ^ (7 * Z.of_nat 4)) with (2 ^ 28). lia.
Qed.

(** The integer 2^27 in a buffer of five bytes. *)
Lemma packedInt32_out_of_range_witness :
  ∃ buf',
    Signed.writePackedInt32 (2 ^ 27) (Some 0) (Buffer.alloc 5) = Ok (buf', 4) ∧
    Signed.getPackedInt32Size (2 ^ 27) = 4 ∧
    Signed.readPackedInt32 buf' (Some 0) = Throw RangeError.
Proof.
  apply (packedInt32_out_of_range (2 ^ 27) 0 (Buffer.alloc 5)).
  - left. lia.
  - lia.
  - vm_compute. discriminate.
Defined.

Lemma splice_overwrite buf pos b1 b2 :
  0 ≤ pos → pos + Z.of_nat (length b1) ≤ Z.of_nat (length buf) →
  (length b1 ≤ length b2)%nat →
  splice (splice buf pos b1) pos b2 = splice buf pos b2.
Proof.
  intros Hp Hr Hl. unfold splice.
  rewrite take_app_length' by (rewrite length_take; lia).
  f_equal. f_equal.
  rewrite drop_app_ge by (rewrite length_take; lia).
  rewrite drop_app_ge by (rewrite length_take; lia).
  rewrite drop_drop, length_take. f_equal. lia.
Qed.

(** ** Strings: the UTF-8 decoder *)

Lemma between_spec lo b hi : Utf8.between lo b hi = true ↔ lo ≤ b ≤ hi.
Proof. unfold Utf8.between. rewrite andb_true_iff, !Z.leb_le. tauto. Qed.

Lemma between_false lo b hi : Utf8.between lo b hi = false ↔ ¬ lo ≤ b ≤ hi.
Proof. rewrite <- between_spec. destruct (Utf8.between lo b hi); intuition congruence. Qed.

Ltac utf8_bools :=
  repeat match goal with
         | H : _ && _ = true |- _ => apply andb_true_iff in H as [? ?]
         | H : Utf8.between _ _ _ = true |- _ => apply between_spec in H
         | H : Utf8.between _ _ _ = false |- _ => apply between_false in H
         end.

Lemma lead_1 b : 0 ≤ b ≤ 127 → Utf8.lead b = ([b], Utf8.start).
Proof. intros H. unfold Utf8.lead. destruct (Z.leb_spec b 127); [reflexivity|lia]. Qed.

Lemma lead_2 b :
  194 ≤ b ≤ 223 →
  Utf8.lead b = ([], {| Utf8.seen := [b]; Utf8.needed := 1;
                        Utf8.lower := 128; Utf8.upper := 191 |}).
Proof.
  intros H. unfold Utf8.lead. destruct (Z.leb_spec b 127); [lia|].
  destruct (Z.leb_spec 194 b); [|lia]. destruct (Z.leb_spec b 223); [reflexivity|lia].
Qed.

Lemma lead_3 b :
  224 ≤ b ≤ 239 →
  Utf8.lead b = ([], {| Utf8.seen := [b]; Utf8.needed := 2;
                        Utf8.lower := if b =? 224 then 160 else 128;
                        Utf8.upper := if b =? 237 then 159 else 191 |}).
Proof.
  intros H. unfold Utf8.lead. destruct (Z.leb_spec b 127); [lia|].
  destruct (Z.leb_spec 194 b); [|lia]. destruct (Z.leb_spec b 223); [lia|].
  destruct (Z.leb_spec 224 b); [|lia]. destruct (Z.leb_spec b 239); [reflexivity|lia].
Qed.

Lemma lead_4 b :
  240 ≤ b ≤ 244 →
  Utf8.lead b = ([], {| Utf8.seen := [b]; Utf8.needed := 3;
                        Utf8.lower := if b =? 240 then 144 else 128;
                        Utf8.upper := if b =? 244 then 143 else 191 |}).
Proof.
  intros H. unfold Utf8.lead. destruct (Z.leb_spec b 127); [lia|].
  destruct (Z.leb_spec 194 b); [|lia]. destruct (Z.leb_spec b 223); [lia|].
  destruct (Z.leb_spec 224 b); [|lia]. destruct (Z.leb_spec b 239); [lia|].
  destruct (Z.leb_spec 240 b); [|lia]. destruct (Z.leb_spec b 244); [reflexivity|lia].
Qed.

(** A continuation byte within the bounds: the last one completes the
    sequence, which is handed on as it is. *)
Lemma feed_continuation sn n lo hi b :
  0 < n → lo ≤ b ≤ hi →
  Utf8.feed b {| Utf8.seen := sn; Utf8.needed := n; Utf8.lower := lo; Utf8.upper := hi |}
  = if n =? 1 then (sn ++ [b], Utf8.start)
    else ([], {| Utf8.seen := sn ++ [b]; Utf8.needed := n - 1;
                 Utf8.lower := 128; Utf8.upper := 191 |}).
Proof.
  intros Hn Hb. unfold Utf8.feed. cbn [Utf8.needed Utf8.lower Utf8.upper Utf8.seen].
  destruct (Z.eqb_spec n 0); [lia|].
  destruct (Z.ltb_spec b lo); [lia|]. destruct (Z.ltb_spec hi b); [lia|]. reflexivity.
Qed.

Lemma decode_cons b rest s :
  Utf8.decode (b :: rest) s = (Utf8.feed b s).1 ++ Utf8.decode rest (Utf8.feed b s).2.
Proof. reflexivity. Qed.

Lemma feed_start b : Utf8.feed b Utf8.start = Utf8.lead b.
Proof. reflexivity. Qed.

Lemma decode_wellFormed n : ∀ bytes, (length bytes ≤ n)%nat →
  Utf8.wellFormed bytes = true → Utf8.decode bytes Utf8.start = bytes.
Proof.
  induction n as [|n IH]; intros bytes Hlen Hwf.
  - destruct bytes; [reflexivity|cbn in Hlen; lia].
  - destruct bytes as [|b1 rest1]; [reflexivity|]. cbn [length] in Hlen.
    cbn [Utf8.wellFormed] in Hwf. rewrite decode_cons, feed_start.
    destruct (Utf8.between 0 b1 127) eqn:H1.
    { utf8_bools. rewrite lead_1 by assumption. cbn [fst snd app].
      f_equal. apply IH; [lia|assumption]. }
    destruct rest1 as [|b2 rest2]; [discriminate|]. cbn [length] in Hlen.
    destruct (Utf8.between 194 b1 223) eqn:H2.
    { utf8_bools. rewrite lead_2 by assumption. cbn [fst snd app].
      rewrite decode_cons, feed_continuation by (assumption || lia).
      cbn [Z.eqb Pos.eqb fst snd app]. do 2 f_equal. apply IH; [lia|assumption]. }
    destruct rest2 as [|b3 rest3]; [discriminate|]. cbn [length] in Hlen.
    destruct (Utf8.between 224 b1 239) eqn:H3.
    { utf8_bools. rewrite lead_3 by assumption. cbn [fst snd app].
      rewrite decode_cons, feed_continuation by (assumption || lia).
      cbn [Z.eqb Pos.eqb fst snd app]; change (2 - 1) with 1.
      rewrite decode_cons, feed_continuation by (assumption || lia).
      cbn [Z.eqb Pos.eqb fst snd app]. do 3 f_equal. apply IH; [lia|assumption]. }
    destruct rest3 as [|b4 rest4]; [discriminate|]. cbn [length] in Hlen.
    utf8_bools. rewrite lead_4 by assumption. cbn [fst snd app].
    rewrite decode_cons, feed_continuation by (assumption || lia).
    cbn [Z.eqb Pos.eqb fst snd app]; change (3 - 1) with 2.
    rewrite decode_cons, feed_continuation by (assumption || lia).
    cbn [Z.eqb Pos.eqb fst snd app]; change (2 - 1) with 1.
    rewrite decode_cons, feed_continuation by (assumption || lia).
    cbn [Z.eqb Pos.eqb fst snd app]. do 4 f_equal. apply IH; [lia|assumption].
Qed.

(** Well-formed UTF-8 decodes to the string that has these bytes. *)
Lemma toString_wellFormed bytes :
  Utf8.wellFormed bytes = true → Utf8.toString bytes = bytes.
Proof. apply (decode_wellFormed (length bytes)). lia. Qed.

(** ** Strings on the wire *)

Lemma readString_prefixed text pre post :
  Z.of_nat (length text) < 2 ^ 28 →
  HazelBuffer.readString (pre ++ packedBytes 5 (Z.of_nat (length text)) ++ text ++ post)
    (Some (Z.of_nat (length pre)))
  = Ok (Utf8.toString text).
Proof.
  intros Hn. unfold HazelBuffer.readString.
  rewrite readPackedUInt32_small by lia. cbn [mbind result_bind rbind].
  change (HazelBuffer.orZero (Some ?o)) with o.
  rewrite getPackedUInt32Size_length by lia. cbv zeta. do 2 f_equal.
  rewrite !app_assoc, <- (app_assoc _ text post). apply slice_middle.
  - rewrite length_app. lia.
  - reflexivity.
Qed.

(** X6.  [readString] decodes a length-prefixed string: after the
    packed length of the text it returns the text decoded as UTF-8,
    whatever precedes and follows the string in the buffer, and without
    an offset it reads from the start of the buffer.  Well-formed UTF-8
    comes back byte for byte; a byte that is not UTF-8, such as FF, comes
    back as U+FFFD. *)
Theorem readString_decodes text pre post :
  Z.of_nat (length text) < 2 ^ 28 →
  (HazelBuffer.readString (pre ++ packedBytes 5 (Z.of_nat (length text)) ++ text ++ post)
     (Some (Z.of_nat (length pre)))
   = Ok (Utf8.toString text) ∧
   HazelBuffer.readString (packedBytes 5 (Z.of_nat (length text)) ++ text ++ post) None
   = Ok (Utf8.toString text)) ∧
  (Utf8.wellFormed text = true → Utf8.toString text = text) ∧
  HazelBuffer.readString [1; 255] None = Ok [239; 191; 189].
Proof.
  intros Hn. split; [split; [apply readString_prefixed; exact Hn|]|].
  - exact (readString_prefixed text [] post Hn).
  - split; [apply toString_wellFormed|reflexivity].
Qed.

(** The five bytes of [bye] and of a euro sign behind their length,
    between two other bytes and at the start. *)
Lemma readString_decodes_witness :
  HazelBuffer.readString [9; 6; 98; 121; 101; 226; 130; 172; 9] (Some 1)
  = Ok [98; 121; 101; 226; 130; 172] ∧
  HazelBuffer.readString [6; 98; 121; 101; 226; 130; 172; 9] None
  = Ok [98; 121; 101; 226; 130; 172].
Proof.
  destruct (readString_decodes [98; 121; 101; 226; 130; 172] [9] [9])
    as ((H1 & H2) & Hwf & _); [vm_compute; reflexivity|].
  rewrite (Hwf eq_refl) in H1, H2. split; [exact H1|exact H2].
Defined.

Lemma writeString_spliced str offset buf :
  let text := js_utf8 str in
  let n := Z.of_nat (length text) in
  0 < n < 2 ^ 28 → 0 ≤ offset →
  offset + HazelBuffer.getPackedUInt32Size n - 1 + n ≤ Z.of_nat (length buf) →
  HazelBuffer.writeString str (Some offset) buf
  = Ok (splice buf offset (removelast (packedBytes 5 n) ++ text),
        HazelBuffer.getPackedUInt32Size n - 1 + n).
Proof.
  intros text n Hn Ho Hr. unfold HazelBuffer.writeString. fold text. fold n.
  rewrite writePackedUInt32_small by lia. cbn [mbind result_bind rbind].
  change (HazelBuffer.orZero (Some offset)) with offset.
  rewrite getPackedUInt32Size_length in * by lia.
  assert (Hne : packedBytes 5 n ≠ []).
  { rewrite packedBytes_S. destruct (n <? 128); discriminate. }
  pose proof (app_removelast_last 0 Hne) as Hsplit.
  set (prefix := packedBytes 5 n) in *. set (ini := removelast prefix) in *.
  assert (Hl : Z.of_nat (length prefix) - 1 = Z.of_nat (length ini)).
  { rewrite Hsplit at 1. rewrite length_app. cbn. lia. }
  rewrite Hl in *.
  assert (Hb : splice buf offset prefix
               = splice (splice buf offset ini) (offset + Z.of_nat (length ini)) [List.last prefix 0]).
  { rewrite splice_app by lia. rewrite <- Hsplit. reflexivity. }
  assert (Hn' : n = Z.of_nat (length text)) by reflexivity.
  assert (Hl1 : length (splice buf offset ini) = length buf)
    by (apply splice_length; lia).
  assert (Hl2 : length (splice (splice buf offset ini) (offset + Z.of_nat (length ini))
                          [List.last prefix 0]) = length buf).
  { rewrite splice_length; [exact Hl1|lia|]. rewrite Hl1. cbn [length]. lia. }
  rewrite Hb.
  rewrite copy_fits; [|lia|rewrite Hl2; lia].
  cbn [mbind result_bind rbind]. f_equal. f_equal.
  rewrite splice_overwrite; [|lia|rewrite Hl1; cbn [length]; lia|cbn [length]; lia].
  apply splice_app; lia.
Qed.


(** X7.  [writeString] does not leave a complete length prefix: the
    copy of the text starts where the last byte of the packed length was
    written.  For a text of [n] bytes, [0 < n < 2^28], the buffer receives
    the prefix without its last byte followed by the text, and the value
    returned is one less than the size of a length-prefixed string. *)
Theorem writeString_layout str offset buf :
  let text := js_utf8 str in
  let n := Z.of_nat (length text) in
  0 < n < 2 ^ 28 → 0 ≤ offset →
  offset + HazelBuffer.getPackedUInt32Size n - 1 + n ≤ Z.of_nat (length buf) →
  HazelBuffer.writeString str (Some offset) buf
  = Ok (splice buf offset (removelast (packedBytes 5 n) ++ text),
        HazelBuffer.getPackedUInt32Size n - 1 + n) ∧
  (n < 128 → removelast (packedBytes 5 n) ++ text = text ∧
             HazelBuffer.getPackedUInt32Size n - 1 + n = n).
Proof.
  intros text n Hn Ho Hr. split; [apply writeString_spliced; assumption|].
  intros Hs. rewrite getPackedUInt32Size_cases, packedBytes_S.
  destruct (Z.ltb_spec n 128); [|lia].
  destruct (Z.ltb_spec n (2 ^ 7)); [|lia]. split; [reflexivity|lia].
Qed.

(** The string [bye] at offset 1 of a five-byte buffer: no length byte is left. *)
Lemma writeString_layout_witness :
  HazelBuffer.writeString (jsAscii "bye") (Some 1) (Buffer.alloc 5)
  = Ok ([0; 98; 121; 101; 0], 3).
Proof.
  refine (proj1 (writeString_layout (jsAscii "bye") 1 (Buffer.alloc 5) _ _ _)).
  - vm_compute. split; reflexivity.
  - lia.
  - vm_compute. discriminate.
Defined.

(** ** The range of the packed reader *)

Lemma readUInt8_elem buf cursor b : Buffer.readUInt8 buf cursor = Ok b → b ∈ buf.
Proof.
  unfold Buffer.readUInt8. destruct (0 <=? cursor); [|discriminate].
  destruct (buf !! Z.to_nat cursor) as [x|] eqn:E; [|discriminate].
  intros [= <-]. eapply list_elem_of_lookup_2, E.
Qed.

Lemma readPackedLoop_range fuel : ∀ buf res shift cursor v,
  Forall isByte buf → 0 ≤ shift → 0 ≤ res < 2 ^ shift →
  HazelBuffer.readPackedLoop fuel buf res shift cursor = Some (Ok v) →
  0 ≤ v < 2 ^ 28.
Proof.
  induction fuel as [|fuel IH]; intros buf res shift cursor v Hb Hs Hres; [discriminate|].
  rewrite readPackedLoop_S.
  destruct (Z.leb_spec (Z.of_nat (length buf)) cursor); [discriminate|].
  destruct (Z.ltb_spec 21 shift); [discriminate|]. cbn [orb].
  destruct (Buffer.readUInt8 buf cursor) as [byte|] eqn:E; [|discriminate].
  assert (Hbyte : isByte byte).
  { apply readUInt8_elem in E. rewrite Forall_forall in Hb. apply Hb, E. }
  unfold isByte in Hbyte.
  rewrite band_127 by (change (2 ^ 31) with 2147483648; lia).
  assert (Hm : 0 ≤ byte mod 128 < 128) by (apply Z.mod_pos_bound; lia).
  rewrite shl_small by lia.
  assert (Hp : 0 < 2 ^ shift) by (apply Z.pow_pos_nonneg; lia).
  assert (Hnext : 2 ^ (shift + 7) = 128 * 2 ^ shift).
  { rewrite Z.pow_add_r by lia. change (2 ^ 7) with 128. lia. }
  assert (Hres' : 0 ≤ res + byte mod 128 * 2 ^ shift < 2 ^ (shift + 7)) by nia.
  destruct (128 <=? byte).
  - intros Hv. eapply (IH buf _ (shift + 7)); [exact Hb|lia|exact Hres'|exact Hv].
  - intros [= <-].
    assert (2 ^ (shift + 7) ≤ 2 ^ 28) by (apply Z.pow_le_mono_r; lia). lia.
Qed.

(** X8.  Whatever the bytes of the buffer, a value that
    [readPackedUInt32] returns is at least 0 and below 2^28; and at an
    offset at or past the end of the buffer, in particular on an empty
    buffer, it throws a [RangeError]. *)
Theorem readPackedUInt32_range buf offset :
  Forall isByte buf →
  (∀ v, HazelBuffer.readPackedUInt32 buf offset = Ok v → 0 ≤ v < 2 ^ 28) ∧
  (Z.of_nat (length buf) ≤ HazelBuffer.orZero offset →
   HazelBuffer.readPackedUInt32 buf offset = Throw RangeError).
Proof.
  intros Hb. unfold HazelBuffer.readPackedUInt32. split.
  - intros v.
    destruct (HazelBuffer.readPackedLoop _ buf 0 0 _) as [[w|]|] eqn:E; try discriminate.
    intros [= <-]. eapply (readPackedLoop_range _ buf 0 0); [exact Hb|lia| |exact E].
    change (2 ^ 0) with 1. lia.
  - intros Hlen. unfold HazelBuffer.readPackedFuel. rewrite readPackedLoop_S.
    destruct (Z.leb_spec (Z.of_nat (length buf)) (HazelBuffer.orZero offset)); [reflexivity|lia].
Qed.

(** The largest value the reader returns, from four bytes, and a read past their end. *)
Lemma readPackedUInt32_range_witness :
  Forall isByte [255; 255; 255; 127] ∧
  HazelBuffer.readPackedUInt32 [255; 255; 255; 127] None = Ok (2 ^ 28 - 1) ∧
  0 ≤ 2 ^ 28 - 1 < 2 ^ 28 ∧
  HazelBuffer.readPackedUInt32 [255; 255; 255; 127] (Some 4) = Throw RangeError.
Proof.
  assert (Hb : Forall isByte [255; 255; 255; 127]) by (repeat constructor; unfold isByte; lia).
  split; [exact Hb|].
  destruct (readPackedUInt32_range [255; 255; 255; 127] None Hb) as [H1 _].
  destruct (readPackedUInt32_range [255; 255; 255; 127] (Some 4) Hb) as [_ H2].
  split; [reflexivity|]. split; [apply (H1 (2 ^ 28 - 1)); reflexivity|].
  apply H2. cbn. lia.
Defined.

(** ** Packets of message records *)

Lemma messagesLength_encode ms : ∀ start,
  messagesLength start ms = start + Z.of_nat (length (encodeRecords ms)).
Proof.
  unfold messagesLength. induction ms as [|m ms IH]; intros start; cbn [foldl encodeRecords].
  - cbn. lia.
  - rewrite IH, !length_app. change (length (recordHeader m)) with 3%nat. lia.
Qed.

Lemma writeMessages_encode ms : ∀ cursor buf,
  Forall wfMessage ms → 0 ≤ cursor →
  cursor + Z.of_nat (length (encodeRecords ms)) ≤ Z.of_nat (length buf) →
  writeMessages ms cursor buf = Ok (splice buf cursor (encodeRecords ms)).
Proof.
  induction ms as [|m ms IH]; intros cursor buf Hwf Hc Hr; cbn [writeMessages encodeRecords].
  - unfold splice. cbn [app length]. rewrite Nat.add_0_r, take_drop. reflexivity.
  - apply Forall_cons in Hwf as [Hm Hms].
    cbn [encodeRecords] in Hr. rewrite !length_app in Hr.
    change (length (recordHeader m)) with 3%nat in Hr.
    pose proof (recordLength m) as Hlen.
    rewrite writeHazelMessage_fits by (auto; lia).
    cbn [mbind result_bind rbind].
    rewrite IH; [|exact Hms|lia|rewrite splice_length; lia].
    f_equal. rewrite <- Hlen.
    rewrite splice_app, <- app_assoc; [reflexivity|lia|lia].
Qed.

Lemma splice_all buf bytes :
  length bytes = length buf → splice buf 0 bytes = bytes.
Proof.
  intros H. unfold splice. change (Z.to_nat 0) with 0%nat. cbn [take app Nat.add].
  rewrite drop_ge by lia. apply app_nil_r.
Qed.

Lemma alloc_length n : 0 ≤ n → Z.of_nat (length (Buffer.alloc n)) = n.
Proof. intros H. unfold Buffer.alloc. rewrite length_replicate. lia. Qed.

Lemma normalBuffer_eq ms :
  Forall wfMessage ms → normalBuffer ms = Ok (PacketType.NORMAL :: encodeRecords ms).
Proof.
  intros Hwf. unfold normalBuffer, HazelBuffer.writeByte.
  change (HazelBuffer.orZero None) with 0.
  rewrite messagesLength_encode.
  set (L := Z.of_nat (length (encodeRecords ms))).
  assert (Ha : Z.of_nat (length (Buffer.alloc (1 + L))) = 1 + L) by (apply alloc_length; lia).
  rewrite writeUInt8_ok by (unfold PacketType.NORMAL; lia).
  cbn [mbind result_bind rbind].
  rewrite splice_insert by lia.
  rewrite writeMessages_encode; [|exact Hwf|lia|rewrite splice_length; cbn [length]; lia].
  f_equal.
  rewrite (splice_app _ 0 [PacketType.NORMAL]) by (cbn [length]; lia).
  apply splice_all. cbn [length app]. lia.
Qed.

Lemma reliableBuffer_eq n ms :
  0 ≤ n ≤ 65535 → Forall wfMessage ms →
  reliableBuffer n ms
  = Ok (PacketType.RELIABLE :: Z.shiftr n 8 :: Z.land n 255 :: encodeRecords ms).
Proof.
  intros Hn Hwf. unfold reliableBuffer, HazelBuffer.writeByte, HazelBuffer.writeUInt16.
  change (HazelBuffer.orZero None) with 0. change (HazelBuffer.orZero (Some 1)) with 1.
  rewrite messagesLength_encode.
  set (L := Z.of_nat (length (encodeRecords ms))).
  assert (Ha : Z.of_nat (length (Buffer.alloc (3 + L))) = 3 + L) by (apply alloc_length; lia).
  rewrite writeUInt8_ok by (unfold PacketType.RELIABLE; lia).
  cbn [mbind result_bind rbind].
  rewrite splice_insert by lia.
  rewrite writeUInt16BE_ok by (rewrite ?splice_length; cbn [length]; lia).
  cbn [mbind result_bind rbind].
  rewrite (splice_app _ 0 [PacketType.RELIABLE]) by (cbn [length]; lia).
  cbn [app].
  rewrite writeMessages_encode; [|exact Hwf|lia|rewrite splice_length; cbn [length]; lia].
  f_equal.
  rewrite (splice_app _ 0 [_; _; _]) by (cbn [length]; lia).
  apply splice_all. cbn [length app]. lia.
Qed.

Lemma set_emitted_twice l1 l2 c :
  set_emitted l2 (set_emitted l1 c) = set_emitted l2 c.
Proof. reflexivity. Qed.

(** The loop of [handleMessagePacket] on a run of complete records. *)
Lemma messageLoop_records ms : ∀ fuel pre tl c,
  Forall wfMessage ms → (length ms ≤ fuel)%nat →
  messageLoop fuel (pre ++ encodeRecords ms ++ tl) (Z.of_nat (length pre)) c
  = messageLoop (fuel - length ms) (pre ++ encodeRecords ms ++ tl)
      (Z.of_nat (length pre) + Z.of_nat (length (encodeRecords ms)))
      (set_emitted (emitted c ++ (EvMessage <$> ms)) c).
Proof.
  induction ms as [|m ms IH]; intros fuel pre tl c Hwf Hf.
  - cbn [encodeRecords length fmap list_fmap app]. rewrite Nat.sub_0_r, Z.add_0_r, app_nil_r.
    rewrite set_emitted_id. reflexivity.
  - apply Forall_cons in Hwf as [Hm Hms].
    destruct fuel as [|fuel]; [cbn in Hf; lia|].
    cbn [encodeRecords length]. cbn [Nat.sub].
    destruct (recordHeader_decodes m Hm) as (hi & lo & Hh & _ & _ & Hv).
    pose proof (recordLength m) as Hlen.
    cbn [messageLoop].
    destruct (Z.ltb_spec (Z.of_nat (length pre))
                (Z.of_nat (length (pre ++ (recordHeader m ++ data m ++ encodeRecords ms) ++ tl)))) as [_|Hge].
    2:{ rewrite !length_app in Hge. change (length (recordHeader m)) with 3%nat in Hge. lia. }
    rewrite Hh at 1. cbn [app].
    rewrite readHazelMessage_at, Hv, Nat2Z.id.
    rewrite <- (app_assoc (data m)), take_app_length. cbn [data].
    replace {| tag := tag m; data := data m |} with m by (destruct m; reflexivity).
    rewrite emit_message.
    replace (pre ++ (recordHeader m ++ data m ++ encodeRecords ms) ++ tl)
      with ((pre ++ recordHeader m ++ data m) ++ encodeRecords ms ++ tl)
      by (rewrite <- !app_assoc; reflexivity).
    replace (Z.of_nat (length pre) + (3 + Z.of_nat (length (data m))))
      with (Z.of_nat (length (pre ++ recordHeader m ++ data m)))
      by (rewrite length_app; lia).
    rewrite IH; [|exact Hms|cbn in Hf; lia].
    cbn [emitted set_emitted]. rewrite set_emitted_twice.
    replace (set_emitted ((emitted c ++ [EvMessage m]) ++ (EvMessage <$> ms)) c)
      with (set_emitted (emitted c ++ (EvMessage <$> m :: ms)) c)
      by (cbn [fmap list_fmap]; rewrite <- app_assoc; reflexivity).
    f_equal. rewrite !length_app. lia.
Qed.

Lemma encodeRecords_length ms : (3 * length ms ≤ length (encodeRecords ms))%nat.
Proof.
  induction ms as [|m ms IH]; cbn [encodeRecords length]; [lia|].
  rewrite !length_app. change (length (recordHeader m)) with 3%nat. lia.
Qed.

Lemma messageLoop_end fuel msg cursor c :
  Z.of_nat (length msg) ≤ cursor → messageLoop fuel msg cursor c = Some (c, Returned).
Proof.
  intros H. destruct fuel; cbn [messageLoop];
    (destruct (Z.ltb_spec cursor (Z.of_nat (length msg))); [lia|reflexivity]).
Qed.

Lemma readMessages_records pre ms c :
  Forall wfMessage ms →
  readMessages (pre ++ encodeRecords ms) (Z.of_nat (length pre)) c
  = (set_emitted (emitted c ++ (EvMessage <$> ms)) c, Returned).
Proof.
  intros Hwf. unfold readMessages. pose proof (encodeRecords_length ms) as Hl.
  rewrite <- (app_nil_r (encodeRecords ms)).
  rewrite messageLoop_records; [|exact Hwf|rewrite !length_app; lia].
  rewrite messageLoop_end; [reflexivity|]. rewrite !length_app. cbn [length]. lia.
Qed.

Lemma readHazelMessage_short pre tl :
  (length tl < 3)%nat →
  HazelBuffer.readHazelMessage (pre ++ tl) (Some (Z.of_nat (length pre))) = Throw RangeError.
Proof.
  intros Hl. unfold HazelBuffer.readHazelMessage, Buffer.readUInt16BE.
  change (HazelBuffer.orZero (Some ?o)) with o.
  rewrite <- (Z.add_0_r (Z.of_nat (length pre))) at 1.
  rewrite !readUInt8_app by lia.
  destruct tl as [|a [|b [|t tl]]]; try reflexivity. cbn in Hl. lia.
Qed.

Lemma readMessages_short_tail pre ms tl c :
  Forall wfMessage ms → (1 ≤ length tl ≤ 2)%nat →
  readMessages (pre ++ encodeRecords ms ++ tl) (Z.of_nat (length pre)) c
  = (set_emitted (emitted c ++ (EvMessage <$> ms)) c, Thrown RangeError).
Proof.
  intros Hwf Ht. unfold readMessages. pose proof (encodeRecords_length ms) as Hl.
  rewrite messageLoop_records; [|exact Hwf|rewrite !length_app; lia].
  rewrite !length_app.
  destruct (length pre + (length (encodeRecords ms) + length tl) - length ms)%nat
    as [|fuel] eqn:Hfuel; [lia|].
  cbn [messageLoop].
  destruct (Z.ltb_spec (Z.of_nat (length pre) + Z.of_nat (length (encodeRecords ms)))
              (Z.of_nat (length (pre ++ encodeRecords ms ++ tl)))) as [_|Hge].
  2:{ rewrite !length_app in Hge. lia. }
  rewrite app_assoc.
  replace (Z.of_nat (length pre) + Z.of_nat (length (encodeRecords ms)))
    with (Z.of_nat (length (pre ++ encodeRecords ms))) by (rewrite length_app; lia).
  rewrite readHazelMessage_short by lia. reflexivity.
Qed.

Lemma readMessages_short_record pre ms hi lo t partial c :
  Forall wfMessage ms → Z.of_nat (length partial) ≤ hi * 2 ^ 8 + lo →
  readMessages (pre ++ encodeRecords ms ++ hi :: lo :: t :: partial) (Z.of_nat (length pre)) c
  = (set_emitted (emitted c ++ (EvMessage <$> (ms ++ [{| tag := t; data := partial |}]))) c,
     Returned).
Proof.
  intros Hwf Ht. unfold readMessages. pose proof (encodeRecords_length ms) as Hl.
  rewrite messageLoop_records; [|exact Hwf|rewrite !length_app; lia].
  rewrite !length_app. cbn [length].
  destruct (length pre + (length (encodeRecords ms) + S (S (S (length partial)))) - length ms)%nat
    as [|fuel] eqn:Hfuel; [lia|].
  cbn [messageLoop].
  destruct (Z.ltb_spec (Z.of_nat (length pre) + Z.of_nat (length (encodeRecords ms)))
              (Z.of_nat (length (pre ++ encodeRecords ms ++ hi :: lo :: t :: partial))))
    as [_|Hge].
  2:{ rewrite !length_app in Hge. cbn [length] in Hge. lia. }
  rewrite app_assoc.
  replace (Z.of_nat (length pre) + Z.of_nat (length (encodeRecords ms)))
    with (Z.of_nat (length (pre ++ encodeRecords ms))) by (rewrite length_app; lia).
  rewrite readHazelMessage_at, take_ge by lia. cbn [data].
  rewrite emit_message, messageLoop_end.
  2:{ rewrite !length_app. cbn [length]. lia. }
  cbn [emitted set_emitted]. rewrite set_emitted_twice, fmap_app, app_assoc. reflexivity.
Qed.

Lemma step_normal ver role now body c :
  step ver role (Data now (PacketType.NORMAL :: body)) c
  = readMessages (PacketType.NORMAL :: body) 1 c.
Proof.
  destruct role; cbn [step handleMessage]; change (PacketType.NORMAL =? PacketType.NORMAL) with true;
    cbn match; unfold handleMessagePacket, handleMessagePacketServer, handleMessagePacketClient.
  - cbn [length]. destruct (Z.ltb_spec (Z.of_nat (S (length body))) 1); [lia|].
    change (maybeAck (PacketType.NORMAL :: body) false c) with (Ok (A:=Connection) c).
    cbn match. rewrite readByte_0. reflexivity.
  - cbn [length]. destruct (Z.ltb_spec (Z.of_nat (S (length body))) 1); [lia|].
    rewrite readByte_0. reflexivity.
Qed.

Lemma step_reliable ver role now b1 b2 body c :
  isByte b1 → isByte b2 →
  step ver role (Data now (PacketType.RELIABLE :: b1 :: b2 :: body)) c
  = readMessages (PacketType.RELIABLE :: b1 :: b2 :: body) 3
      (sendRaw [PacketType.ACKNOWLEDGEMENT; b1; b2;
                ackMask (pendingAck c) (b1 * 2 ^ 8 + b2)] c).
Proof.
  intros H1 H2.
  destruct role; cbn [step handleMessage];
    change (PacketType.RELIABLE =? PacketType.NORMAL) with false;
    change ((PacketType.RELIABLE =? PacketType.HELLO) || (PacketType.RELIABLE =? PacketType.RELIABLE))
      with true;
    cbn match; unfold handleMessagePacket, handleMessagePacketServer, handleMessagePacketClient;
    cbn [length];
    (destruct (Z.ltb_spec (Z.of_nat (S (S (S (length body))))) 3); [lia|]);
    rewrite ?readByte_0, maybeAck_reliable by assumption; rewrite ?readByte_0; reflexivity.
Qed.

(** X9.  What [sendNormal] sends is the type byte followed by the
    records of the messages, and a connection that receives this datagram
    emits exactly these messages, in order, sends nothing and changes
    nothing else. *)
Theorem normal_roundtrip ver sender receiver now ms c1 c2 :
  Forall wfMessage ms →
  let d := PacketType.NORMAL :: encodeRecords ms in
  step ver sender (CallSendNormal ms) c1 = (sendRaw d c1, Returned) ∧
  step ver receiver (Data now d) c2
  = (set_emitted (emitted c2 ++ (EvMessage <$> ms)) c2, Returned).
Proof.
  intros Hwf d. split.
  - cbn [step]. unfold sendNormal. rewrite normalBuffer_eq by exact Hwf. reflexivity.
  - unfold d. rewrite step_normal.
    apply (readMessages_records [PacketType.NORMAL] ms c2 Hwf).
Qed.

(** Two messages, the second one empty, from a new connection to another. *)
Lemma normal_roundtrip_witness :
  let ms := [{| tag := 7; data := [1; 2; 3] |}; {| tag := 8; data := [] |}] in
  Forall wfMessage ms ∧
  step 0 ServerSide (CallSendNormal ms) init
  = (sendRaw [0; 0; 3; 7; 1; 2; 3; 0; 0; 8] init, Returned) ∧
  emitted (step 0 ClientSide (Data 0 [0; 0; 3; 7; 1; 2; 3; 0; 0; 8]) init).1
  = EvMessage <$> ms.
Proof.
  intros ms.
  assert (Hwf : Forall wfMessage ms).
  { repeat constructor; cbn; lia. }
  split; [exact Hwf|].
  destruct (normal_roundtrip 0 ServerSide ClientSide 0 ms init init Hwf) as [Hs Hr].
  split; [exact Hs|].
  change (PacketType.NORMAL :: encodeRecords ms) with [0; 0; 3; 7; 1; 2; 3; 0; 0; 8] in Hr.
  rewrite Hr. reflexivity.
Defined.

(** X10.  A NORMAL packet that ends inside a record: when one or two
    bytes follow the last complete record, the messages before them are
    emitted and the handler then throws a [RangeError]; when a record's
    payload is shorter than its header declares, the record is delivered
    with the bytes that are there and no error is raised. *)
Theorem truncated_packet ver role now ms c :
  Forall wfMessage ms →
  (∀ tl, (1 ≤ length tl ≤ 2)%nat →
     step ver role (Data now (PacketType.NORMAL :: encodeRecords ms ++ tl)) c
     = (set_emitted (emitted c ++ (EvMessage <$> ms)) c, Thrown RangeError)) ∧
  (∀ hi lo t partial, Z.of_nat (length partial) < hi * 2 ^ 8 + lo →
     step ver role (Data now (PacketType.NORMAL :: encodeRecords ms ++ hi :: lo :: t :: partial)) c
     = (set_emitted
          (emitted c ++ (EvMessage <$> (ms ++ [{| tag := t; data := partial |}]))) c,
        Returned)).
Proof.
  intros Hwf. split.
  - intros tl Htl. rewrite step_normal.
    apply (readMessages_short_tail [PacketType.NORMAL] ms tl c Hwf Htl).
  - intros hi lo t partial Hp. rewrite step_normal.
    apply (readMessages_short_record [PacketType.NORMAL] ms hi lo t partial c Hwf). lia.
Qed.

(** One complete record followed by two bytes, and by a record that declares five bytes and has one. *)
Lemma truncated_packet_witness :
  let ms := [{| tag := 7; data := [1] |}] in
  Forall wfMessage ms ∧
  step 0 ServerSide (Data 0 [0; 0; 1; 7; 1; 0; 5]) init
  = (set_emitted (EvMessage <$> ms) init, Thrown RangeError) ∧
  step 0 ServerSide (Data 0 [0; 0; 1; 7; 1; 0; 5; 9; 4]) init
  = (set_emitted (EvMessage <$> (ms ++ [{| tag := 9; data := [4] |}])) init, Returned).
Proof.
  intros ms.
  assert (Hwf : Forall wfMessage ms).
  { repeat constructor; cbn; lia. }
  split; [exact Hwf|].
  destruct (truncated_packet 0 ServerSide 0 ms init Hwf) as [H1 H2].
  split.
  - apply (H1 [0; 5]). cbn. lia.
  - apply (H2 0 5 9 [4]). cbn. lia.
Defined.

(** ** Acknowledgements *)

Lemma pendingAck_runCallback now cb c : pendingAck (runCallback now cb c) = pendingAck c.
Proof. destruct cb; reflexivity. Qed.

Lemma step_ack_long ver role now b1 b2 tl c :
  step ver role (Data now (PacketType.ACKNOWLEDGEMENT :: b1 :: b2 :: tl)) c
  = match pendingAck c !! (b1 * 2 ^ 8 + b2) with
    | Some cb =>
        (set_pendingAck (delete (b1 * 2 ^ 8 + b2) (pendingAck c)) (runCallback now cb c),
         Returned)
    | None => (c, Returned)
    end.
Proof.
  assert (H : step ver role (Data now (PacketType.ACKNOWLEDGEMENT :: b1 :: b2 :: tl)) c
              = handleAck now (PacketType.ACKNOWLEDGEMENT :: b1 :: b2 :: tl) c)
    by (destruct role; reflexivity).
  rewrite H. unfold handleAck. cbn [length].
  destruct (Z.leb_spec 3 (Z.of_nat (S (S (S (length tl)))))); [|lia].
  rewrite readUInt16BE_1.
  destruct (pendingAck c !! (b1 * 2 ^ 8 + b2)) as [cb|]; [|reflexivity].
  rewrite pendingAck_runCallback. reflexivity.
Qed.

Lemma step_ack_short ver role now tl c :
  (length tl < 2)%nat →
  step ver role (Data now (PacketType.ACKNOWLEDGEMENT :: tl)) c = (c, Returned).
Proof.
  intros Hl.
  assert (H : step ver role (Data now (PacketType.ACKNOWLEDGEMENT :: tl)) c
              = handleAck now (PacketType.ACKNOWLEDGEMENT :: tl) c)
    by (destruct role; reflexivity).
  rewrite H. unfold handleAck. cbn [length].
  destruct (Z.leb_spec 3 (Z.of_nat (S (length tl)))); [lia|reflexivity].
Qed.

(** X11.  An acknowledgement is consumed at most once: delivering the
    same ACKNOWLEDGEMENT datagram a second time, at any later time, leaves
    the connection exactly as the first delivery left it. *)
Theorem duplicate_ack_ignored ver role t1 t2 tl c :
  let msg := PacketType.ACKNOWLEDGEMENT :: tl in
  let c1 := (step ver role (Data t1 msg) c).1 in
  step ver role (Data t2 msg) c1 = (c1, Returned).
Proof.
  intros msg c1. unfold c1, msg. clear c1 msg.
  destruct tl as [|b1 [|b2 tl]].
  - rewrite !step_ack_short by (cbn; lia). reflexivity.
  - rewrite !step_ack_short by (cbn; lia). reflexivity.
  - rewrite (step_ack_long ver role t1).
    destruct (pendingAck c !! (b1 * 2 ^ 8 + b2)) as [cb|] eqn:E; cbn [fst].
    + rewrite step_ack_long. cbn [pendingAck set_pendingAck].
      rewrite lookup_delete_eq. reflexivity.
    + rewrite step_ack_long, E. reflexivity.
Qed.

Lemma nonce_next_range c : 0 ≤ nonce c → 0 ≤ Z.rem (nonce c + 1) 65535 ≤ 65535.
Proof. intros H. pose proof (Z.rem_bound_pos (nonce c + 1) 65535). lia. Qed.

Lemma run_retx_disarmed ver role id r ticks c :
  reliables c !! id = Some r → r_armed r = false →
  run ver role (replicate ticks (RetxTick id)) c = c.
Proof.
  intros Hr Ha. induction ticks as [|k IH]; [reflexivity|].
  cbn [replicate]. rewrite run_cons. cbn [step]. unfold retxTick. rewrite Hr, Ha.
  exact IH.
Qed.

(** X12.  A reliable send that is acknowledged before its first
    retransmission: [sendReliable] sends one RELIABLE datagram carrying the
    next nonce and the records; the peer answers it with an ACKNOWLEDGEMENT
    of that nonce and emits the messages in order; when the answer reaches
    the sender the promise is resolved, the callback is removed and the
    retransmission interval never sends again. *)
Theorem reliable_acked_once ver sender receiver now now' ms c1 c2 :
  Forall wfMessage ms → 0 ≤ nonce c1 →
  let n := Z.rem (nonce c1 + 1) 65535 in
  let id := length (reliables c1) in
  let d := PacketType.RELIABLE :: Z.shiftr n 8 :: Z.land n 255 :: encodeRecords ms in
  let a := [PacketType.ACKNOWLEDGEMENT; Z.shiftr n 8; Z.land n 255;
            ackMask (pendingAck c2) n] in
  let c1' := (step ver sender (CallSendReliable ms) c1).1 in
  let c1'' := (step ver sender (Data now' a) c1').1 in
  (sent c1' = sent c1 ++ [d] ∧ promiseOf id c1' = Some Pending) ∧
  step ver receiver (Data now d) c2
  = (set_emitted (emitted c2 ++ (EvMessage <$> ms)) (sendRaw a c2), Returned) ∧
  (promiseOf id c1'' = Some Resolved ∧ pendingAck c1'' !! n = None ∧
   sent c1'' = sent c1 ++ [d]) ∧
  ∀ ticks, sent (run ver sender (replicate ticks (RetxTick id)) c1'') = sent c1 ++ [d].
Proof.
  intros Hwf Hn n id d a c1' c1''.
  pose proof (nonce_next_range c1 Hn) as Hr. fold n in Hr.
  destruct (uint16_split n Hr) as (Hhi & Hlo & Hv).
  assert (E1 : c1' = set_pendingAck (<[n := OnAckReliable id]> (pendingAck c1))
                       (sendRaw d
                          (set_reliables (reliables c1 ++ [{| r_buf := d; r_attempts := 0;
                                                              r_armed := true;
                                                              r_promise := Pending |}])
                             (set_nonce n c1)))).
  { unfold c1'. cbn [step].
    rewrite (sendReliable_pendingAck ms c1 d) by (apply reliableBuffer_eq; assumption).
    reflexivity. }
  assert (E2 : c1'' = set_pendingAck (delete n (<[n := OnAckReliable id]> (pendingAck c1)))
                        (runCallback now' (OnAckReliable id) c1')).
  { unfold c1'', a. rewrite step_ack_long, Hv.
    replace (pendingAck c1' !! n) with (Some (OnAckReliable id))
      by (rewrite E1; cbn [pendingAck set_pendingAck]; rewrite lookup_insert_eq; reflexivity).
    cbn [fst]. rewrite E1 at 1. reflexivity. }
  assert (E3 : reliables c1'' !! id
               = Some {| r_buf := d; r_attempts := 0; r_armed := false;
                         r_promise := Resolved |}).
  { rewrite E2, E1. cbn [reliables set_pendingAck runCallback updReliable set_reliables sendRaw
                          set_sent set_nonce].
    rewrite list_lookup_alter. unfold id.
    rewrite decide_True by reflexivity.
    rewrite lookup_app_r by lia. rewrite Nat.sub_diag. reflexivity. }
  split; [|split; [|split]].
  - rewrite E1. split; [reflexivity|]. unfold promiseOf. cbn [reliables set_pendingAck sendRaw
      set_sent set_reliables]. unfold id. rewrite lookup_app_r by lia.
    rewrite Nat.sub_diag. reflexivity.
  - unfold d. rewrite step_reliable by assumption. rewrite Hv.
    exact (readMessages_records [PacketType.RELIABLE; Z.shiftr n 8; Z.land n 255] ms
             (sendRaw a c2) Hwf).
  - unfold promiseOf. rewrite E3. split; [reflexivity|]. rewrite E2.
    cbn [pendingAck set_pendingAck]. rewrite lookup_delete_eq. split; [reflexivity|].
    rewrite E1. reflexivity.
  - intros ticks. rewrite (run_retx_disarmed ver sender id _ ticks c1'' E3) by reflexivity.
    rewrite E2, E1. reflexivity.
Qed.

(** One message sent reliably by a new connection and acknowledged by another; eleven ticks of the interval follow. *)
Lemma reliable_acked_once_witness :
  let ms := [{| tag := 7; data := [1; 2] |}] in
  let c1' := (step 0 ClientSide (CallSendReliable ms) init).1 in
  let c1'' := (step 0 ClientSide (Data 5 [10; 0; 1; 255]) c1').1 in
  Forall wfMessage ms ∧ 0 ≤ nonce init ∧
  sent c1' = [[1; 0; 1; 0; 2; 7; 1; 2]] ∧
  step 0 ServerSide (Data 3 [1; 0; 1; 0; 2; 7; 1; 2]) init
  = (set_emitted (EvMessage <$> ms) (sendRaw [10; 0; 1; 255] init), Returned) ∧
  promiseOf 0 c1'' = Some Resolved ∧
  sent (run 0 ClientSide (replicate 11 (RetxTick 0)) c1'') = [[1; 0; 1; 0; 2; 7; 1; 2]].
Proof.
  intros ms c1' c1''.
  assert (Hwf : Forall wfMessage ms).
  { repeat constructor; cbn; lia. }
  assert (Hn : 0 ≤ nonce init) by (cbn; lia).
  split; [exact Hwf|]. split; [exact Hn|].
  destruct (reliable_acked_once 0 ClientSide ServerSide 3 5 ms init init Hwf Hn)
    as ((Hs & _) & Hd & (Hp & _ & _) & Ht).
  split; [exact Hs|]. split; [exact Hd|]. split; [exact Hp|exact (Ht 11%nat)].
Defined.

(** ** The counter of unanswered pings *)

Lemma pingCallbacks_empty : pingCallbacks ∅ = 0%nat.
Proof. unfold pingCallbacks. rewrite map_filter_empty. apply map_size_empty. Qed.

Lemma pingCallbacks_delete k pa :
  (pingCallbacks (delete k pa) ≤ pingCallbacks pa)%nat.
Proof.
  unfold pingCallbacks. rewrite map_filter_delete, map_size_delete.
  destruct (_ !! k); cbn; lia.
Qed.

Lemma pingCallbacks_delete_ping k t pa :
  pa !! k = Some (OnAckPing t) → S (pingCallbacks (delete k pa)) = pingCallbacks pa.
Proof.
  intros H. unfold pingCallbacks. rewrite map_filter_delete, map_size_delete.
  assert (Hf : filter (fun kv : Z * Callback => isPingCallback kv.2 = true) pa !! k
               = Some (OnAckPing t)).
  { apply map_lookup_filter_Some. split; [exact H|reflexivity]. }
  rewrite Hf. cbn.
  assert (size (filter (fun kv : Z * Callback => isPingCallback kv.2 = true) pa) ≠ 0%nat).
  { intros E. apply map_size_empty_inv in E. rewrite E, lookup_empty in Hf. discriminate. }
  lia.
Qed.

Lemma pingCallbacks_insert_ping k t pa :
  (pingCallbacks (<[k := OnAckPing t]> pa) ≤ S (pingCallbacks pa))%nat.
Proof.
  unfold pingCallbacks. rewrite map_filter_insert_True by reflexivity.
  rewrite map_size_insert. destruct (_ !! k); cbn; lia.
Qed.

Lemma pingCallbacks_insert_reliable k id pa :
  (pingCallbacks (<[k := OnAckReliable id]> pa) ≤ pingCallbacks pa)%nat.
Proof.
  unfold pingCallbacks. rewrite map_filter_insert_False by (cbn; discriminate).
  apply pingCallbacks_delete.
Qed.

Ltac ping_arith :=
  unfold pingInv in *; cbn in *;
  repeat match goal with
         | H : (_ <=? _) = false |- _ => apply Z.leb_gt in H
         | H : (_ <=? _) = true |- _ => apply Z.leb_le in H
         end;
  rewrite ?pingCallbacks_empty;
  repeat match goal with
         | |- context [pingCallbacks (<[?k := OnAckPing ?t]> ?m)] =>
             pose proof (pingCallbacks_insert_ping k t m);
             generalize dependent (pingCallbacks (<[k := OnAckPing t]> m)); intros
         | |- context [pingCallbacks (<[?k := OnAckReliable ?i]> ?m)] =>
             pose proof (pingCallbacks_insert_reliable k i m);
             generalize dependent (pingCallbacks (<[k := OnAckReliable i]> m)); intros
         | H : ?m !! ?k = Some (OnAckPing ?t) |- context [pingCallbacks (delete ?k ?m)] =>
             pose proof (pingCallbacks_delete_ping k t m H);
             generalize dependent (pingCallbacks (delete k m)); intros
         | |- context [pingCallbacks (delete ?k ?m)] =>
             pose proof (pingCallbacks_delete k m);
             generalize dependent (pingCallbacks (delete k m)); intros
         end;
  try lia.

Lemma step_pingInv ver role i c : pingInv c → pingInv (step ver role i c).1.
Proof.
  intros H. destruct i, role; unfold_conn; conn_cases; ping_arith.
Qed.

(** X13.  In every state a connection reaches, the counter of
    unanswered pings lies between 0 and 10 and is at least the number of
    ping callbacks still stored in [pendingAck]. *)
Theorem pendingPings_bounded ver role inputs :
  let c := run ver role inputs init in
  0 ≤ pendingPings c ≤ 10 ∧
  Z.of_nat (pingCallbacks (pendingAck c)) ≤ pendingPings c.
Proof.
  intros c. assert (H : pingInv c).
  { unfold c. clear c. induction inputs as [|i inputs IH] using rev_ind.
    - unfold pingInv. cbn. rewrite pingCallbacks_empty. lia.
    - rewrite run_snoc. apply step_pingInv, IH. }
  unfold pingInv in H. lia.
Qed.

(** ** The ping timeout *)

Lemma pingBuffer_eq n :
  0 ≤ n ≤ 65535 → pingBuffer n = Ok [PacketType.PING; Z.shiftr n 8; Z.land n 255].
Proof.
  intros Hn. unfold pingBuffer, HazelBuffer.writeByte, HazelBuffer.writeUInt16.
  change (HazelBuffer.orZero None) with 0. change (HazelBuffer.orZero (Some 1)) with 1.
  change (Buffer.writeUInt8 PacketType.PING 0 (Buffer.alloc 3))
    with (Ok (A:=list Z * Z) ([PacketType.PING; 0; 0], 1)).
  cbn [mbind result_bind rbind].
  rewrite writeUInt16BE_ok by (cbn [length]; lia). reflexivity.
Qed.

Lemma step_pingTick ver role t c :
  pingTimer c = true → pendingPings c < 10 → 0 ≤ nonce c →
  step ver role (PingTick t) c
  = (sendRaw [PacketType.PING; Z.shiftr (nextNonce (nonce c)) 8;
              Z.land (nextNonce (nonce c)) 255]
       (set_pendingPings (pendingPings c + 1)
          (set_pendingAck (<[nextNonce (nonce c) := OnAckPing t]> (pendingAck c))
             (set_nonce (nextNonce (nonce c)) c))), Returned).
Proof.
  intros Ht Hp Hn. cbn [step]. rewrite Ht. unfold sendPing.
  destruct (Z.leb_spec 10 (pendingPings c)); [lia|].
  unfold getNonce. cbv beta iota zeta. fold (nextNonce (nonce c)).
  rewrite pingBuffer_eq by (apply nonce_next_range; exact Hn). reflexivity.
Qed.

Lemma ping_ticks ver role ts : ∀ c,
  pingTimer c = true → 0 ≤ nonce c →
  pendingPings c + Z.of_nat (length ts) ≤ 10 →
  let c' := run ver role (PingTick <$> ts) c in
  pingTimer c' = true ∧ closeListener c' = closeListener c ∧ 0 ≤ nonce c' ∧
  pendingPings c' = pendingPings c + Z.of_nat (length ts) ∧
  sent c' = sent c ++ pingPackets (nonce c) (length ts) ∧
  emitted c' = emitted c.
Proof.
  induction ts as [|t ts IH]; intros c Ht Hn Hp.
  - cbn. rewrite app_nil_r. repeat split; try reflexivity; try assumption; lia.
  - cbn [fmap list_fmap length] in *. rewrite run_cons.
    rewrite step_pingTick by (try assumption; lia). cbn [fst].
    pose proof (nonce_next_range c Hn) as Hr. fold (nextNonce (nonce c)) in Hr.
    match goal with |- context [run ver role _ ?c1] => specialize (IH c1) end.
    cbn [pingTimer closeListener nonce pendingPings sent emitted sendRaw set_sent
           set_pendingPings set_pendingAck set_nonce] in IH.
    destruct IH as (I1 & I2 & I3 & I4 & I5 & I6); [assumption|lia|lia|].
    cbv zeta. rewrite I1, I2, I4, I5, I6. cbn [pingPackets].
    rewrite <- app_assoc. repeat split; try reflexivity; try assumption; lia.
Qed.

(** X14.  The ping timeout: from a state with no more than ten
    unanswered pings, ticks of the ping timer up to the tenth unanswered
    ping each send one PING datagram carrying the next nonce and emit
    nothing.  The tick after that sends no ping but runs
    [disconnect(true)]: it emits [close] and hands two bytes to the
    socket, 0 and 0 from the server-side class, 1 and 0 from the other,
    whose [close] event carries [forced = true]; the flag has taken the
    place of the DISCONNECT type byte.  [pendingAck] is cleared and the
    timer stopped, so that later ticks do nothing. *)
Theorem ping_timeout ver role ts t c :
  pingTimer c = true → closeListener c = true → 0 ≤ nonce c →
  pendingPings c + Z.of_nat (length ts) = 10 →
  let c10 := run ver role (PingTick <$> ts) c in
  let c11 := (step ver role (PingTick t) c10).1 in
  (pendingPings c10 = 10 ∧ emitted c10 = emitted c ∧
   sent c10 = sent c ++ pingPackets (nonce c) (length ts)) ∧
  (emitted c11 = emitted c ++ [match role with
                               | ServerSide => EvClose None None None
                               | ClientSide => EvClose (Some true) None None
                               end] ∧
   sent c11 = sent c10 ++ [match role with
                           | ServerSide => [0; 0]
                           | ClientSide => [1; 0]
                           end]) ∧
  (pingTimer c11 = false ∧ pendingAck c11 = ∅) ∧
  ∀ t', step ver role (PingTick t') c11 = (c11, Returned).
Proof.
  intros Ht Hl Hn Hp c10 c11.
  destruct (ping_ticks ver role ts c Ht Hn ltac:(lia)) as (I1 & I2 & I3 & I4 & I5 & I6).
  fold c10 in I1, I2, I3, I4, I5, I6.
  assert (E : step ver role (PingTick t) c10 = disconnect role (Some true) None None c10).
  { cbn [step]. rewrite I1. unfold sendPing.
    destruct (Z.leb_spec 10 (pendingPings c10)); [reflexivity|lia]. }
  set (e := match role with
            | ServerSide => EvClose None None None
            | ClientSide => EvClose (Some true) None None
            end).
  set (d := match role with ServerSide => [0; 0] | ClientSide => [1; 0] end).
  assert (He : isClose e = true) by (destruct role; reflexivity).
  assert (E11 : c11 = sendRaw d (emit e c10)).
  { unfold c11. rewrite E, disconnect_forced_eq. reflexivity. }
  assert (Hem : emit e c10
                = set_pendingAck ∅ (set_pingTimer false (set_closeListener false
                    (set_emitted (emitted c10 ++ [e]) c10)))).
  { unfold emit. cbn [closeListener set_emitted]. rewrite He, I2, Hl. reflexivity. }
  split; [|split; [|split]].
  - repeat split; [lia|assumption|assumption].
  - rewrite E11, Hem. cbn. rewrite I6. auto.
  - rewrite E11, Hem. split; reflexivity.
  - intros t'. rewrite E11, Hem. reflexivity.
Qed.

(** A new connection and eleven ticks of its ping timer, none of the
    pings answered. *)
Lemma ping_timeout_witness :
  let c10 := run 0 ServerSide (PingTick <$> [1; 2; 3; 4; 5; 6; 7; 8; 9; 10]) init in
  let c11 := (step 0 ServerSide (PingTick 11) c10).1 in
  pingTimer init = true ∧ closeListener init = true ∧ 0 ≤ nonce init ∧
  pendingPings c10 = 10 ∧
  sent c10 = pingPackets 0 10 ∧
  emitted c11 = [EvClose None None None] ∧
  sent c11 = pingPackets 0 10 ++ [[0; 0]] ∧
  pingTimer c11 = false ∧
  step 0 ServerSide (PingTick 12) c11 = (c11, Returned).
Proof.
  intros c10 c11.
  assert (H1 : pingTimer init = true) by reflexivity.
  assert (H2 : closeListener init = true) by reflexivity.
  assert (H3 : 0 ≤ nonce init) by (cbn; lia).
  destruct (ping_timeout 0 ServerSide [1; 2; 3; 4; 5; 6; 7; 8; 9; 10] 11 init H1 H2 H3
              ltac:(reflexivity))
    as ((Hp & _ & Hs) & (He & Hd) & (Ht & _) & Hn).
  split; [exact H1|]. split; [exact H2|]. split; [exact H3|].
  split; [exact Hp|]. split; [exact Hs|]. split; [exact He|].
  split; [exact (eq_trans Hd (f_equal (fun l => l ++ [[0; 0]]) Hs))|]. split; [exact Ht|exact (Hn 12)].
Defined.

(** ** After a close *)

Lemma step_closed_quiet ver role i c :
  (closeListener c = true → closeCount c = 0%nat) ∧
  (closeListener c = false → pingTimer c = false) →
  (closeListener (step ver role i c).1 = true → closeCount (step ver role i c).1 = 0%nat) ∧
  (closeListener (step ver role i c).1 = false → pingTimer (step ver role i c).1 = false).
Proof.
  intros [H1 H2].
  destruct (closeListener c) eqn:Hl;
    [specialize (H1 eq_refl); clear H2|specialize (H2 eq_refl); clear H1];
    destruct i, role; unfold_conn; conn_cases; (split; intros; close_arith; try congruence).
Qed.

(** X15.  Once a connection has emitted [close], however it got
    there, its ping timer is stopped: a tick of the ping timer changes
    nothing and sends nothing. *)
Theorem closed_connection_stops_pinging ver role inputs t :
  let c := run ver role inputs init in
  closeCount c ≠ 0%nat →
  pingTimer c = false ∧ step ver role (PingTick t) c = (c, Returned).
Proof.
  intros c Hc.
  assert (H : (closeListener c = true → closeCount c = 0%nat) ∧
              (closeListener c = false → pingTimer c = false)).
  { unfold c. clear c Hc. induction inputs as [|i inputs IH] using rev_ind.
    - split; [reflexivity|discriminate].
    - rewrite run_snoc. apply step_closed_quiet, IH. }
  destruct H as [H1 H2].
  assert (Ht : pingTimer c = false).
  { destruct (closeListener c); [specialize (H1 eq_refl); contradiction|auto]. }
  split; [exact Ht|]. cbn [step]. fold c. rewrite Ht. reflexivity.
Qed.

(** A connection closed by a one-byte DISCONNECT datagram. *)
Lemma closed_connection_stops_pinging_witness :
  let c := run 0 ClientSide [Data 0 [PacketType.DISCONNECT]] init in
  closeCount c ≠ 0%nat ∧ pingTimer c = false ∧
  step 0 ClientSide (PingTick 7) c = (c, Returned).
Proof.
  intros c.
  assert (Hc : closeCount c ≠ 0%nat) by (vm_compute; discriminate).
  split; [exact Hc|].
  exact (closed_connection_stops_pinging 0 ClientSide [Data 0 [PacketType.DISCONNECT]] 7 Hc).
Defined.

(** ** Messages that do not fit a record *)

Lemma writeHazelMessage_malformed m offset buf :
  ¬ wfMessage m → HazelBuffer.writeHazelMessage m offset buf = Throw RangeError.
Proof.
  intros Hm. unfold HazelBuffer.writeHazelMessage.
  destruct (Buffer.writeUInt16BE _ _ buf) as [[buf1 ?]|[]] eqn:E1; [|reflexivity].
  cbn [mbind result_bind rbind].
  unfold Buffer.writeUInt16BE in E1.
  destruct (Z.ltb_spec (Z.of_nat (length (data m))) 0); [discriminate|].
  destruct (Z.ltb_spec 65535 (Z.of_nat (length (data m)))); [discriminate|].
  cbn [orb] in E1.
  unfold Buffer.writeUInt8.
  destruct (Z.ltb_spec (tag m) 0); [reflexivity|].
  destruct (Z.ltb_spec 255 (tag m)); [reflexivity|].
  exfalso. apply Hm. unfold wfMessage. lia.
Qed.

Lemma writeMessages_malformed ms : ∀ cursor buf,
  Exists (fun m => ¬ wfMessage m) ms → 0 ≤ cursor →
  cursor + Z.of_nat (length (encodeRecords ms)) ≤ Z.of_nat (length buf) →
  writeMessages ms cursor buf = Throw RangeError.
Proof.
  induction ms as [|m ms IH]; intros cursor buf Hex Hc Hr.
  - apply Exists_nil in Hex. contradiction.
  - cbn [writeMessages encodeRecords] in *.
    assert (Hdec : wfMessage m ∨ ¬ wfMessage m) by (unfold wfMessage; lia).
    destruct Hdec as [Hm|Hm].
    + apply Exists_cons in Hex as [Hex|Hex]; [contradiction|].
      pose proof (recordLength m) as Hlen.
      rewrite app_assoc, length_app in Hr.
      rewrite writeHazelMessage_fits by (auto; lia).
      cbn [mbind result_bind rbind].
      apply IH; [exact Hex|lia|rewrite splice_length; lia].
    + rewrite writeHazelMessage_malformed by exact Hm. reflexivity.
Qed.

(** X16.  A message whose tag is not a byte or whose payload is longer
    than 65535 bytes cannot be sent: [sendNormal] fails and sends nothing;
    [sendReliable] fails too, sends nothing and registers no callback, but
    has already taken the next nonce. *)
Theorem send_rejects_malformed ver role ms c :
  Exists (fun m => ¬ wfMessage m) ms →
  step ver role (CallSendNormal ms) c = (c, Thrown RangeError) ∧
  step ver role (CallSendReliable ms) c
  = (set_nonce (Z.rem (nonce c + 1) 65535) c, Thrown RangeError).
Proof.
  intros Hex. split.
  - cbn [step]. unfold sendNormal, normalBuffer, HazelBuffer.writeByte.
    change (HazelBuffer.orZero None) with 0. rewrite messagesLength_encode.
    set (L := Z.of_nat (length (encodeRecords ms))).
    assert (Ha : Z.of_nat (length (Buffer.alloc (1 + L))) = 1 + L) by (apply alloc_length; lia).
    rewrite writeUInt8_ok by (unfold PacketType.NORMAL; lia).
    cbn [mbind result_bind rbind].
    rewrite writeMessages_malformed; [reflexivity|exact Hex|lia|].
    rewrite length_insert. fold L. lia.
  - cbn [step]. unfold sendReliable, getNonce. cbv beta iota zeta.
    set (n := Z.rem (nonce c + 1) 65535).
    destruct (reliableBuffer n ms) as [buf|[]] eqn:E; [exfalso|reflexivity].
    unfold reliableBuffer, HazelBuffer.writeByte, HazelBuffer.writeUInt16 in E.
    change (HazelBuffer.orZero None) with 0 in E.
    change (HazelBuffer.orZero (Some 1)) with 1 in E.
    rewrite messagesLength_encode in E.
    set (L := Z.of_nat (length (encodeRecords ms))) in *.
    assert (Ha : Z.of_nat (length (Buffer.alloc (3 + L))) = 3 + L) by (apply alloc_length; lia).
    rewrite writeUInt8_ok in E by (unfold PacketType.RELIABLE; lia).
    cbn [mbind result_bind rbind] in E.
    destruct (Buffer.writeUInt16BE n 1 _) as [[buf2 ?]|] eqn:E2; [|discriminate].
    cbn [mbind result_bind rbind] in E.
    assert (Hl2 : length buf2 = length (Buffer.alloc (3 + L))).
    { unfold Buffer.writeUInt16BE in E2. destruct (_ || _); [discriminate|].
      destruct (_ && _); [|discriminate]. inversion E2. rewrite !length_insert. reflexivity. }
    rewrite writeMessages_malformed in E; [discriminate|exact Hex|lia|].
    rewrite Hl2. fold L. lia.
Qed.

(** Two messages, the second with the tag 256. *)
Lemma send_rejects_malformed_witness :
  let ms := [{| tag := 7; data := [] |}; {| tag := 256; data := [] |}] in
  Exists (fun m => ¬ wfMessage m) ms ∧
  step 0 ServerSide (CallSendNormal ms) init = (init, Thrown RangeError) ∧
  step 0 ServerSide (CallSendReliable ms) init = (set_nonce 1 init, Thrown RangeError).
Proof.
  intros ms.
  assert (Hex : Exists (fun m => ¬ wfMessage m) ms).
  { apply Exists_cons. right. apply Exists_cons. left. unfold wfMessage. cbn. lia. }
  split; [exact Hex|].
  exact (send_rejects_malformed 0 ServerSide ms init Hex).
Defined.

(** ** Answered pings and repeated datagrams *)

Lemma ping_round ver role t r c :
  pingTimer c = true → pendingPings c < 10 → 0 ≤ nonce c →
  let n := nextNonce (nonce c) in
  run ver role [PingTick t;
                Data (t + r) [PacketType.ACKNOWLEDGEMENT; Z.shiftr n 8; Z.land n 255]] c
  = set_pendingAck (delete n (<[n := OnAckPing t]> (pendingAck c)))
      (set_lastPings (tail (lastPings c) ++ [r])
         (set_pendingPings (pendingPings c)
            (sendRaw [PacketType.PING; Z.shiftr n 8; Z.land n 255] (set_nonce n c)))).
Proof.
  intros Ht Hp Hn n.
  pose proof (nonce_next_range c Hn) as Hr. fold (nextNonce (nonce c)) in Hr. fold n in Hr.
  rewrite !run_cons. change (run ver role [] ?x) with x.
  rewrite step_pingTick by assumption. fold n. cbn [fst].
  destruct (uint16_split n) as (_ & _ & Hv); [exact Hr|].
  rewrite step_ack_long, Hv.
  cbn [pendingAck sendRaw set_sent set_pendingPings set_pendingAck].
  rewrite lookup_insert_eq. cbn [fst runCallback].
  cbn [pendingPings lastPings sendRaw set_sent set_pendingPings set_pendingAck set_nonce
         set_lastPings].
  replace (pendingPings c + 1 - 1) with (pendingPings c) by lia.
  replace (t + r - t) with r by lia. reflexivity.
Qed.

Lemma tail_snoc_drop (l : list Z) x : l ≠ [] → tail l ++ [x] = drop 1 (l ++ [x]).
Proof. destruct l; [congruence|reflexivity]. Qed.

Lemma answered_pings ver role rounds : ∀ c,
  pingTimer c = true → pendingPings c < 10 → 0 ≤ nonce c → lastPings c ≠ [] →
  let c' := run ver role (answeredPings (nonce c) rounds) c in
  emitted c' = emitted c ∧ pingTimer c' = true ∧ pendingPings c' = pendingPings c ∧
  sent c' = sent c ++ pingPackets (nonce c) (length rounds) ∧
  lastPings c' = drop (length rounds) (lastPings c ++ rounds.*2).
Proof.
  induction rounds as [|[t r] rounds IH]; intros c Ht Hp Hn Hl.
  - cbn. rewrite !app_nil_r. repeat split; try assumption; try reflexivity.
  - cbn [answeredPings length pingPackets] in *.
    cbv zeta.
    change (run ver role (PingTick t :: ?b :: ?rest) c)
      with (run ver role rest (run ver role [PingTick t; b] c)).
    rewrite ping_round by assumption.
    pose proof (nonce_next_range c Hn) as Hr. fold (nextNonce (nonce c)) in Hr.
    match goal with |- context [run ver role _ ?c1] => set (c1' := c1) end.
    assert (Hl1 : lastPings c1' = tail (lastPings c) ++ [r]) by reflexivity.
    specialize (IH c1'). cbv zeta in IH.
    change (nonce c1') with (nextNonce (nonce c)) in IH.
    destruct IH as (I1 & I2 & I3 & I5 & I6);
      [exact Ht|exact Hp|lia|rewrite Hl1; destruct (tail (lastPings c)); discriminate|].
    rewrite I1, I2, I3, I5, I6, Hl1.
    repeat split; try reflexivity.
    + change (sent c1') with (sent c ++ [[PacketType.PING;
                 Z.shiftr (nextNonce (nonce c)) 8; Z.land (nextNonce (nonce c)) 255]]).
      rewrite <- app_assoc. reflexivity.
    + rewrite tail_snoc_drop by exact Hl. cbn [fmap list_fmap snd].
      rewrite <- drop_app_le by (rewrite length_app; cbn; lia).
      rewrite drop_drop, <- app_assoc. reflexivity.
Qed.

(** X17.  A peer that answers every ping is never timed out.  When
    each ping is acknowledged before the next tick, then after any number
    of rounds, the nonce wrapping from 65534 to 0 on the way, the
    connection has emitted nothing, its ping timer still runs, the counter
    of unanswered pings is what it was, one PING datagram was sent per
    round, and the ring of round-trip times holds the most recent
    samples, the oldest ones shifted out. *)
Theorem answered_pings_keep_alive ver role rounds c :
  pingTimer c = true → pendingPings c < 10 → 0 ≤ nonce c →
  length (lastPings c) = 5%nat →
  let c' := run ver role (answeredPings (nonce c) rounds) c in
  emitted c' = emitted c ∧ pingTimer c' = true ∧ pendingPings c' = pendingPings c ∧
  sent c' = sent c ++ pingPackets (nonce c) (length rounds) ∧
  lastPings c' = drop (length rounds) (lastPings c ++ rounds.*2) ∧
  length (lastPings c') = 5%nat.
Proof.
  intros Ht Hp Hn Hl c'.
  destruct (answered_pings ver role rounds c Ht Hp Hn) as (I1 & I2 & I3 & I5 & I6).
  { destruct (lastPings c); [discriminate|congruence]. }
  fold c' in I1, I2, I3, I5, I6. repeat split; try assumption.
  rewrite I6, length_drop, length_app, length_fmap. lia.
Qed.

(** Six pings answered after 10 to 60 milliseconds by a connection
    whose last nonce was 65531: the pings carry the nonces 65532, 65533,
    65534, 0, 1 and 2, and the ring holds the last five round trips. *)
Lemma answered_pings_keep_alive_witness :
  let rounds := [(0, 10); (1500, 20); (3000, 30); (4500, 40); (6000, 50); (7500, 60)] in
  let c := set_nonce 65531 init in
  let c' := run 0 ServerSide (answeredPings 65531 rounds) c in
  emitted c' = [] ∧ pingTimer c' = true ∧ pendingPings c' = 0 ∧
  sent c' = [[12; 255; 252]; [12; 255; 253]; [12; 255; 254]; [12; 0; 0]; [12; 0; 1];
             [12; 0; 2]] ∧
  lastPings c' = [20; 30; 40; 50; 60].
Proof.
  intros rounds c c'.
  destruct (answered_pings_keep_alive 0 ServerSide rounds c)
    as (He & Ht & Hp & Hs & Hl & _); try reflexivity; try (cbn; lia).
  split; [exact He|]. split; [exact Ht|]. split; [exact Hp|]. split; [exact Hs|exact Hl].
Defined.

(** X18.  The connection keeps no record of the reliable nonces it has
    received: a RELIABLE datagram that is delivered twice is acknowledged
    twice, with the same acknowledgement, and its messages are emitted
    twice. *)
Theorem reliable_duplicate_redelivered ver role now1 now2 b1 b2 ms c :
  isByte b1 → isByte b2 → Forall wfMessage ms →
  let d := PacketType.RELIABLE :: b1 :: b2 :: encodeRecords ms in
  let a := [PacketType.ACKNOWLEDGEMENT; b1; b2; ackMask (pendingAck c) (b1 * 2 ^ 8 + b2)] in
  let c2 := run ver role [Data now1 d; Data now2 d] c in
  sent c2 = sent c ++ [a; a] ∧
  emitted c2 = emitted c ++ (EvMessage <$> ms) ++ (EvMessage <$> ms).
Proof.
  intros H1 H2 Hwf d a c2. unfold c2, d.
  rewrite !run_cons. change (run ver role [] ?x) with x.
  rewrite (step_reliable ver role now1) by assumption.
  rewrite (readMessages_records [PacketType.RELIABLE; b1; b2] ms _ Hwf). cbn [fst].
  rewrite (step_reliable ver role now2) by assumption.
  rewrite (readMessages_records [PacketType.RELIABLE; b1; b2] ms _ Hwf). cbn [fst].
  cbn [sent emitted pendingAck set_emitted sendRaw set_sent].
  rewrite <- !app_assoc. split; reflexivity.
Qed.

(** The same RELIABLE datagram with nonce 9, twice, to a new connection. *)
Lemma reliable_duplicate_redelivered_witness :
  let ms := [{| tag := 7; data := [1] |}] in
  let c2 := run 0 ServerSide [Data 0 [1; 0; 9; 0; 1; 7; 1]; Data 5 [1; 0; 9; 0; 1; 7; 1]] init in
  sent c2 = [[10; 0; 9; 255]; [10; 0; 9; 255]] ∧
  emitted c2 = [EvMessage {| tag := 7; data := [1] |}; EvMessage {| tag := 7; data := [1] |}].
Proof.
  intros ms c2.
  apply (reliable_duplicate_redelivered 0 ServerSide 0 5 0 9 ms init).
  - unfold isByte. lia.
  - unfold isByte. lia.
  - repeat constructor; cbn; lia.
Defined.

(** ** DISCONNECT packets with a reason *)

Lemma step_disconnect_client ver now flag rest c :
  step ver ClientSide (Data now (PacketType.DISCONNECT :: flag :: rest)) c
  = match parseDisconnect (PacketType.DISCONNECT :: flag :: rest) with
    | Ok e => (emit e c, Returned)
    | Throw e => (c, Thrown e)
    end.
Proof.
  cbn [step handleMessage].
  change (PacketType.DISCONNECT =? PacketType.NORMAL) with false.
  change ((PacketType.DISCONNECT =? PacketType.HELLO)
          || (PacketType.DISCONNECT =? PacketType.RELIABLE)) with false.
  change (PacketType.DISCONNECT =? PacketType.DISCONNECT) with true.
  cbn match. unfold handleDisconnect. cbn [length].
  destruct (Z.eqb_spec (Z.of_nat (S (S (length rest)))) 1); [lia|reflexivity].
Qed.

(** X19.  The connection class the client wraps parses an inbound
    DISCONNECT packet that carries a reason: the flag byte 1 means a
    graceful close ([forced] is false), the first byte of the record's
    payload is the reason, and a length-prefixed string after it, if the
    payload is longer than one byte, is the message, decoded as UTF-8:
    well-formed text arrives as it is.  The [close] event carries the
    three values; bytes after the record are ignored. *)
Theorem disconnect_packet_parsed ver now flag t reason text extra c :
  let body := reason :: packedBytes 5 (Z.of_nat (length text)) ++ text in
  let len := Z.of_nat (length body) in
  let packet := PacketType.DISCONNECT :: flag :: Z.shiftr len 8 :: Z.land len 255 :: t
                :: body ++ extra in
  len ≤ 65535 →
  step ver ClientSide (Data now packet) c
  = (emit (EvClose (Some (negb (flag =? 1))) (Some reason) (Some (Utf8.toString text))) c,
     Returned) ∧
  (Utf8.wellFormed text = true →
   step ver ClientSide (Data now packet) c
   = (emit (EvClose (Some (negb (flag =? 1))) (Some reason) (Some text)) c, Returned)) ∧
  step ver ClientSide
    (Data now (PacketType.DISCONNECT :: flag :: 0 :: 1 :: t :: reason :: extra)) c
  = (emit (EvClose (Some (negb (flag =? 1))) (Some reason) None) c, Returned).
Proof.
  intros body len packet Hlen.
  assert (Hstep : step ver ClientSide (Data now packet) c
                  = (emit (EvClose (Some (negb (flag =? 1))) (Some reason)
                             (Some (Utf8.toString text))) c, Returned)).
  { unfold packet. rewrite step_disconnect_client. unfold parseDisconnect.
    destruct (uint16_split len) as (_ & _ & Hv); [unfold len; lia|].
    pose proof (readHazelMessage_at [PacketType.DISCONNECT; flag] (Z.shiftr len 8)
                  (Z.land len 255) t (body ++ extra)) as Hm.
    cbn [app length] in Hm. change (Z.of_nat 2) with 2 in Hm. rewrite Hm. clear Hm.
    rewrite Hv.
    assert (Htake : take (Z.to_nat len) (body ++ extra) = body)
      by (unfold len; rewrite Nat2Z.id; apply take_app_length).
    rewrite Htake. cbn [mbind result_bind rbind data].
    assert (Hn : Z.of_nat (length text) < 2 ^ 28).
    { unfold len, body in Hlen. cbn [length] in Hlen. rewrite length_app in Hlen. lia. }
    destruct (Z.ltb_spec 1 (Z.of_nat (length body))) as [_|Hb].
    2:{ unfold body in Hb. cbn [length] in Hb. rewrite length_app in Hb.
        assert (packedBytes 5 (Z.of_nat (length text)) ≠ []).
        { rewrite packedBytes_S. destruct (_ <? 128); discriminate. }
        destruct (packedBytes 5 (Z.of_nat (length text))); [congruence|cbn in Hb; lia]. }
    change (HazelBuffer.readBoolean (PacketType.DISCONNECT :: flag :: ?l) (Some 1))
      with (Ok (A:=bool) (flag =? 1)).
    cbn [mbind result_bind rbind].
    change (HazelBuffer.readByte body None) with (Ok (A:=Z) reason).
    cbn [mbind result_bind rbind].
    pose proof (readString_prefixed text [reason] [] Hn) as Hs.
    rewrite app_nil_r in Hs. cbn [app length] in Hs.
    change (Z.of_nat 1) with 1 in Hs. unfold body. rewrite Hs. reflexivity. }
  split; [exact Hstep|]. split.
  - intros Hwf. rewrite Hstep, (toString_wellFormed text Hwf). reflexivity.
  - rewrite step_disconnect_client. reflexivity.
Qed.

(** A graceful DISCONNECT with the reason 4 and the message [bye]. *)
Lemma disconnect_packet_parsed_witness :
  step 0 ClientSide (Data 0 [9; 1; 0; 5; 0; 4; 3; 98; 121; 101]) init
  = (emit (EvClose (Some false) (Some 4) (Some [98; 121; 101])) init, Returned).
Proof.
  refine (proj1 (proj2 (disconnect_packet_parsed 0 0 1 0 4 [98; 121; 101] [] init _)) _).
  - vm_compute. discriminate.
  - reflexivity.
Defined.

(** ** The graceful disconnect on the wire *)

Lemma alloc_splice k bytes :
  Z.of_nat (length bytes) ≤ k →
  splice (Buffer.alloc k) 0 bytes = bytes ++ replicate (Z.to_nat k - length bytes) 0.
Proof.
  intros H. unfold splice, Buffer.alloc. change (Z.to_nat 0) with 0%nat.
  cbn [take app Nat.add]. rewrite drop_replicate. reflexivity.
Qed.

Lemma reasonBuffer_text reason s :
  0 ≤ reason ≤ 255 → js_length s = Z.of_nat (length (js_utf8 s)) → 0 < js_length s < 128 →
  reasonBuffer reason (Some s) = Ok (reason :: js_utf8 s ++ [0]).
Proof.
  intros Hr Hl Hn. unfold reasonBuffer, truthy.
  destruct (Z.eqb_spec (js_length s) 0) as [|_]; [lia|].
  rewrite getPackedUInt32Size_cases.
  destruct (Z.ltb_spec (js_length s) (2 ^ 7)) as [_|]; [|lia].
  set (n := js_length s) in *.
  assert (Ha : Z.of_nat (length (Buffer.alloc (1 + (1 + n)))) = 1 + (1 + n))
    by (apply alloc_length; lia).
  unfold HazelBuffer.writeByte. change (HazelBuffer.orZero None) with 0.
  rewrite writeUInt8_ok by lia. cbn [mbind result_bind rbind].
  rewrite splice_insert by lia.
  assert (Hp : removelast (packedBytes 5 (Z.of_nat (length (js_utf8 s)))) = []).
  { rewrite <- Hl. fold n. rewrite packedBytes_S. destruct (Z.ltb_spec n 128); [reflexivity|lia]. }
  pose proof (writeString_spliced s 1 (splice (Buffer.alloc (1 + (1 + n))) 0 [reason])) as Hw.
  cbv zeta in Hw. rewrite Hp, <- Hl in Hw. fold n in Hw.
  rewrite getPackedUInt32Size_cases in Hw.
  destruct (Z.ltb_spec n (2 ^ 7)) as [_|]; [|lia].
  rewrite Hw; [|lia|lia|rewrite splice_length; cbn [length]; lia].
  cbn [mbind result_bind rbind app]. f_equal.
  rewrite (splice_app _ 0 [reason]) by (cbn [length]; lia).
  rewrite alloc_splice by (cbn [length app]; lia).
  cbn [app length]. do 2 f_equal.
  replace (Z.to_nat (1 + (1 + n)) - S (length (js_utf8 s)))%nat with 1%nat by lia.
  reflexivity.
Qed.

Lemma gracefulBuffer_eq reasonBuf :
  Z.of_nat (length reasonBuf) ≤ 255 →
  gracefulBuffer false reasonBuf
  = Ok ([0; Z.of_nat (length reasonBuf); 0] ++ reasonBuf ++ [0; 0]).
Proof.
  intros Hl. unfold gracefulBuffer, HazelBuffer.writeByte, HazelBuffer.writeBoolean.
  change (HazelBuffer.orZero None) with 0. cbn [negb].
  set (L := Z.of_nat (length reasonBuf)) in *.
  assert (Ha : Z.of_nat (length (Buffer.alloc (5 + L))) = 5 + L) by (apply alloc_length; lia).
  rewrite writeUInt8_ok by (unfold PacketType.DISCONNECT; lia).
  cbn [mbind result_bind rbind]. rewrite splice_insert by lia.
  rewrite writeUInt8_ok by (rewrite ?splice_length; cbn [length]; lia).
  cbn [mbind result_bind rbind].
  rewrite splice_insert by (rewrite ?splice_length; cbn [length]; lia).
  rewrite splice_overwrite by (cbn [length]; lia).
  change (HazelBuffer.writeHazelMessage ?m None ?b)
    with (HazelBuffer.writeHazelMessage m (Some 0) b).
  rewrite writeHazelMessage_fits;
    [|unfold wfMessage; cbn [tag data]; fold L; lia|lia
     |rewrite splice_length; cbn [length data]; fold L; lia].
  cbn [mbind result_bind rbind data]. f_equal.
  rewrite splice_overwrite; [|lia|cbn [length]; lia|rewrite length_app; cbn; lia].
  rewrite alloc_splice by (rewrite length_app; cbn [length recordHeader data]; fold L; lia).
  unfold recordHeader. cbn [data tag]. fold L.
  rewrite Z.shiftr_div_pow2 by lia. change (2 ^ 8) with 256.
  rewrite Z.div_small by lia.
  change 255 with (Z.ones 8). rewrite Z.land_ones by lia. change (2 ^ 8) with 256.
  rewrite Z.mod_small by lia.
  rewrite <- app_assoc. do 2 f_equal. rewrite length_app. cbn [length].
  replace (Z.to_nat (5 + L) - (3 + length reasonBuf))%nat with 2%nat by lia.
  reflexivity.
Qed.

Lemma reasonBuffer_bare reason :
  0 ≤ reason ≤ 255 → reasonBuffer reason None = Ok [reason].
Proof.
  intros Hr. unfold reasonBuffer, truthy, HazelBuffer.writeByte.
  change (HazelBuffer.orZero None) with 0. change (Buffer.alloc (1 + 0)) with [0].
  rewrite writeUInt8_ok by (cbn [length]; lia). reflexivity.
Qed.

(** X20.  A graceful disconnect is not understood by the peer.  With a
    reason, and with or without a message (a non-empty one of fewer than
    128 single-byte characters), [disconnect] sends a datagram whose first
    byte is 0, the NORMAL type: the record header has overwritten the
    DISCONNECT byte and the flag.  A connection that receives it emits no
    [close] but one [message] event, whose tag is the reason. *)
Theorem graceful_disconnect_misread ver receiver now forced reason s c1 c2 :
  default false forced = false →
  0 ≤ reason ≤ 255 → js_length s = Z.of_nat (length (js_utf8 s)) → 0 < js_length s < 128 →
  let d := [0; js_length s + 2; 0; reason] ++ js_utf8 s ++ [0; 0; 0] in
  let d0 := [0; 1; 0; reason; 0; 0] in
  (step ver ClientSide (CallDisconnect forced (Some reason) (Some s)) c1
   = (sendRaw d c1, Returned) ∧
   step ver receiver (Data now d) c2
   = (set_emitted
        (emitted c2 ++ [EvMessage {| tag := reason; data := js_utf8 s ++ [0; 0; 0] |}]) c2,
      Returned)) ∧
  (step ver ClientSide (CallDisconnect forced (Some reason) None) c1
   = (sendRaw d0 c1, Returned) ∧
   step ver receiver (Data now d0) c2
   = (set_emitted (emitted c2 ++ [EvMessage {| tag := reason; data := [0; 0] |}]) c2,
      Returned)).
Proof.
  intros Hf Hr Hl Hn d d0. split; split.
  - cbn [step disconnect]. unfold disconnectClient. rewrite Hf. cbn [negb].
    rewrite reasonBuffer_text by assumption. cbn [mbind result_bind rbind].
    rewrite gracefulBuffer_eq by (cbn [length]; rewrite length_app; cbn [length]; lia).
    unfold d.
    replace (Z.of_nat (length (reason :: js_utf8 s ++ [0]))) with (js_length s + 2)
      by (cbn [length]; rewrite length_app; cbn [length]; lia).
    cbn [app]. rewrite <- app_assoc. reflexivity.
  - unfold d. change ([0; ?a; ?b; ?r] ++ ?l) with (PacketType.NORMAL :: a :: b :: r :: l).
    rewrite step_normal.
    pose proof (readMessages_short_record [PacketType.NORMAL] [] (js_length s + 2) 0 reason
                  (js_utf8 s ++ [0; 0; 0]) c2 (List.Forall_nil _)) as H.
    cbn [encodeRecords app length] in H. apply H.
    rewrite length_app. cbn [length]. lia.
  - cbn [step disconnect]. unfold disconnectClient. rewrite Hf. cbn [negb].
    rewrite reasonBuffer_bare by assumption. cbn [mbind result_bind rbind].
    rewrite gracefulBuffer_eq by (cbn [length]; lia). reflexivity.
  - unfold d0. change [0; 1; 0; reason; 0; 0] with (PacketType.NORMAL :: [1; 0; reason; 0; 0]).
    rewrite step_normal.
    pose proof (readMessages_short_record [PacketType.NORMAL] [] 1 0 reason [0; 0] c2
                  (List.Forall_nil _)) as H.
    cbn [encodeRecords app length] in H. apply H. lia.
Qed.

(** The reason 4 with the message [bye], sent by a new connection and received by another. *)
Lemma graceful_disconnect_misread_witness :
  step 0 ClientSide (CallDisconnect None (Some 4) (Some (jsAscii "bye"))) init
  = (sendRaw [0; 5; 0; 4; 98; 121; 101; 0; 0; 0] init, Returned) ∧
  step 0 ServerSide (Data 0 [0; 5; 0; 4; 98; 121; 101; 0; 0; 0]) init
  = (set_emitted [EvMessage {| tag := 4; data := [98; 121; 101; 0; 0; 0] |}] init, Returned).
Proof.
  refine (proj1 (graceful_disconnect_misread 0 ServerSide 0 None 4 (jsAscii "bye") init init
                   _ _ _ _)).
  - reflexivity.
  - lia.
  - reflexivity.
  - vm_compute. split; reflexivity.
Defined.

(** ** The server's table of connections *)

Lemma step_hello_server ver now tl c :
  let c' := (step ver ServerSide (Data now (PacketType.HELLO :: tl)) c).1 in
  closeCount c' = closeCount c → seenHello c = false ∧ seenHello c' = true.
Proof.
  cbn [step handleMessage].
  change (PacketType.HELLO =? PacketType.NORMAL) with false.
  change ((PacketType.HELLO =? PacketType.HELLO) || (PacketType.HELLO =? PacketType.RELIABLE))
    with true.
  cbn match. unfold handleMessagePacket, handleMessagePacketServer, disconnect.
  rewrite readByte_0.
  destruct tl as [|b1 [|b2 tl]].
  - conn_cases; intros; close_arith.
  - conn_cases; intros; close_arith.
  - destruct (maybeAck_long PacketType.HELLO b1 b2 tl c) as [n ->].
    conn_cases; intros; close_arith;
      match goal with
      | H : seenHello _ || _ = false |- _ => apply orb_false_elim in H as [H _]; auto
      end.
Qed.

Lemma step_alive ver role i c :
  closeListener c = true → pingTimer c = true →
  closeCount (step ver role i c).1 = closeCount c →
  closeListener (step ver role i c).1 = true ∧ pingTimer (step ver role i c).1 = true.
Proof.
  intros Hl Ht. destruct i, role; unfold_conn; conn_cases; intros; close_arith; auto.
Qed.

Lemma deliver_alive ver i c :
  (seenHello c = true ∨
   ∃ now tl, i = Data now (PacketType.HELLO :: tl)) →
  closeCount c = 0%nat → closeListener c = true → pingTimer c = true →
  (closeCount c <? closeCount (step ver ServerSide i c).1)%nat = false →
  alive (step ver ServerSide i c).1.
Proof.
  intros Hs Hc Hl Ht Hlt. apply Nat.ltb_ge in Hlt.
  pose proof (step_closeCount ver ServerSide i c) as Hge.
  assert (Heq : closeCount (step ver ServerSide i c).1 = closeCount c) by lia.
  destruct (step_alive ver ServerSide i c Hl Ht Heq) as [Hl' Ht'].
  split; [|split; [lia|split; assumption]].
  destruct Hs as [Hs|(now & tl & ->)].
  - apply step_seenHello, Hs.
  - apply (step_hello_server ver now tl c), Heq.
Qed.

Lemma tableInv_delete ip s :
  tableInv s → tableInv (Server.set_connections (delete ip (connections s)) s).
Proof.
  intros H ip' c Hc. cbn in Hc. apply lookup_delete_Some in Hc as [_ Hc]. apply (H ip' c Hc).
Qed.

Lemma deliver_inv ver ip i s : tableInv s → tableInv (Server.deliver ver ip i s).
Proof.
  intros H. unfold Server.deliver.
  destruct (connections s !! ip) as [c|] eqn:E; [|exact H].
  destruct (H ip c E) as [(Hs & Hc & Hl & Ht) Hin].
  destruct (_ <? _)%nat eqn:Hlt; [apply tableInv_delete, H|].
  intros ip' c' Hc'. cbn [connections Server.set_connections] in Hc'.
  destruct (decide (ip' = ip)) as [->|Hne].
  - rewrite lookup_insert_eq in Hc'. inversion Hc'; subst c'. split; [|exact Hin].
    apply deliver_alive; auto.
  - rewrite lookup_insert_ne in Hc' by congruence. apply (H ip' c' Hc').
Qed.

Lemma handleMessage_inv ver now msg remote s :
  tableInv s → tableInv (Server.handleMessage ver now msg remote s).
Proof.
  intros H. unfold Server.handleMessage. destruct msg as [|first tl]; [exact H|].
  cbv zeta. destruct (connections s !! Server.ipKey remote) as [c|] eqn:E.
  - apply deliver_inv, H.
  - destruct (Z.eqb_spec first PacketType.HELLO) as [->|Hne].
    + unfold Server.deliver. cbn [connections]. rewrite lookup_insert_eq.
      destruct (_ <? _)%nat eqn:Hlt.
      * intros ip' c' Hc'. cbn [connections Server.set_connections] in Hc'.
        apply lookup_delete_Some in Hc' as [Hne Hc'].
        rewrite lookup_insert_ne in Hc' by congruence.
        destruct (H ip' c' Hc') as [Ha Hin]. split; [exact Ha|].
        cbn [announced Server.set_connections]. apply elem_of_app. left. exact Hin.
      * intros ip' c' Hc'. cbn [connections Server.set_connections] in Hc'.
        destruct (decide (ip' = Server.ipKey remote)) as [->|Hne].
        -- rewrite lookup_insert_eq in Hc'. inversion Hc'; subst c'. split.
           ++ apply (deliver_alive ver (Data now (PacketType.HELLO :: tl)) Conn.init);
                eauto.
           ++ cbn [announced Server.set_connections]. apply elem_of_app. right. apply list_elem_of_singleton. reflexivity.
        -- rewrite !lookup_insert_ne in Hc' by congruence.
           destruct (H ip' c' Hc') as [Ha Hin]. split; [exact Ha|].
           cbn [announced Server.set_connections]. apply elem_of_app. left. exact Hin.
    + apply deliver_inv, H.
Qed.

Lemma server_run_snoc ver inputs i s :
  Server.run ver (inputs ++ [i]) s = Server.step ver i (Server.run ver inputs s).
Proof. unfold Server.run. rewrite foldl_app. reflexivity. Qed.

Lemma reachable_tableInv ver inputs : tableInv (Server.run ver inputs Server.init).
Proof.
  induction inputs as [|i inputs IH] using rev_ind.
  - intros ip c Hc. cbn in Hc. rewrite lookup_empty in Hc. discriminate.
  - rewrite server_run_snoc. destruct i as [now msg remote|ip i|ip]; cbn [Server.step].
    + apply handleMessage_inv, IH.
    + apply deliver_inv, IH.
    + apply tableInv_delete, IH.
Qed.



Lemma ackMask_empty n : ackMask ∅ n = 255.
Proof.
  assert (Hhas : ∀ k, has ∅ k = false) by (intros k; unfold has; rewrite lookup_empty; reflexivity).
  unfold ackMask. change (seqZ 1 8) with [1; 2; 3; 4; 5; 6; 7; 8]. cbn [foldl].
  rewrite !Hhas. reflexivity.
Qed.

Lemma step_hello_fresh ver now b1 b2 payload :
  isByte b1 → isByte b2 →
  step ver ServerSide (Data now (PacketType.HELLO :: b1 :: b2 :: ver :: payload)) Conn.init
  = (emit (EvHello payload)
       (set_seenHello true
          (sendRaw [PacketType.ACKNOWLEDGEMENT; b1; b2; 255] Conn.init)), Returned).
Proof.
  intros H1 H2. cbn [step handleMessage].
  change (PacketType.HELLO =? PacketType.NORMAL) with false.
  change ((PacketType.HELLO =? PacketType.HELLO) || (PacketType.HELLO =? PacketType.RELIABLE))
    with true.
  cbn match. unfold handleMessagePacket, handleMessagePacketServer.
  cbn [length].
  destruct (Z.ltb_spec (Z.of_nat (S (S (S (S (length payload)))))) 3); [lia|].
  rewrite maybeAck_reliable by assumption.
  change (pendingAck Conn.init) with (∅ : gmap Z Callback). rewrite ackMask_empty.
  rewrite readByte_0. change (PacketType.HELLO =? PacketType.HELLO) with true. cbn match.
  destruct (Z.ltb_spec (Z.of_nat (S (S (S (S (length payload)))))) 4); [lia|].
  cbn [seenHello sendRaw set_sent Conn.init orb]. rewrite readByte_3.
  rewrite Z.eqb_refl. cbn [negb]. rewrite slice_payload. reflexivity.
Qed.

Lemma handleMessage_hello ver now b1 b2 payload remote s :
  connections s !! Server.ipKey remote = None → isByte b1 → isByte b2 →
  Server.handleMessage ver now (PacketType.HELLO :: b1 :: b2 :: ver :: payload) remote s
  = {| connections :=
         <[Server.ipKey remote :=
             emit (EvHello payload)
               (set_seenHello true
                  (sendRaw [PacketType.ACKNOWLEDGEMENT; b1; b2; 255] Conn.init))]>
           (connections s);
       announced := announced s ++ [Server.ipKey remote] |}.
Proof.
  intros Hnew H1 H2.
  unfold Server.handleMessage. cbv zeta. rewrite Hnew.
  change (PacketType.HELLO =? PacketType.HELLO) with true. cbn match.
  unfold Server.deliver. cbn [connections]. rewrite lookup_insert_eq.
  rewrite step_hello_fresh by assumption. cbn [fst].
  set (c := emit _ _).
  change ((closeCount Conn.init <? closeCount c)%nat) with false. cbn match.
  unfold Server.set_connections. cbn [connections announced].
  rewrite insert_insert_eq. reflexivity.
Qed.

(** X22.  A HELLO of the right version from an endpoint that is not in
    the table: the server announces a new connection and stores it under
    the endpoint's key; the connection has acknowledged the HELLO's nonce
    with all eight mask bits set and emitted [hello] with the payload. *)
Theorem server_accepts_hello ver now b1 b2 payload remote s :
  connections s !! Server.ipKey remote = None → isByte b1 → isByte b2 →
  let s' := Server.handleMessage ver now (PacketType.HELLO :: b1 :: b2 :: ver :: payload)
              remote s in
  announced s' = announced s ++ [Server.ipKey remote] ∧
  (∀ ip, ip ≠ Server.ipKey remote → connections s' !! ip = connections s !! ip) ∧
  ∃ c, connections s' !! Server.ipKey remote = Some c ∧
       sent c = [[PacketType.ACKNOWLEDGEMENT; b1; b2; 255]] ∧
       emitted c = [EvHello payload] ∧ seenHello c = true ∧ pingTimer c = true.
Proof.
  intros Hnew H1 H2 s'. unfold s'. rewrite handleMessage_hello by assumption.
  cbn [connections announced]. split; [reflexivity|]. split.
  - intros ip Hne. apply lookup_insert_ne. congruence.
  - eexists. split; [apply lookup_insert_eq|]. repeat split.
Qed.

(** The first datagram of a server: a HELLO of version 0 with a one-byte payload. *)
Lemma server_accepts_hello_witness :
  let remote := {| address := "127.0.0.1"; port := 1337 |} in
  let s' := Server.handleMessage 0 0 [8; 0; 1; 0; 5] remote Server.init in
  announced s' = ["127.0.0.1:1337"%string] ∧
  ∃ c, connections s' !! "127.0.0.1:1337"%string = Some c ∧
       sent c = [[10; 0; 1; 255]] ∧ emitted c = [EvHello [5]].
Proof.
  intros remote s'.
  destruct (server_accepts_hello 0 0 0 1 [5] remote Server.init) as (Ha & _ & c & Hc & Hs & He & _).
  - reflexivity.
  - unfold isByte. lia.
  - unfold isByte. lia.
  - split; [exact Ha|]. exists c. split; [exact Hc|]. split; [exact Hs|exact He].
Defined.

Lemma hello_invalid_closes ver now tl c :
  (length tl < 3)%nat ∨ (∃ b1 b2 v payload, tl = b1 :: b2 :: v :: payload ∧ v ≠ ver) →
  closeCount (step ver ServerSide (Data now (PacketType.HELLO :: tl)) c).1
  = S (closeCount c).
Proof.
  intros H. cbn [step handleMessage].
  change (PacketType.HELLO =? PacketType.NORMAL) with false.
  change ((PacketType.HELLO =? PacketType.HELLO) || (PacketType.HELLO =? PacketType.RELIABLE))
    with true.
  cbn match. unfold handleMessagePacket, handleMessagePacketServer, disconnect.
  rewrite readByte_0.
  destruct H as [H|(b1 & b2 & v & payload & -> & Hv)].
  - destruct tl as [|b1 [|b2 [|v tl]]]; [| | |cbn in H; lia].
    + conn_cases; close_arith.
    + conn_cases; close_arith.
    + destruct (maybeAck_long PacketType.HELLO b1 b2 [] c) as [n ->].
      cbn [length]. change (Z.of_nat 3 <? 3) with false. change (Z.of_nat 3 <? 4) with true.
      rewrite orb_true_r. conn_cases; close_arith.
  - destruct (maybeAck_long PacketType.HELLO b1 b2 (v :: payload) c) as [n ->].
    rewrite readByte_3.
    conn_cases; close_arith.
Qed.

(** X23.  Datagrams from an endpoint that is not in the table.  An
    empty datagram and one whose first byte is not HELLO are dropped: no
    connection is created and nothing is announced.  A HELLO that is too
    short or carries another version is announced as a connection, but that
    connection closes at once and is not kept: the table is unchanged. *)
Theorem server_ignores_strangers ver now remote s :
  connections s !! Server.ipKey remote = None →
  Server.handleMessage ver now [] remote s = s ∧
  (∀ first tl, first ≠ PacketType.HELLO →
     Server.handleMessage ver now (first :: tl) remote s = s) ∧
  (∀ tl, (length tl < 3)%nat ∨ (∃ b1 b2 v payload, tl = b1 :: b2 :: v :: payload ∧ v ≠ ver) →
     Server.handleMessage ver now (PacketType.HELLO :: tl) remote s
     = {| connections := connections s;
          announced := announced s ++ [Server.ipKey remote] |}).
Proof.
  intros Hnew. split; [reflexivity|split].
  - intros first tl Hne. unfold Server.handleMessage. cbv zeta. rewrite Hnew.
    destruct (Z.eqb_spec first PacketType.HELLO); [contradiction|].
    unfold Server.deliver. rewrite Hnew. reflexivity.
  - intros tl Hbad. unfold Server.handleMessage. cbv zeta. rewrite Hnew.
    change (PacketType.HELLO =? PacketType.HELLO) with true. cbn match.
    unfold Server.deliver. cbn [connections]. rewrite lookup_insert_eq.
    rewrite (hello_invalid_closes ver now tl Conn.init Hbad).
    change (closeCount Conn.init) with 0%nat. cbn match.
    unfold Server.set_connections. cbn [connections announced].
    rewrite delete_insert_eq, delete_id by exact Hnew. reflexivity.
Qed.

(** A NORMAL datagram and a HELLO of another version as the first datagram of a server. *)
Lemma server_ignores_strangers_witness :
  let remote := {| address := "127.0.0.1"; port := 1337 |} in
  Server.handleMessage 0 0 [0; 0; 1; 7; 1] remote Server.init = Server.init ∧
  Server.handleMessage 0 0 [8; 0; 1; 1] remote Server.init
  = {| connections := ∅; announced := ["127.0.0.1:1337"%string] |}.
Proof.
  intros remote.
  destruct (server_ignores_strangers 0 0 remote Server.init) as (_ & H1 & H2);
    [reflexivity|].
  split.
  - apply H1. discriminate.
  - apply (H2 [0; 1; 1]). right. exists 0, 1, 1, []. split; [reflexivity|discriminate].
Defined.

Lemma closing_input ver i c :
  seenHello c = true →
  (∃ now tl, i = Data now (PacketType.HELLO :: tl))
  ∨ (∃ now tl, i = Data now (PacketType.DISCONNECT :: tl))
  ∨ (∃ forced reason message, i = CallDisconnect forced reason message) →
  (closeCount c <? closeCount (step ver ServerSide i c).1)%nat = true.
Proof.
  intros Hs Hi. apply Nat.ltb_lt.
  destruct Hi as [(now & tl & ->)|[(now & tl & ->)|(forced & reason & message & ->)]].
  - pose proof (step_closeCount ver ServerSide (Data now (PacketType.HELLO :: tl)) c) as Hge.
    destruct (Nat.eq_dec (closeCount (step ver ServerSide (Data now (PacketType.HELLO :: tl)) c).1)
                (closeCount c)) as [Heq|Hne]; [|lia].
    destruct (step_hello_server ver now tl c Heq) as [Hf _]. congruence.
  - cbn [step handleMessage handleDisconnect fst].
    change (PacketType.DISCONNECT =? PacketType.NORMAL) with false.
    change ((PacketType.DISCONNECT =? PacketType.HELLO)
            || (PacketType.DISCONNECT =? PacketType.RELIABLE)) with false.
    change (PacketType.DISCONNECT =? PacketType.DISCONNECT) with true.
    cbn match. cbn [fst]. unfold closeCount. rewrite emitted_emit, closes_app, closes_one.
    cbn [isClose]. lia.
  - cbn [step disconnect]. rewrite disconnectServer_eq. cbn [fst].
    unfold closeCount. cbn [emitted sendRaw set_sent].
    rewrite emitted_emit, closes_app, closes_one. cbn [isClose]. lia.
Qed.

(** X24.  The table forgets an endpoint as soon as its connection
    closes.  In a state the server has reached, a HELLO or a DISCONNECT
    datagram from an endpoint of the table, or a call of [disconnect] on
    its connection, removes the endpoint; and a datagram never touches the
    entry of another endpoint. *)
Theorem server_evicts_on_close ver inputs now tl remote forced reason message :
  let s := Server.run ver inputs Server.init in
  let ip := Server.ipKey remote in
  is_Some (connections s !! ip) →
  connections (Server.handleMessage ver now (PacketType.HELLO :: tl) remote s) !! ip = None ∧
  connections (Server.handleMessage ver now (PacketType.DISCONNECT :: tl) remote s) !! ip
  = None ∧
  connections (Server.step ver (OnConnection ip (CallDisconnect forced reason message)) s)
    !! ip = None ∧
  ∀ msg ip', ip' ≠ ip →
    connections (Server.handleMessage ver now msg remote s) !! ip' = connections s !! ip'.
Proof.
  intros s ip [c Hc].
  destruct (reachable_tableInv ver inputs ip c Hc) as [(Hs & _) _].
  assert (Hev : ∀ i,
    (∃ now tl, i = Data now (PacketType.HELLO :: tl))
    ∨ (∃ now tl, i = Data now (PacketType.DISCONNECT :: tl))
    ∨ (∃ forced reason message, i = CallDisconnect forced reason message) →
    connections (Server.deliver ver ip i s) !! ip = None).
  { intros i Hi. unfold Server.deliver. rewrite Hc.
    rewrite (closing_input ver i c Hs Hi). cbn [connections Server.set_connections].
    apply lookup_delete_eq. }
  split; [|split; [|split]].
  - unfold Server.handleMessage. cbv zeta. fold ip. rewrite Hc. apply Hev. eauto.
  - unfold Server.handleMessage. cbv zeta. fold ip. rewrite Hc. apply Hev. eauto 6.
  - cbn [Server.step]. apply Hev. eauto 8.
  - intros msg ip' Hne. unfold Server.handleMessage.
    destruct msg as [|first rest]; [reflexivity|]. cbv zeta. fold ip. rewrite Hc.
    unfold Server.deliver. rewrite Hc.
    destruct (_ <? _)%nat; cbn [connections Server.set_connections].
    + apply lookup_delete_ne. congruence.
    + apply lookup_insert_ne. congruence.
Qed.

(** A server that has accepted one HELLO receives a second one, or a DISCONNECT, from the same endpoint. *)
Lemma server_evicts_on_close_witness :
  let remote := {| address := "127.0.0.1"; port := 1337 |} in
  let s := Server.run 0 [Datagram 0 [8; 0; 1; 0] remote] Server.init in
  is_Some (connections s !! Server.ipKey remote) ∧
  connections (Server.handleMessage 0 5 [8; 0; 2; 0] remote s) !! Server.ipKey remote = None ∧
  connections (Server.handleMessage 0 5 [9] remote s) !! Server.ipKey remote = None.
Proof.
  intros remote s.
  assert (H : is_Some (connections s !! Server.ipKey remote)).
  { eexists. vm_compute. reflexivity. }
  split; [exact H|].
  destruct (server_evicts_on_close 0 [Datagram 0 [8; 0; 1; 0] remote] 5 [0; 2; 0] remote
              None None None H) as (H1 & _ & _ & _).
  destruct (server_evicts_on_close 0 [Datagram 0 [8; 0; 1; 0] remote] 5 [] remote
              None None None H) as (_ & H2 & _ & _).
  split; [exact H1|exact H2].
Defined.

(** ** The client *)

(** [sendReliable] is [sendRawReliable] on the buffer it has built and
    the nonce it has taken. *)
Lemma sendReliable_sendRawReliable ms c :
  sendReliable ms c
  = match reliableBuffer (getNonce c).2 ms with
    | Ok buf => (Client.sendRawReliable buf (getNonce c).2 (getNonce c).1, Returned)
    | Throw e => ((getNonce c).1, Thrown e)
    end.
Proof. unfold sendReliable, getNonce. cbv beta iota zeta. cbn [fst snd]. reflexivity. Qed.

Lemma helloBuffer_eq ver n msg :
  0 ≤ n ≤ 65535 → 0 ≤ ver ≤ 255 →
  Client.helloBuffer ver n msg
  = Ok (PacketType.HELLO :: Z.shiftr n 8 :: Z.land n 255 :: ver :: default [] msg).
Proof.
  intros Hn Hv. unfold Client.helloBuffer, HazelBuffer.writeByte, HazelBuffer.writeUInt16.
  change (HazelBuffer.orZero None) with 0. change (HazelBuffer.orZero (Some 1)) with 1.
  change (HazelBuffer.orZero (Some 3)) with 3.
  set (L := match msg with Some m => Z.of_nat (length m) | None => 0 end).
  assert (HL : L = Z.of_nat (length (default [] msg))) by (destruct msg; reflexivity).
  assert (Ha : Z.of_nat (length (Buffer.alloc (4 + L))) = 4 + L) by (apply alloc_length; lia).
  rewrite writeUInt8_ok by (unfold PacketType.HELLO; lia).
  cbn [mbind result_bind rbind]. rewrite splice_insert by lia.
  rewrite writeUInt16BE_ok by (rewrite ?splice_length; cbn [length]; lia).
  cbn [mbind result_bind rbind].
  rewrite (splice_app _ 0 [PacketType.HELLO]) by (cbn [length]; lia). cbn [app].
  rewrite writeUInt8_ok by (rewrite ?splice_length; cbn [length]; lia).
  cbn [mbind result_bind rbind].
  rewrite splice_insert by (rewrite ?splice_length; cbn [length]; lia).
  rewrite (splice_app _ 0 [_; _; _] [ver]) by (cbn [length]; lia). cbn [app].
  destruct msg as [m|]; cbn [default] in *.
  - rewrite copy_fits; [|lia|rewrite splice_length; cbn [length]; lia].
    cbn [mbind result_bind rbind]. f_equal.
    rewrite (splice_app _ 0 [_; _; _; _] m) by (cbn [length]; lia).
    apply splice_all. cbn [length app]. lia.
  - reflexivity.
Qed.

(** X25.  [connect] on a client that is not connected takes the next
    nonce, sends one HELLO datagram (type byte, nonce, version, payload)
    through [sendRawReliable] and leaves its promise pending under that
    nonce; on a client that is connected it throws and sends nothing. *)
Theorem client_connect_sends_hello ver msg s :
  0 ≤ ver ≤ 255 → 0 ≤ nonce (connection s) →
  let n := Z.rem (nonce (connection s) + 1) 65535 in
  let hello := PacketType.HELLO :: Z.shiftr n 8 :: Z.land n 255 :: ver :: default [] msg in
  let id := length (reliables (connection s)) in
  (connected s = false →
   ∃ c', Client.call ver (CallConnect msg) s
         = ({| connection := c'; connected := false; awaiting := awaiting s ++ [id];
               connectedEvents := connectedEvents s |}, Completed) ∧
         sent c' = sent (connection s) ++ [hello] ∧
         promiseOf id c' = Some Pending ∧
         pendingAck c' !! n = Some (OnAckReliable id) ∧ nonce c' = n) ∧
  (connected s = true →
   Client.call ver (CallConnect msg) s = (s, Failed "Already connected!")).
Proof.
  intros Hv Hn n hello id. split; intros Hc; cbn [Client.call]; unfold Client.connect;
    rewrite Hc; [|reflexivity].
  unfold getNonce. cbv beta iota zeta. fold n.
  rewrite helloBuffer_eq by (try apply nonce_next_range; assumption). fold hello.
  eexists. split; [reflexivity|]. unfold Client.sendRawReliable.
  cbn [sent reliables pendingAck nonce set_pendingAck sendRaw set_sent set_reliables set_nonce].
  split; [reflexivity|]. split; [|split; [apply lookup_insert_eq|reflexivity]].
  unfold promiseOf.
  cbn [reliables set_pendingAck sendRaw set_sent set_reliables set_nonce].
  rewrite lookup_app_r by lia. rewrite Nat.sub_diag. reflexivity.
Qed.

(** [connect] with a two-byte payload on a new client. *)
Lemma client_connect_sends_hello_witness :
  ∃ c', Client.call 0 (CallConnect (Some [5; 6])) Client.init
        = ({| connection := c'; connected := false; awaiting := [0%nat];
              connectedEvents := 0 |}, Completed) ∧
        sent c' = [[8; 0; 1; 0; 5; 6]] ∧ promiseOf 0 c' = Some Pending.
Proof.
  destruct (client_connect_sends_hello 0 (Some [5; 6]) Client.init) as [H _];
    [lia|cbn; lia|].
  destruct (H eq_refl) as (c' & Hcall & Hsent & Hp & _).
  exists c'. split; [exact Hcall|]. split; [exact Hsent|exact Hp].
Defined.

Lemma step_promise_nodata ver role i c id r r' :
  (∀ now msg, i ≠ Data now msg) →
  reliables c !! id = Some r →
  reliables (step ver role i c).1 !! id = Some r' →
  r_promise r' = r_promise r ∨ r_promise r' = Rejected.
Proof.
  intros Hi Hr.
  assert (Hlt : (id < length (reliables c))%nat) by (eapply lookup_lt_Some, Hr).
  destruct i as [now msg| | | | |]; [destruct (Hi now msg eq_refl)| | | | |];
    destruct role; unfold_conn; conn_cases;
    repeat match goal with
           | |- context [alter ?f ?n (reliables c) !! id] =>
               destruct (decide (n = id)) as [->|];
               [rewrite list_lookup_alter_eq|rewrite list_lookup_alter_ne by assumption]
           | |- context [(reliables c ++ _) !! id] => rewrite lookup_app_l by exact Hlt
           end;
    rewrite ?Hr; cbn [fmap option_fmap option_map]; intros; simplify_eq; auto;
    cbn; destruct (r_promise _); auto.
Qed.

Lemma step_noResolved ver role i c :
  (∀ now msg, i ≠ Data now msg) → noResolved c → noResolved (step ver role i c).1.
Proof.
  intros Hi Hc id r' Hr'.
  destruct (reliables c !! id) as [r|] eqn:Hr.
  - destruct (step_promise_nodata ver role i c id r r' Hi Hr Hr') as [->| ->];
      [exact (Hc id r Hr)|discriminate].
  - destruct (step_reliable_new ver role i c id r' Hr Hr') as (_ & _ & ->). discriminate.
Qed.

Lemma runThens_quiet s :
  noResolved (connection s) → Client.runThens s = s.
Proof.
  intros Hn.
  assert (Hf : ∀ id, Client.isResolved (connection s) id = false).
  { intros id. unfold Client.isResolved, promiseOf.
    destruct (reliables (connection s) !! id) as [r|] eqn:E; [|reflexivity].
    cbn. specialize (Hn id r E). destruct (r_promise r); congruence. }
  unfold Client.runThens.
  assert (H1 : ∀ l, List.filter (Client.isResolved (connection s)) l = []).
  { induction l as [|a l IH]; [reflexivity|]. cbn. rewrite Hf. exact IH. }
  assert (H2 : ∀ l, List.filter (fun id => negb (Client.isResolved (connection s) id)) l = l).
  { induction l as [|a l IH]; [reflexivity|]. cbn. rewrite Hf. cbn. f_equal. exact IH. }
  rewrite H1, H2. cbn [length]. rewrite Nat.add_0_r. destruct s; reflexivity.
Qed.

Lemma noResolved_sendRawReliable data n c :
  noResolved c → noResolved (Client.sendRawReliable data n c).
Proof.
  intros Hc id r Hr. unfold Client.sendRawReliable in Hr.
  cbn [reliables set_pendingAck sendRaw set_sent set_reliables] in Hr.
  apply lookup_snoc_Some in Hr as [[_ Hr]|[_ <-]]; [exact (Hc id r Hr)|discriminate].
Qed.

Lemma client_step_quiet ver i s :
  isData i = false →
  connected s = false ∧ connectedEvents s = 0%nat ∧ noResolved (connection s) →
  connected (Client.step ver i s).1 = false ∧ connectedEvents (Client.step ver i s).1 = 0%nat
  ∧ noResolved (connection (Client.step ver i s).1).
Proof.
  intros Hi (Hc & He & Hn). unfold Client.step.
  assert (Hcall : connected (Client.call ver i s).1 = false
                  ∧ connectedEvents (Client.call ver i s).1 = 0%nat
                  ∧ noResolved (connection (Client.call ver i s).1)).
  { destruct i as [msg|forced reason message|i]; cbn [Client.call].
    - unfold Client.connect. rewrite Hc. unfold getNonce. cbv beta iota zeta.
      destruct (Client.helloBuffer _ _ _) as [hello|e]; cbn [fst connected connectedEvents connection].
      + split; [reflexivity|]. split; [exact He|].
        apply noResolved_sendRawReliable. exact Hn.
      + auto.
    - unfold Client.disconnect. rewrite Hc. cbn. auto.
    - destruct (step ver ClientSide i (connection s)) as [c o] eqn:E.
      cbn [fst connected connectedEvents connection].
      split; [exact Hc|]. split; [exact He|].
      replace c with (step ver ClientSide i (connection s)).1 by (rewrite E; reflexivity).
      apply step_noResolved; [|exact Hn].
      intros now msg ->. discriminate. }
  destruct (Client.call ver i s) as [s' o]. cbn [fst] in *.
  destruct Hcall as (Hc' & He' & Hn'). rewrite runThens_quiet by exact Hn'. auto.
Qed.

(** X26.  A client never becomes connected.  Nothing in the class
    hands an inbound datagram to the wrapped connection, and only an
    acknowledgement resolves the promise on which [connect] waits: after
    any sequence of method calls and timer ticks [connected] is false, no
    [connected] event has been emitted, and [disconnect] throws the error
    whose message is "Already connected!". *)
Theorem client_never_connected ver inputs :
  Forall (fun i => isData i = false) inputs →
  let s := Client.run ver inputs Client.init in
  connected s = false ∧ connectedEvents s = 0%nat ∧
  ∀ forced reason message,
    Client.step ver (CallClientDisconnect forced reason message) s
    = (s, Failed "Already connected!").
Proof.
  intros Hin s.
  assert (H : connected s = false ∧ connectedEvents s = 0%nat ∧ noResolved (connection s)).
  { unfold s. clear s. induction inputs as [|i inputs IH] using rev_ind.
    - split; [reflexivity|]. split; [reflexivity|]. intros id r Hr. discriminate.
    - apply Forall_app in Hin as [Hin Hi]. apply List.Forall_inv in Hi.
      unfold Client.run. rewrite foldl_app. cbn [foldl].
      apply client_step_quiet; [exact Hi|]. apply IH, Hin. }
  destruct H as (Hc & He & Hn). split; [exact Hc|]. split; [exact He|].
  intros forced reason message. unfold Client.step. cbn [Client.call].
  unfold Client.disconnect. rewrite Hc. cbn [negb]. rewrite runThens_quiet by exact Hn.
  reflexivity.
Qed.

(** Two calls of [connect] with a retransmission and a ping in between. *)
Lemma client_never_connected_witness :
  let inputs := [CallConnect None; OfConnection (RetxTick 0); OfConnection (PingTick 1500);
                 CallConnect (Some [1])] in
  let s := Client.run 0 inputs Client.init in
  Forall (fun i => isData i = false) inputs ∧
  connected s = false ∧
  Client.step 0 (CallClientDisconnect None None None) s = (s, Failed "Already connected!").
Proof.
  intros inputs s.
  assert (Hin : Forall (fun i => isData i = false) inputs) by (repeat constructor).
  split; [exact Hin|].
  destruct (client_never_connected 0 inputs Hin) as (Hc & _ & Hd).
  split; [exact Hc|exact (Hd None None None)].
Defined.

Lemma connect_fresh ver payload :
  0 ≤ ver ≤ 255 →
  Client.step ver (CallConnect payload) Client.init
  = ({| connection :=
          Client.sendRawReliable
            (PacketType.HELLO :: 0 :: 1 :: ver :: default [] payload) 1
            (set_nonce 1 Conn.init);
        connected := false; awaiting := [0%nat]; connectedEvents := 0 |}, Completed).
Proof.
  intros Hv. unfold Client.step. cbn [Client.call]. unfold Client.connect.
  cbn [connected Client.init]. unfold getNonce. cbv beta iota zeta.
  change (Z.rem (nonce (connection Client.init) + 1) 65535) with 1.
  rewrite helloBuffer_eq by lia.
  change (Z.shiftr 1 8) with 0. change (Z.land 1 255) with 1.
  rewrite runThens_quiet; [reflexivity|].
  cbn [connection]. apply noResolved_sendRawReliable. intros id r Hr. discriminate.
Qed.

(** X27.  The handshake, end to end.  [connect] on a new client sends
    the HELLO with nonce 1; a server that does not know the sender answers
    it with the acknowledgement of nonce 1, stores a connection and emits
    [hello] with the payload.  If that acknowledgement is emitted as [data]
    on the client's connection, the promise of [connect] is resolved, the
    client becomes connected and emits [connected] once, and no further
    datagram has been sent. *)
Theorem handshake_completes ver now now' payload remote srv :
  0 ≤ ver ≤ 255 → connections srv !! Server.ipKey remote = None →
  let hello := PacketType.HELLO :: 0 :: 1 :: ver :: default [] payload in
  let ack := [PacketType.ACKNOWLEDGEMENT; 0; 1; 255] in
  let cl1 := (Client.step ver (CallConnect payload) Client.init).1 in
  let srv1 := Server.handleMessage ver now hello remote srv in
  let cl2 := (Client.step ver (OfConnection (Data now' ack)) cl1).1 in
  (sent (connection cl1) = [hello] ∧ connected cl1 = false) ∧
  (∃ c, connections srv1 !! Server.ipKey remote = Some c ∧
        sent c = [ack] ∧ emitted c = [EvHello (default [] payload)]) ∧
  (connected cl2 = true ∧ connectedEvents cl2 = 1%nat ∧
   promiseOf 0 (connection cl2) = Some Resolved ∧ sent (connection cl2) = [hello]).
Proof.
  intros Hv Hnew hello ack cl1 srv1 cl2.
  assert (E1 : cl1 = {| connection := Client.sendRawReliable hello 1 (set_nonce 1 Conn.init);
                        connected := false; awaiting := [0%nat]; connectedEvents := 0 |}).
  { unfold cl1. rewrite connect_fresh by exact Hv. reflexivity. }
  split; [|split].
  - rewrite E1. split; reflexivity.
  - unfold srv1, hello. rewrite handleMessage_hello; [|exact Hnew|unfold isByte; lia..].
    cbn [connections]. eexists. split; [apply lookup_insert_eq|]. split; reflexivity.
  - unfold cl2. rewrite E1. unfold Client.step. cbn [Client.call connection].
    unfold ack. rewrite step_ack_long.
    change (0 * 2 ^ 8 + 1) with 1.
    replace (pendingAck (Client.sendRawReliable hello 1 (set_nonce 1 Conn.init)) !! 1)
      with (Some (OnAckReliable 0)) by (symmetry; apply lookup_insert_eq).
    repeat split.
Qed.

(** A new client, a new server and version 0. *)
Lemma handshake_completes_witness :
  let remote := {| address := "127.0.0.1"; port := 1337 |} in
  let cl1 := (Client.step 0 (CallConnect None) Client.init).1 in
  let cl2 := (Client.step 0 (OfConnection (Data 9 [10; 0; 1; 255])) cl1).1 in
  sent (connection cl1) = [[8; 0; 1; 0]] ∧
  (∃ c, connections (Server.handleMessage 0 5 [8; 0; 1; 0] remote Server.init)
          !! "127.0.0.1:1337"%string = Some c ∧ sent c = [[10; 0; 1; 255]]) ∧
  connected cl2 = true ∧ connectedEvents cl2 = 1%nat.
Proof.
  intros remote cl1 cl2.
  destruct (handshake_completes 0 5 9 None remote Server.init)
    as ((Hs & _) & (c & Hc & Hsc & _) & (Hcon & Hev & _)); [lia|reflexivity|].
  split; [exact Hs|]. split; [exists c; split; [exact Hc|exact Hsc]|].
  split; [exact Hcon|exact Hev].
Defined.

Lemma client_run_cons ver i inputs s :
  Client.run ver (i :: inputs) s = Client.run ver inputs (Client.step ver i s).1.
Proof. reflexivity. Qed.

Lemma client_run_connection ver ins : ∀ s,
  Forall (fun i => ∀ now msg, i ≠ Data now msg) ins → noResolved (connection s) →
  Client.run ver (OfConnection <$> ins) s
  = {| connection := Conn.run ver ClientSide ins (connection s); connected := connected s;
       awaiting := awaiting s; connectedEvents := connectedEvents s |}.
Proof.
  induction ins as [|i ins IH]; intros s Hin Hn.
  - destruct s; reflexivity.
  - apply Forall_cons in Hin as [Hi Hin]. cbn [fmap list_fmap].
    rewrite client_run_cons, run_cons. unfold Client.step at 1. cbn [Client.call].
    destruct (step ver ClientSide i (connection s)) as [c o] eqn:E.
    assert (Hc : noResolved c).
    { replace c with (step ver ClientSide i (connection s)).1 by (rewrite E; reflexivity).
      apply step_noResolved; assumption. }
    rewrite runThens_quiet by exact Hc. cbn [fst]. rewrite IH by assumption. reflexivity.
Qed.

(** X28.  A [connect] that is never acknowledged: the HELLO is sent
    once by [sendRawReliable] and once more at each of the next ten ticks
    of its interval; at the eleventh tick the promise is rejected and the
    connection disconnects, forced: it emits [close], sends the two-byte
    disconnect datagram and stops its ping timer.  The client is not
    connected at any point. *)
Theorem client_connect_unanswered ver payload :
  0 ≤ ver ≤ 255 →
  let hello := PacketType.HELLO :: 0 :: 1 :: ver :: default [] payload in
  let s10 := Client.run ver (CallConnect payload :: replicate 10 (OfConnection (RetxTick 0)))
               Client.init in
  let s11 := (Client.step ver (OfConnection (RetxTick 0)) s10).1 in
  (sent (connection s10) = replicate 11 hello ∧ promiseOf 0 (connection s10) = Some Pending ∧
   emitted (connection s10) = [] ∧ connected s10 = false) ∧
  (promiseOf 0 (connection s11) = Some Rejected ∧
   sent (connection s11) = replicate 11 hello ++ [[1; 0]] ∧
   emitted (connection s11) = [EvClose (Some true) None None] ∧
   pingTimer (connection s11) = false ∧ connected s11 = false).
Proof.
  intros Hv hello s10 s11.
  assert (E10 : s10 = {| connection :=
                           Conn.run ver ClientSide (replicate 10 (RetxTick 0))
                             (Client.sendRawReliable hello 1 (set_nonce 1 Conn.init));
                         connected := false; awaiting := [0%nat]; connectedEvents := 0 |}).
  { unfold s10. rewrite client_run_cons, connect_fresh by exact Hv. cbn [fst].
    change (replicate 10 (OfConnection (RetxTick 0)))
      with (OfConnection <$> replicate 10 (RetxTick 0)).
    rewrite client_run_connection; [reflexivity| |].
    - apply Forall_replicate. intros now msg. discriminate.
    - cbn [connection]. apply noResolved_sendRawReliable. intros id r Hr. discriminate. }
  split.
  - rewrite E10. repeat split.
  - unfold s11. rewrite E10. repeat split.
Qed.

(** [connect] without payload, version 0. *)
Lemma client_connect_unanswered_witness :
  let s10 := Client.run 0 (CallConnect None :: replicate 10 (OfConnection (RetxTick 0)))
               Client.init in
  let s11 := (Client.step 0 (OfConnection (RetxTick 0)) s10).1 in
  sent (connection s10) = replicate 11 [8; 0; 1; 0] ∧
  promiseOf 0 (connection s11) = Some Rejected ∧
  sent (connection s11) = replicate 11 [8; 0; 1; 0] ++ [[1; 0]].
Proof.
  intros s10 s11.
  destruct (client_connect_unanswered 0 None) as ((Hs & _) & (Hp & Hs' & _)); [lia|].
  split; [exact Hs|]. split; [exact Hp|exact Hs'].
Defined.
